(** * Ito card game (ito.py): card distributor, order resolver, reveal
      sequencer and the room state machine of the administrator view,
      with room creation, the join list, the player view and the
      results screen.

    The Python code is embedded shallowly.  Python integers are [Z], list
    positions that the code only ever counts up from zero are [nat], strings
    are [string], dictionaries are insertion-ordered association lists with
    Python's overwrite-in-place behaviour, and an exception is a value of
    the error monad [res].  One run of the Streamlit script is a function
    from the loaded store, the session state and the widget event of that
    run to the saved store, the new session state and what was shown;
    the sessions that administer a room share the store and keep a
    session state each. *)

From Stdlib Require Import String DecimalString DecimalZ DecimalPos Ascii.
From Stdlib Require Import ZArith List Bool Lia Permutation Sorted FinFun.
Import ListNotations.
Local Open Scope string_scope.
Local Open Scope list_scope.
Local Open Scope Z_scope.

(* ================================================================= *)
(** ** Python runtime fragments used by the program *)

(** The exception classes that the modelled code can raise. *)
Inductive exn : Type :=
| KeyError
| IndexError
| ValueError.

(** A computation either returns or raises. *)
Inductive res (A : Type) : Type :=
| Ok (a : A)
| Raise (e : exn).
Arguments Ok {A} a.
Arguments Raise {A} e.

Definition bind {A B : Type} (m : res A) (k : A -> res B) : res B :=
  match m with
  | Ok a => k a
  | Raise e => Raise e
  end.

Notation "x <- m ;; k" := (bind m (fun x => k))
  (at level 61, m at next level, right associativity).

(** [str(n)] on an integer: its decimal numeral. *)
Definition str (n : Z) : string := NilZero.string_of_int (Z.to_int n).

(** [len(l)]. *)
Definition len {A : Type} (l : list A) : Z := Z.of_nat (length l).

(** [l[k]] for a position [k] that is never negative. *)
Definition index {A : Type} (l : list A) (k : nat) : res A :=
  match nth_error l k with
  | Some x => Ok x
  | None => Raise IndexError
  end.

(** [list(range(a, b))]. *)
Definition range (a b : Z) : list Z :=
  map (fun i => a + Z.of_nat i) (seq 0 (Z.to_nat (b - a))).

(** A slice bound, resolved against a list of length [n] as Python does:
    a negative bound counts from the end, and every bound is clamped. *)
Definition clamp (n a : Z) : Z :=
  if a <? 0 then Z.max (a + n) 0 else Z.min a n.

(** [l[a:b]]. *)
Definition slice {A : Type} (l : list A) (a b : Z) : list A :=
  let lo := clamp (len l) a in
  let hi := clamp (len l) b in
  firstn (Z.to_nat (hi - lo)) (skipn (Z.to_nat lo) l).

(** [sorted(l)] on integers.  Any sorting algorithm returns the same list
    on a total order without distinguishable equal keys; insertion sort is
    the executable stand-in for Python's. *)
Fixpoint insert (x : Z) (l : list Z) : list Z :=
  match l with
  | [] => [x]
  | y :: l' => if x <=? y then x :: l else y :: insert x l'
  end.

Definition sorted (l : list Z) : list Z := fold_right insert [] l.

(** [a == b] on lists of integers. *)
Fixpoint list_eqb (a b : list Z) : bool :=
  match a, b with
  | [], [] => true
  | x :: a', y :: b' => (x =? y) && list_eqb a' b'
  | _, _ => false
  end.

(** Python dictionaries with string keys.  Insertion order is kept,
    assigning to a key that is present replaces its value where it
    stands, and reading an absent key raises [KeyError]. *)
Module Dict.

Definition t (V : Type) : Type := list (string * V).

Definition empty {V : Type} : t V := [].

Fixpoint get {V : Type} (d : t V) (k : string) : option V :=
  match d with
  | [] => None
  | (k', v) :: d' => if String.eqb k' k then Some v else get d' k
  end.

Fixpoint set {V : Type} (d : t V) (k : string) (v : V) : t V :=
  match d with
  | [] => [(k, v)]
  | (k', v') :: d' =>
      if String.eqb k' k then (k', v) :: d' else (k', v') :: set d' k v
  end.

Definition keys {V : Type} (d : t V) : list string := map fst d.

Definition values {V : Type} (d : t V) : list V := map snd d.

Definition mem {V : Type} (d : t V) (k : string) : bool :=
  match get d k with
  | Some _ => true
  | None => false
  end.

(** [d[k]]. *)
Definition item {V : Type} (d : t V) (k : string) : res V :=
  match get d k with
  | Some v => Ok v
  | None => Raise KeyError
  end.

End Dict.

(* ================================================================= *)
(** ** The entropy source: [random.sample]

    [random.sample(population, k)] is library code.  Its contract is a list
    of [k] elements taken at pairwise distinct positions of the population,
    and [ValueError] when [k] is negative or exceeds the population.  The
    model draws position after position from what is left of the pool; the
    [i]-th raw draw of the generator is [rnd i], reduced to the size of the
    remaining pool.  Every ordered choice of [k] distinct positions is the
    result for some [rnd]. *)

Fixpoint draw (rnd : nat -> nat) (i : nat) (pool : list Z) (k : nat)
  : list Z :=
  match k with
  | O => []
  | S k' =>
      match pool with
      | [] => []
      | _ :: _ =>
          let j := Nat.modulo (rnd i) (length pool) in
          nth j pool 0
            :: draw rnd (S i) (firstn j pool ++ skipn (S j) pool) k'
      end
  end.

Definition sample (rnd : nat -> nat) (population : list Z) (k : Z)
  : res (list Z) :=
  if (k <? 0) || (len population <? k) then Raise ValueError
  else Ok (draw rnd 0 population (Z.to_nat k)).

(* ================================================================= *)
(** ** Data model *)

(** The three values that [game['status']] takes. *)
Inductive status_t : Type :=
| waiting
| playing
| finished.

Definition status_eqb (a b : status_t) : bool :=
  match a, b with
  | waiting, waiting | playing, playing | finished, finished => true
  | _, _ => false
  end.

(** A hand mapping: player name to the cards dealt to that player. *)
Definition hands : Type := Dict.t (list Z).

(** An entry of [game['results']]. *)
Module Result.
Record t : Type := mk {
  played_order : list Z;
  correct_order : list Z;
  is_correct : bool;
  timestamp : string
}.
End Result.

(** The dictionary built by [create_new_game]. *)
Record game : Type := mkGame {
  room_code : string;
  players : list string;
  current_round : Z;
  max_rounds : Z;
  cards_per_round : Dict.t hands;
  results : Dict.t Result.t;
  created_at : string;
  status : status_t
}.

(** [st.session_state.card_reveal]. *)
Module Reveal.
Record t : Type := mk {
  round : Z;
  correct_order : list Z;
  played_order : list Z;
  current_card : nat;
  is_correct : bool
}.
End Reveal.

(** The session state holds at most the key ['card_reveal']. *)
Definition session : Type := option Reveal.t.

(** The content of the games file: room code to game. *)
Definition store : Type := Dict.t game.

(* ================================================================= *)
(** ** Room creation and card distribution *)

Definition create_new_game (room_code : string) (players : list string)
  (max_rounds : Z) (now : string) : game :=
  mkGame room_code players 1 max_rounds Dict.empty Dict.empty now waiting.

(** The loop [for i, player in enumerate(players)] of [distribute_cards],
    entered at position [i] with the dictionary built so far. *)
Fixpoint deal (players : list string) (round_num : Z)
  (selected_cards : list Z) (i : Z) (player_cards : hands) : hands :=
  match players with
  | [] => player_cards
  | player :: rest =>
      deal rest round_num selected_cards (i + 1)
        (Dict.set player_cards player
           (slice selected_cards (i * round_num) ((i + 1) * round_num)))
  end.

(** [distribute_cards].  [Ok None] is the path that shows the error
    message and returns [None]. *)
Definition distribute_cards (rnd : nat -> nat) (players : list string)
  (round_num : Z) (card_range : Z * Z) : res (option hands) :=
  let num_players := len players in
  let cards_needed := num_players * round_num in
  if cards_needed >? snd card_range - fst card_range + 1 then Ok None
  else
    let all_cards := range (fst card_range) (snd card_range + 1) in
    selected_cards <- sample rnd all_cards cards_needed ;;
    Ok (Some (deal players round_num selected_cards 0 Dict.empty)).

(** The default [card_range=(1, 100)]. *)
Definition default_range : Z * Z := (1, 100).

(* ================================================================= *)
(** ** Order resolver and verification *)

(** The loop [for player in player_selections] of the verification form.
    [todo] is what the loop has not visited yet and [played_order] the
    list appended to so far; the index into the sorted hand counts the
    occurrences of [player] in [player_selections[:len(played_order)]]. *)
Fixpoint resolve_loop (round_cards : hands)
  (player_selections todo : list string) (played_order : list Z)
  : res (list Z) :=
  match todo with
  | [] => Ok played_order
  | player :: rest =>
      hand <- Dict.item round_cards player ;;
      let player_cards := sorted hand in
      card <- index player_cards
                (count_occ string_dec
                   (firstn (length played_order) player_selections) player) ;;
      resolve_loop round_cards player_selections rest (played_order ++ [card])
  end.

(** The order resolver: the loop run over the whole submission. *)
Definition resolve_order (round_cards : hands)
  (player_selections : list string) : res (list Z) :=
  resolve_loop round_cards player_selections player_selections [].

(** [all_cards], extended with every hand of [cards.values()]. *)
Definition all_cards (cards : hands) : list Z := concat (Dict.values cards).

(** The body of the [try] of the verification form.  [Ok None] is the
    branch that shows the count message; [Ok (Some r)] carries the
    result record to be stored. *)
Definition verify_order (game : game) (player_selections : list string)
  (now : string) : res (option Result.t) :=
  let current_round := current_round game in
  let total_cards := len (players game) * current_round in
  round_cards <- Dict.item (cards_per_round game) (str current_round) ;;
  played_order <- resolve_order round_cards player_selections ;;
  if negb (len played_order =? total_cards) then Ok None
  else
    cards <- Dict.item (cards_per_round game) (str current_round) ;;
    let correct_order := sorted (all_cards cards) in
    let is_correct := list_eqb played_order correct_order in
    Ok (Some (Result.mk played_order correct_order is_correct now)).

(* ================================================================= *)
(** ** Reveal sequencer *)

(** The reveal button is drawn while cards remain to be revealed. *)
Definition reveal_pending (rd : Reveal.t) : bool :=
  (Reveal.current_card rd <? length (Reveal.correct_order rd))%nat.

(** [st.session_state.card_reveal['current_card'] += 1]. *)
Definition reveal_next (rd : Reveal.t) : Reveal.t :=
  Reveal.mk (Reveal.round rd) (Reveal.correct_order rd)
    (Reveal.played_order rd) (S (Reveal.current_card rd))
    (Reveal.is_correct rd).

(** The reveal state written after a verification. *)
Definition new_reveal (current_round : Z) (r : Result.t) : Reveal.t :=
  Reveal.mk current_round (Result.correct_order r) (Result.played_order r)
    0%nat (Result.is_correct r).

(** One coloured panel: the card of the correct order, the card played
    at that position ([None] past the end of the played order) and
    whether the two are equal. *)
Definition panel (rd : Reveal.t) (i : nat) (card : Z)
  : Z * option Z * bool :=
  let played_card := nth_error (Reveal.played_order rd) i in
  (card, played_card,
   match played_card with
   | Some p => p =? card
   | None => false
   end).

Fixpoint panels_from (rd : Reveal.t) (i : nat) (cards : list Z)
  : list (Z * option Z * bool) :=
  match cards with
  | [] => []
  | card :: rest => panel rd i card :: panels_from rd (S i) rest
  end.


(* ================================================================= *)
(** ** The administrator view as a transition function *)

(** The widget that fired in a run of the script.  A distribution
    carries the draws of its run, a submission the selections of the
    form and the clock reading. *)
Inductive event : Type :=
| Refresh
| ClickDistribute (rnd : nat -> nat)
| SubmitOrder (player_selections : list string) (now : string)
| ClickReveal
| ClickContinue
| ClickRestart.

(** What a run showed: nothing of note, an [st.error] message, or the
    exception that ended the run because nothing caught it (Streamlit
    then prints the traceback in place of the rest of the page). *)
Inductive notice : Type :=
| Quiet
| ErrorShown
| Uncaught (e : exn).

(** The effects of a run: the argument of [save_games] when it was
    called, the session state left behind, and the notice. *)
Record outcome : Type := mkOutcome {
  saved : option store;
  kept : session;
  shown : notice
}.

(** The games file after a run that started from [games]. *)
Definition store_after (games : store) (o : outcome) : store :=
  match saved o with
  | Some games' => games'
  | None => games
  end.

(** [game['cards_per_round'][str(current_round)] = cards] and
    [game['status'] = 'playing']. *)
Definition with_cards (g : game) (cards : hands) : game :=
  mkGame (room_code g) (players g) (current_round g) (max_rounds g)
    (Dict.set (cards_per_round g) (str (current_round g)) cards)
    (results g) (created_at g) playing.

(** [game['results'][str(current_round)] = r]. *)
Definition with_result (g : game) (r : Result.t) : game :=
  mkGame (room_code g) (players g) (current_round g) (max_rounds g)
    (cards_per_round g)
    (Dict.set (results g) (str (current_round g)) r)
    (created_at g) (status g).

(** Next round or end of the game. *)
Definition advance (g : game) : game :=
  if current_round g <? max_rounds g
  then mkGame (room_code g) (players g) (current_round g + 1) (max_rounds g)
         (cards_per_round g) (results g) (created_at g) waiting
  else mkGame (room_code g) (players g) (current_round g) (max_rounds g)
         (cards_per_round g) (results g) (created_at g) finished.

(** The four assignments of the restart button. *)
Definition restart (g : game) : game :=
  mkGame (room_code g) (players g) 1 (max_rounds g)
    Dict.empty Dict.empty (created_at g) waiting.

(** [if cards:] on a dictionary returned by [distribute_cards]: an
    empty dictionary is false, like [None]. *)
Definition truthy (cards : hands) : bool :=
  match cards with
  | [] => false
  | _ :: _ => true
  end.

(** The restart button, drawn last in every status. *)
Definition restart_button (ev : event) (room_code : string) (game : game)
  (games : store) (ss : session) (n : notice) : outcome :=
  match ev with
  | ClickRestart =>
      mkOutcome (Some (Dict.set games room_code (restart game))) None n
  | _ => mkOutcome None ss n
  end.

(** The reveal section of the playing status. *)
Definition reveal_section (ev : event) (room_code : string) (game : game)
  (games : store) (ss : session) (n : notice) : outcome :=
  match ss with
  | Some reveal_data =>
      if reveal_pending reveal_data then
        match ev with
        | ClickReveal => mkOutcome None (Some (reveal_next reveal_data)) n
        | _ => restart_button ev room_code game games ss n
        end
      else
        match ev with
        | ClickContinue =>
            mkOutcome (Some (Dict.set games room_code (advance game))) None n
        | _ => restart_button ev room_code game games ss n
        end
  | None => restart_button ev room_code game games ss n
  end.

(** [show_admin_view(room_code, game, games)] for one event.  A branch
    that ends in [st.rerun()] or in an uncaught exception is the outcome
    of the run; every other branch falls through to what the script
    draws next. *)
Definition show_admin_view (ev : event) (room_code : string) (game : game)
  (games : store) (ss : session) : outcome :=
  match status game with
  | waiting =>
      match ev with
      | ClickDistribute rnd =>
          let current_round := current_round game in
          match distribute_cards rnd (players game) current_round
                  default_range with
          | Raise e => mkOutcome None ss (Uncaught e)
          | Ok None => restart_button ev room_code game games ss ErrorShown
          | Ok (Some cards) =>
              if truthy cards
              then mkOutcome
                     (Some (Dict.set games room_code (with_cards game cards)))
                     ss Quiet
              else restart_button ev room_code game games ss Quiet
          end
      | _ => restart_button ev room_code game games ss Quiet
      end
  | playing =>
      let current_round := current_round game in
      match ev with
      | SubmitOrder player_selections now =>
          match verify_order game player_selections now with
          | Ok (Some r) =>
              mkOutcome
                (Some (Dict.set games room_code (with_result game r)))
                match ss with
                | None => Some (new_reveal current_round r)
                | Some _ => ss
                end
                Quiet
          | Ok None => reveal_section ev room_code game games ss ErrorShown
          | Raise ValueError =>
              reveal_section ev room_code game games ss ErrorShown
          | Raise e => mkOutcome None ss (Uncaught e)
          end
      | _ => reveal_section ev room_code game games ss Quiet
      end
  | finished => restart_button ev room_code game games ss Quiet
  end.

(** The dispatch of [main] for a request without a player parameter:
    the administrator view of a room that is in the store, the menu
    (which changes nothing here) otherwise. *)
Definition main (ev : event) (room_code : string) (games : store)
  (ss : session) : outcome :=
  if String.eqb room_code "" then mkOutcome None ss Quiet
  else
    match Dict.get games room_code with
    | Some game => show_admin_view ev room_code game games ss
    | None => mkOutcome None ss Quiet
    end.

(* ================================================================= *)
(** ** Runs of one administrator session on a room *)

(** The administrator either fires a widget or opens the page anew,
    which starts from an empty session state. *)
Inductive action : Type :=
| Widget (ev : event)
| NewSession.

Definition step (room : string) (c : store * session) (a : action)
  : store * session :=
  match a with
  | Widget ev =>
      let o := main ev room (fst c) (snd c) in
      (store_after (fst c) o, kept o)
  | NewSession => (fst c, None)
  end.

Definition run (room : string) (c : store * session) (acts : list action)
  : store * session :=
  fold_left (step room) acts c.

(** The games file right after [show_create_room] stored a new room. *)
Definition created (games : store) (code : string) (names : list string)
  (rounds : Z) (now : string) : store * session :=
  (Dict.set games code (create_new_game code names rounds now), None).

(* ================================================================= *)
(** ** The submission that walks the correct order *)

(** Owner of a card: the first player of the mapping whose hand holds
    it (the empty name when nobody does). *)
Fixpoint holder (cards : hands) (v : Z) : string :=
  match cards with
  | [] => ""
  | (player, hand) :: rest =>
      if existsb (Z.eqb v) hand then player else holder rest v
  end.

(** The submission that walks the correct order and names, for each
    value, the player who holds it. *)
Definition walk (cards : hands) : list string :=
  map (holder cards) (sorted (all_cards cards)).

(* ================================================================= *)
(** ** Several administrator sessions on one room *)

(** [main] gives the administrator view to every request that names the
    room and no player, from whatever browser session it comes.  The
    games file is shared by all of them; [st.session_state], and with
    it the reveal state, belongs to the session.  Sessions are numbered,
    and a visit is an action of one of them. *)
Definition viewers : Type := nat -> session.

Definition put (vs : viewers) (v : nat) (ss : session) : viewers :=
  fun w => if Nat.eqb w v then ss else vs w.

Definition visit (room : string) (c : store * viewers) (va : nat * action)
  : store * viewers :=
  let c' := step room (fst c, snd c (fst va)) (snd va) in
  (fst c', put (snd c) (fst va) (snd c')).

Definition visits (room : string) (c : store * viewers)
  (l : list (nat * action)) : store * viewers :=
  fold_left (visit room) l c.

(** The games file right after [show_create_room] stored a new room;
    no session has a reveal state yet. *)
Definition opened (games : store) (code : string) (names : list string)
  (rounds : Z) (now : string) : store * viewers :=
  (Dict.set games code (create_new_game code names rounds now),
   fun _ => None).

(* ================================================================= *)
(** ** The verification form *)

(** What the verification form submits: one selection for each of its
    [len(players) * current_round] positions, each taken from the select
    box of the position, whose options are the players. *)
Definition form_submission (game : game) (player_selections : list string)
  : Prop :=
  len player_selections = len (players game) * current_round game /\
  Forall (fun p => In p (players game)) player_selections.

(* ================================================================= *)
(** ** Room codes, room creation and the list of rooms to join *)

(** [string.ascii_uppercase + string.digits]. *)
Definition code_alphabet : string := "ABCDEFGHIJKLMNOPQRSTUVWXYZ0123456789".

(** [random.choices(population, k=k)] on a population that is not empty:
    [k] draws with replacement, draw [i] taking the position [rnd i]
    reduced to the size of the population. *)
Definition choices (rnd : nat -> nat) (population : list ascii) (k : nat)
  : list ascii :=
  map (fun i => nth (Nat.modulo (rnd i) (length population)) population
                  Ascii.zero)
    (seq 0 k).

(** [generate_room_code]. *)
Definition generate_room_code (rnd : nat -> nat) : string :=
  string_of_list_ascii (choices rnd (list_ascii_of_string code_alphabet) 6).

(** The first code and the loop [while room_code in games] of
    [show_create_room].  The [j]-th call of the generator draws from
    [rnds j]; [fuel] bounds the number of codes generated, and [None] is
    a loop that has not ended within it. *)
Fixpoint unique_code (fuel : nat) (rnds : nat -> nat -> nat) (j : nat)
  (games : store) : option string :=
  match fuel with
  | O => None
  | S fuel' =>
      let room_code := generate_room_code (rnds j) in
      if Dict.mem games room_code
      then unique_code fuel' rnds (S j) games
      else Some room_code
  end.

(** The submitted branch of [show_create_room]: the code of the new room
    and the store passed to [save_games]. *)
Definition show_create_room (fuel : nat) (rnds : nat -> nat -> nat)
  (player_names : list string) (max_rounds : Z) (now : string)
  (games : store) : option (string * store) :=
  match unique_code fuel rnds 0 games with
  | Some room_code =>
      let game := create_new_game room_code player_names max_rounds now in
      Some (room_code, Dict.set games room_code game)
  | None => None
  end.

(** What the two number inputs of the creation form let through:
    2 to 8 players and 1 to 10 rounds. *)
Definition from_form (player_names : list string) (max_rounds : Z) : Prop :=
  2 <= len player_names <= 8 /\ 1 <= max_rounds <= 10.

(** [active_rooms] of [show_join_room]: the rooms that are not finished,
    in the order of the store. *)
Definition active_rooms (games : store) : store :=
  filter (fun kv => negb (status_eqb (status (snd kv)) finished)) games.

(** What [show_join_room] draws: the warning, or the select box with the
    codes of the active rooms. *)
Inductive join_screen : Type :=
| NoActiveRooms
| ChooseRoom (options : list string).

Definition show_join_room (games : store) : join_screen :=
  match games with
  | [] => NoActiveRooms
  | _ :: _ =>
      match active_rooms games with
      | [] => NoActiveRooms
      | _ :: _ => ChooseRoom (Dict.keys (active_rooms games))
      end
  end.

(* ================================================================= *)
(** ** Player view and results *)

(** [show_game_results]: nothing to score without results, else the
    pair [(correct_rounds, total_rounds)] of the score metric. *)
Definition show_game_results (game : game) : option (nat * nat) :=
  match results game with
  | [] => None
  | _ :: _ =>
      let total_rounds := length (results game) in
      let correct_rounds :=
        length (filter Result.is_correct (Dict.values (results game))) in
      Some (correct_rounds, total_rounds)
  end.

(** What [show_player_view] draws for a player.  The cards are laid out
    in [st.columns(len(player_cards))], which raises when the hand is
    empty: [ColumnsError] is that run. *)
Inductive player_screen : Type :=
| AwaitingCards
| YourCards (player_cards : list Z)
| ColumnsError
| NotRegistered
| NotDistributed
| GameOver (score : option (nat * nat)).

Definition show_player_view (game : game) (player_id : string)
  : player_screen :=
  let current_round := current_round game in
  match status game with
  | waiting => AwaitingCards
  | playing =>
      match Dict.get (cards_per_round game) (str current_round) with
      | Some cards =>
          match Dict.get cards player_id with
          | Some hand =>
              let player_cards := sorted hand in
              match player_cards with
              | [] => ColumnsError
              | _ :: _ => YourCards player_cards
              end
          | None => NotRegistered
          end
      | None => NotDistributed
      end
  | finished => GameOver (show_game_results game)
  end.

(* ================================================================= *)
(** ** Summary of a completed reveal *)

(** [correct_count]: the positions of the played order, within the
    correct order, that hold the card of the correct order. *)
Definition correct_count (rd : Reveal.t) : nat :=
  length
    (filter
       (fun i =>
          (i <? length (Reveal.correct_order rd))%nat
          && (nth i (Reveal.played_order rd) 0
              =? nth i (Reveal.correct_order rd) 0))
       (seq 0 (length (Reveal.played_order rd)))).



(** The panels of the final display that are drawn as correct (the
    display has no panel when the correct order is empty). *)
Definition green_panels (rd : Reveal.t) : nat :=
  length (filter (fun p => snd p) (panels_from rd 0 (Reveal.correct_order rd))).

(* ================================================================= *)
(** ** Vocabulary of the statements *)

(** The mapping that the distribution loop builds for names it meets
    for the first time: player [i + j] with block [i + j] of the sample. *)
Fixpoint blocks (todo : list string) (round_num : Z) (selected_cards : list Z)
  (i : Z) : hands :=
  match todo with
  | [] => []
  | player :: rest =>
      (player, slice selected_cards (i * round_num) ((i + 1) * round_num))
        :: blocks rest round_num selected_cards (i + 1)
  end.

(** What the card distributor is to deliver for the sample [selected]:
    [p * r] distinct values of the pool, block [i] of size [r] in the hand
    of player [i], hands of distinct values that are pairwise disjoint and
    hold [p * r] cards together. *)
Definition fair_deal (names : list string) (round_num lo hi : Z)
  (selected : list Z) (cards : hands) : Prop :=
  len selected = len names * round_num /\
  NoDup selected /\
  Forall (fun v => lo <= v <= hi) selected /\
  Dict.keys cards = names /\
  (forall i player, nth_error names i = Some player ->
     exists hand,
       Dict.get cards player = Some hand /\
       hand = slice selected (Z.of_nat i * round_num)
                ((Z.of_nat i + 1) * round_num) /\
       len hand = round_num /\ NoDup hand) /\
  (forall i j pi pj hi hj,
     i <> j -> nth_error names i = Some pi -> nth_error names j = Some pj ->
     Dict.get cards pi = Some hi -> Dict.get cards pj = Some hj ->
     forall v, In v hi -> ~ In v hj) /\
  NoDup (all_cards cards) /\
  len (all_cards cards) = len names * round_num.

(** [distribute_cards] returns a mapping that is a fair deal of the
    sample drawn in that call. *)
Definition deals_fairly (rnd : nat -> nat) (names : list string)
  (round_num lo hi : Z) : Prop :=
  exists selected cards,
    sample rnd (range lo (hi + 1)) (len names * round_num) = Ok selected /\
    distribute_cards rnd names round_num (lo, hi) = Ok (Some cards) /\
    fair_deal names round_num lo hi selected cards.

(** Number of times [player] was named before position [i]. *)
Definition named_before (selections : list string) (i : nat)
  (player : string) : nat :=
  count_occ string_dec (firstn i selections) player.

(** Every selected name has a hand and is named no more often than that
    hand has cards. *)
Definition within_hands (round_cards : hands) (selections : list string)
  : Prop :=
  forall player, In player selections ->
    exists hand, Dict.get round_cards player = Some hand /\
                 (count_occ string_dec selections player <= length hand)%nat.

(** [played] holds, at every position, the card that the contract of the
    resolver names. *)
Definition resolves_to (round_cards : hands) (selections : list string)
  (played : list Z) : Prop :=
  length played = length selections /\
  forall i player, nth_error selections i = Some player ->
    exists hand card,
      Dict.get round_cards player = Some hand /\
      nth_error (sorted hand) (named_before selections i player)
      = Some card /\
      nth_error played i = Some card.

(** The record that a verification writes for the resolved order. *)
Definition result_of (cards : hands) (played : list Z) (now : string)
  : Result.t :=
  Result.mk played (sorted (all_cards cards))
    (list_eqb played (sorted (all_cards cards))) now.

(** A result is recorded for the current round. *)
Definition has_result (g : game) : bool :=
  Dict.mem (results g) (str (current_round g)).

(** The reveal state moved to position [k]. *)
Definition reveal_at (rd : Reveal.t) (k : nat) : Reveal.t :=
  Reveal.mk (Reveal.round rd) (Reveal.correct_order rd)
    (Reveal.played_order rd) k (Reveal.is_correct rd).

(** The invariant of a room under the actions of its administrator. *)
Definition room_inv (room : string) (c : store * session) : Prop :=
  exists g,
    Dict.get (fst c) room = Some g /\
    1 <= current_round g <= max_rounds g /\
    (status g = finished ->
     current_round g = max_rounds g /\ has_result g = true) /\
    (forall rd, snd c = Some rd -> status g = playing /\ has_result g = true).

(** The game that a run of the administrator view stores, when it
    stores one: the four writes of the view. *)
Inductive stores (ev : event) (g : game) (ss : session) : game -> Prop :=
| stores_deal rnd cards :
    ev = ClickDistribute rnd -> status g = waiting ->
    distribute_cards rnd (players g) (current_round g) default_range
    = Ok (Some cards) ->
    truthy cards = true ->
    stores ev g ss (with_cards g cards)
| stores_result sels now r :
    ev = SubmitOrder sels now -> status g = playing ->
    verify_order g sels now = Ok (Some r) ->
    stores ev g ss (with_result g r)
| stores_advance rd :
    ev = ClickContinue -> status g = playing ->
    ss = Some rd -> reveal_pending rd = false ->
    stores ev g ss (advance g)
| stores_restart :
    ev = ClickRestart -> stores ev g ss (restart g).

(** The keys of the rounds 1 to [upto]. *)
Definition round_keys (upto : Z) : list string :=
  map str (range 1 (upto + 1)).

(** The last round that has hands, and, in a room run from one
    administrator session, the last round that has a result. *)
Definition last_dealt (g : game) : Z :=
  if status_eqb (status g) waiting then current_round g - 1
  else current_round g.

Definition last_verified (g : game) : Z :=
  if has_result g then current_round g else current_round g - 1.

(** The hands of the current round, when the round has hands, are a
    deal of [distribute_cards] to [names]. *)
Definition dealt_here (names : list string) (g : game) : Prop :=
  forall cards,
    Dict.get (cards_per_round g) (str (current_round g)) = Some cards ->
    exists rnd,
      distribute_cards rnd names (current_round g) default_range
      = Ok (Some cards).

(** What the games file keeps of a room created as
    [create_new_game code names rounds now], whichever sessions act on
    it. *)
Definition room_shared (code : string) (names : list string) (rounds : Z)
  (now : string) (games : store) : Prop :=
  exists g,
    Dict.get games code = Some g /\
    (room_code g = code /\ players g = names /\
     max_rounds g = rounds /\ created_at g = now) /\
    1 <= current_round g <= max_rounds g /\
    (status g = finished -> current_round g = max_rounds g) /\
    Dict.keys (cards_per_round g) = round_keys (last_dealt g) /\
    incl (Dict.keys (results g)) (round_keys (last_dealt g)) /\
    dealt_here names g.

(** What a room keeps when one administrator session runs it: the
    rounds with a result are the rounds verified so far. *)
Definition room_history (code : string) (c : store * session) : Prop :=
  exists g,
    Dict.get (fst c) code = Some g /\
    Dict.keys (results g) = round_keys (last_verified g).

(** What a room whose player list repeats a name keeps. *)
Definition stuck (code : string) (c : store * viewers) : Prop :=
  exists g,
    Dict.get (fst c) code = Some g /\
    results g = [] /\ status g <> finished /\ current_round g = 1 /\
    forall v, snd c v = None.

(** The positions at which two lists hold the same card. *)
Fixpoint matches (a b : list Z) : nat :=
  match a, b with
  | x :: a', y :: b' => (if x =? y then 1 else 0) + matches a' b'
  | _, _ => 0
  end.

(** The draws of the distributions among the actions, in their order. *)
Definition deals (acts : list action) : list (nat -> nat) :=
  flat_map (fun a => match a with
                     | Widget (ClickDistribute rnd) => [rnd]
                     | _ => []
                     end) acts.

(** A room of [names] and [rounds] that waits for the deal of round [k]
    with every earlier round verified as correct. *)
Definition ready (code : string) (names : list string) (rounds k : Z)
  (c : store * session) : Prop :=
  exists g,
    Dict.get (fst c) code = Some g /\ snd c = None /\
    status g = waiting /\ current_round g = k /\
    players g = names /\ max_rounds g = rounds /\
    Dict.keys (results g) = round_keys (k - 1) /\
    Forall (fun r => Result.is_correct r = true) (Dict.values (results g)).

(** A finished room of [rounds] rounds, all of them verified as
    correct. *)
Definition won (code : string) (rounds : Z) (c : store * session) : Prop :=
  exists g,
    Dict.get (fst c) code = Some g /\
    status g = finished /\ current_round g = rounds /\
    Dict.keys (results g) = round_keys rounds /\
    Forall (fun r => Result.is_correct r = true) (Dict.values (results g)).

(* ================================================================= *)
(** ** Values for the examples *)

(** Draws of a generator, for the examples. *)
Definition demo_draws (i : nat) : nat := (37 * i + 5)%nat.

(** A games file with two rooms that wait for their first deal. *)
Definition demo_store : store :=
  [("ROOM01", create_new_game "ROOM01" ["Ana"; "Bia"] 1 "11:00");
   ("ROOM02", create_new_game "ROOM02" ["Caio"; "Duda"] 3 "11:30")].

(** A whole game of one round. *)
Definition demo_game : list action :=
  [Widget (ClickDistribute demo_draws);
   Widget (SubmitOrder ["Ana"; "Bia"] "12:00");
   Widget ClickReveal; Widget ClickReveal; Widget ClickContinue].

(** A round verified once, with one card revealed. *)
Definition demo_first_reveal : list action :=
  [Widget (ClickDistribute demo_draws);
   Widget (SubmitOrder ["Ana"; "Bia"] "12:00");
   Widget ClickReveal].


(** A room whose round 1 was verified with the names swapped. *)
Definition demo_playing : game :=
  mkGame "ROOM01" ["Ana"; "Bia"] 1 1
    [("1", [("Ana", [6]); ("Bia", [44])])]
    [("1", Result.mk [44; 6] [6; 44] false "12:00")] "11:00" playing.

(** A room whose round 1 is dealt and not yet verified. *)
Definition demo_dealt : game :=
  mkGame "ROOM01" ["Ana"; "Bia"] 1 1
    [("1", [("Ana", [6]); ("Bia", [44])])] Dict.empty "11:00" playing.

(** A room whose round 1 was verified in the right order. *)
Definition demo_verified : game :=
  mkGame "ROOM01" ["Ana"; "Bia"] 1 1
    [("1", [("Ana", [6]); ("Bia", [44])])]
    [("1", Result.mk [6; 44] [6; 44] true "12:00")] "11:00" playing.

(** The room of two players under one name after its first deal: the
    second hand has replaced the first. *)
Definition demo_twin_round : game :=
  mkGame "ROOM01" ["A"; "A"] 1 1 [("1", [("A", [3])])] Dict.empty
    "11:00" playing.

(** A room whose only round was verified and closed. *)
Definition demo_finished : game :=
  mkGame "ROOM02" ["Caio"; "Duda"] 1 1
    [("1", [("Caio", [12]); ("Duda", [70])])]
    [("1", Result.mk [12; 70] [12; 70] true "12:30")] "11:30" finished.

(* ================================================================= *)
(** * Properties *)

(* ================================================================= *)
(** ** Dictionaries *)

Section DictFacts.
Context {V : Type}.
Implicit Types (d : Dict.t V) (k : string) (v : V).

Lemma get_set_same d k v : Dict.get (Dict.set d k v) k = Some v.
Proof.
  induction d as [|[k' v'] d IH]; simpl.
  - now rewrite String.eqb_refl.
  - destruct (String.eqb k' k) eqn:E; simpl; rewrite E; auto.
Qed.

Lemma get_set_other d k k' v :
  k' <> k -> Dict.get (Dict.set d k v) k' = Dict.get d k'.
Proof.
  intros Hne. induction d as [|[k0 v0] d IH]; simpl.
  - destruct (String.eqb k k') eqn:E; auto.
    apply String.eqb_eq in E. congruence.
  - destruct (String.eqb k0 k) eqn:E; simpl.
    + apply String.eqb_eq in E. subst k0.
      destruct (String.eqb k k') eqn:E'; auto.
      apply String.eqb_eq in E'. congruence.
    + now rewrite IH.
Qed.

Lemma get_None_keys d k : Dict.get d k = None <-> ~ In k (Dict.keys d).
Proof.
  induction d as [|[k' v'] d IH]; simpl.
  - tauto.
  - destruct (String.eqb k' k) eqn:E.
    + apply String.eqb_eq in E. split; [discriminate | tauto].
    + apply String.eqb_neq in E. rewrite IH. tauto.
Qed.

Lemma set_fresh d k v :
  ~ In k (Dict.keys d) -> Dict.set d k v = d ++ [(k, v)].
Proof.
  induction d as [|[k' v'] d IH]; simpl; intros Hn; auto.
  destruct (String.eqb k' k) eqn:E.
  - apply String.eqb_eq in E. tauto.
  - rewrite IH; tauto.
Qed.

Lemma get_app_fresh d d' k :
  ~ In k (Dict.keys d) -> Dict.get (d ++ d') k = Dict.get d' k.
Proof.
  induction d as [|[k' v'] d IH]; simpl; intros Hn; auto.
  destruct (String.eqb k' k) eqn:E.
  - apply String.eqb_eq in E. tauto.
  - apply IH. tauto.
Qed.

Lemma get_In d k v : Dict.get d k = Some v -> In (k, v) d.
Proof.
  induction d as [|[k' v'] d IH]; simpl; [discriminate|].
  destruct (String.eqb k' k) eqn:E.
  - apply String.eqb_eq in E. intros [= ->]. left. now subst.
  - auto.
Qed.

Lemma In_get d k v : NoDup (Dict.keys d) -> In (k, v) d -> Dict.get d k = Some v.
Proof.
  induction d as [|[k' v'] d IH]; simpl; [tauto|].
  intros Hnd [Heq | Hin].
  - injection Heq as -> ->. now rewrite String.eqb_refl.
  - inversion Hnd as [|? ? Hni Hnd']; subst.
    destruct (String.eqb k' k) eqn:E.
    + apply String.eqb_eq in E. subst k'. exfalso. apply Hni.
      change k with (fst (k, v)). now apply in_map.
    + auto.
Qed.
End DictFacts.

(* ================================================================= *)
(** ** Sorting *)

Lemma insert_perm x l : Permutation (insert x l) (x :: l).
Proof.
  induction l as [|y l IH]; simpl; auto.
  destruct (x <=? y); auto.
  rewrite IH. apply perm_swap.
Qed.

Lemma sorted_perm l : Permutation (sorted l) l.
Proof.
  induction l as [|x l IH]; simpl; auto.
  unfold sorted in *. simpl. rewrite insert_perm. now constructor.
Qed.

Lemma sorted_length l : length (sorted l) = length l.
Proof. apply Permutation_length, sorted_perm. Qed.

Lemma sorted_In l v : In v (sorted l) <-> In v l.
Proof.
  split; apply Permutation_in; [|symmetry]; apply sorted_perm.
Qed.

Lemma insert_ascending x l :
  StronglySorted Z.le l -> StronglySorted Z.le (insert x l).
Proof.
  induction 1 as [|y l Hs IH Hall]; simpl.
  - repeat constructor.
  - destruct (x <=? y) eqn:E.
    + apply Z.leb_le in E. constructor.
      * now constructor.
      * constructor; auto.
        eapply Forall_impl; [|exact Hall]. simpl. intros; lia.
    + apply Z.leb_gt in E. constructor; auto.
      rewrite Forall_forall in *. intros z Hz.
      apply (Permutation_in _ (insert_perm x l)) in Hz.
      destruct Hz as [<- | Hz]; [lia | auto].
Qed.

Lemma sorted_ascending l : StronglySorted Z.le (sorted l).
Proof.
  induction l as [|x l IH]; [constructor|].
  apply insert_ascending, IH.
Qed.

Lemma ascending_unique l1 l2 :
  StronglySorted Z.le l1 -> StronglySorted Z.le l2 ->
  Permutation l1 l2 -> l1 = l2.
Proof.
  intros H1. revert l2.
  induction H1 as [|a l1 Hs1 IH Ha]; intros l2 H2 Hp.
  - apply Permutation_nil in Hp. now subst.
  - destruct H2 as [|b l2 Hs2 Hb].
    + symmetry in Hp. apply Permutation_nil in Hp. discriminate.
    + assert (a = b) as ->.
      { rewrite Forall_forall in Ha, Hb.
        assert (In b (a :: l1)) as [-> | Hb1]
            by (eapply Permutation_in; [symmetry; exact Hp | now left]);
          auto.
        assert (In a (b :: l2)) as [-> | Ha2]
            by (eapply Permutation_in; [exact Hp | now left]); auto.
        specialize (Ha _ Hb1). specialize (Hb _ Ha2). lia. }
      f_equal. apply IH; auto. eapply Permutation_cons_inv; eauto.
Qed.

Lemma filter_ascending f l :
  StronglySorted Z.le l -> StronglySorted Z.le (filter f l).
Proof.
  induction 1 as [|a l Hs IH Ha]; simpl; [constructor|].
  destruct (f a); auto. constructor; auto.
  rewrite Forall_forall in *. intros z Hz.
  apply filter_In in Hz. apply Ha, Hz.
Qed.

Lemma list_eqb_refl l : list_eqb l l = true.
Proof.
  induction l as [|x l IH]; simpl; auto. now rewrite Z.eqb_refl.
Qed.

Lemma list_eqb_eq a b : list_eqb a b = true <-> a = b.
Proof.
  revert b. induction a as [|x a IH]; intros [|y b]; simpl;
    try (split; [discriminate | congruence]); try tauto.
  rewrite andb_true_iff, Z.eqb_eq, IH.
  split; [intros [-> ->]; auto | intros [= -> ->]; auto].
Qed.

(* ================================================================= *)
(** ** Ranges and slices *)

Lemma range_length a b : length (range a b) = Z.to_nat (b - a).
Proof. unfold range. now rewrite length_map, length_seq. Qed.

Lemma range_In a b v : In v (range a b) <-> a <= v < b.
Proof.
  unfold range. rewrite in_map_iff. split.
  - intros (i & <- & Hi). apply in_seq in Hi. lia.
  - intros H. exists (Z.to_nat (v - a)). split; [lia|].
    apply in_seq. lia.
Qed.

Lemma range_NoDup a b : NoDup (range a b).
Proof.
  unfold range. apply Injective_map_NoDup; [|apply seq_NoDup].
  intros i j H. lia.
Qed.

Lemma slice_inside {A : Type} (l : list A) a b :
  0 <= a <= b -> b <= len l ->
  slice l a b = firstn (Z.to_nat (b - a)) (skipn (Z.to_nat a) l).
Proof.
  intros Ha Hb. unfold slice, clamp.
  destruct (a <? 0) eqn:Ea; [apply Z.ltb_lt in Ea; lia|].
  destruct (b <? 0) eqn:Eb; [apply Z.ltb_lt in Eb; lia|].
  rewrite !Z.min_l by lia. reflexivity.
Qed.

Lemma slice_len {A : Type} (l : list A) a b :
  0 <= a <= b -> b <= len l -> len (slice l a b) = b - a.
Proof.
  intros Ha Hb. rewrite slice_inside by assumption.
  unfold len in *. rewrite length_firstn, length_skipn. lia.
Qed.

Lemma slice_app {A : Type} (l : list A) a b c :
  0 <= a <= b -> b <= c -> c <= len l ->
  slice l a b ++ slice l b c = slice l a c.
Proof.
  intros Ha Hb Hc. rewrite !slice_inside by lia.
  replace (Z.to_nat (c - a))
    with (Z.to_nat (b - a) + Z.to_nat (c - b))%nat by lia.
  replace (Z.to_nat b) with (Z.to_nat (b - a) + Z.to_nat a)%nat by lia.
  rewrite <- skipn_skipn.
  generalize (skipn (Z.to_nat a) l) as m.
  generalize (Z.to_nat (b - a)) as n. generalize (Z.to_nat (c - b)) as k.
  intros k n. induction n as [|n IH]; intros [|x m]; simpl; auto.
  - now rewrite firstn_nil.
  - f_equal. apply IH.
Qed.

Lemma slice_all {A : Type} (l : list A) : slice l 0 (len l) = l.
Proof.
  unfold len. rewrite slice_inside by (unfold len; lia).
  simpl. rewrite Z.sub_0_r, Nat2Z.id. apply firstn_all.
Qed.

Lemma slice_empty {A : Type} (l : list A) a : slice l a a = [].
Proof. unfold slice. now rewrite Z.sub_diag. Qed.

(* ================================================================= *)
(** ** Sampling without replacement *)

Lemma pick_perm (pool : list Z) j :
  (j < length pool)%nat ->
  Permutation (nth j pool 0 :: firstn j pool ++ skipn (S j) pool) pool.
Proof.
  intros Hj. destruct (nth_error pool j) as [x|] eqn:E.
  - rewrite (nth_error_nth _ _ 0 E).
    rewrite <- (firstn_skipn_middle _ _ E) at 3.
    apply Permutation_middle.
  - apply nth_error_None in E. lia.
Qed.

Lemma draw_step rnd i x pool k :
  draw rnd i (x :: pool) (S k)
  = nth (rnd i mod length (x :: pool)) (x :: pool) 0
      :: draw rnd (S i)
           (firstn (rnd i mod length (x :: pool)) (x :: pool)
              ++ skipn (S (rnd i mod length (x :: pool))) (x :: pool)) k.
Proof. reflexivity. Qed.

Lemma draw_length rnd k : forall i pool,
  (k <= length pool)%nat -> length (draw rnd i pool k) = k.
Proof.
  induction k as [|k IH]; intros i pool Hk; [reflexivity|].
  destruct pool as [|x pool]; [simpl in Hk; lia|].
  rewrite draw_step. set (p := x :: pool) in *.
  assert (Hj : (rnd i mod length p < length p)%nat)
    by (apply Nat.mod_upper_bound; subst p; discriminate).
  pose proof (Permutation_length (pick_perm p _ Hj)) as Hl.
  cbn [length] in Hl |- *. f_equal. apply IH. lia.
Qed.

Lemma draw_perm rnd k : forall i pool,
  (k <= length pool)%nat ->
  exists rest, Permutation (draw rnd i pool k ++ rest) pool.
Proof.
  induction k as [|k IH]; intros i pool Hk.
  - exists pool. reflexivity.
  - destruct pool as [|x pool]; [simpl in Hk; lia|].
    rewrite draw_step. set (p := x :: pool) in *.
    assert (Hj : (rnd i mod length p < length p)%nat)
      by (apply Nat.mod_upper_bound; subst p; discriminate).
    pose proof (pick_perm p _ Hj) as Hp.
    destruct (IH (S i) (firstn (rnd i mod length p) p
                         ++ skipn (S (rnd i mod length p)) p)) as [rest Hr].
    { pose proof (Permutation_length Hp) as Hl. cbn [length] in Hl. lia. }
    exists rest. eapply Permutation_trans; [|exact Hp].
    cbn [app]. apply perm_skip. exact Hr.
Qed.

Lemma draw_NoDup rnd k i pool :
  (k <= length pool)%nat -> NoDup pool -> NoDup (draw rnd i pool k).
Proof.
  intros Hk Hnd. destruct (draw_perm rnd k i pool Hk) as [rest Hp].
  symmetry in Hp. pose proof (Permutation_NoDup Hp Hnd) as Hnd'.
  exact (NoDup_app_remove_r _ _ Hnd').
Qed.

Lemma draw_In rnd k i pool v :
  (k <= length pool)%nat -> In v (draw rnd i pool k) -> In v pool.
Proof.
  intros Hk Hin. destruct (draw_perm rnd k i pool Hk) as [rest Hp].
  eapply Permutation_in; [exact Hp|]. apply in_or_app. now left.
Qed.

(** What [random.sample] guarantees on a range. *)
Lemma sample_range rnd lo hi k :
  0 <= k <= hi - lo ->
  exists selected,
    sample rnd (range lo hi) k = Ok selected /\
    len selected = k /\ NoDup selected /\
    Forall (fun v => lo <= v < hi) selected.
Proof.
  intros Hk. unfold sample, len. rewrite range_length.
  destruct (k <? 0) eqn:E1; [apply Z.ltb_lt in E1; lia|].
  destruct (Z.of_nat (Z.to_nat (hi - lo)) <? k) eqn:E2;
    [apply Z.ltb_lt in E2; lia|].
  simpl. eexists. split; [reflexivity|].
  assert (Hle : (Z.to_nat k <= length (range lo hi))%nat)
    by (rewrite range_length; lia).
  repeat split.
  - rewrite draw_length by assumption. lia.
  - apply draw_NoDup; [assumption | apply range_NoDup].
  - apply Forall_forall. intros v Hv.
    apply range_In. eapply draw_In; eauto.
Qed.

(* ================================================================= *)
(** ** The distribution loop on distinct names *)

Lemma blocks_keys todo r sel i : Dict.keys (blocks todo r sel i) = todo.
Proof.
  revert i. induction todo as [|p todo IH]; intros i; simpl; auto.
  f_equal. apply IH.
Qed.

Lemma deal_blocks todo r sel : forall i acc,
  NoDup todo ->
  (forall p, In p todo -> ~ In p (Dict.keys acc)) ->
  deal todo r sel i acc = acc ++ blocks todo r sel i.
Proof.
  induction todo as [|p todo IH]; intros i acc Hnd Hfresh; simpl.
  - now rewrite app_nil_r.
  - inversion Hnd as [|? ? Hni Hnd']; subst.
    rewrite set_fresh by (apply Hfresh; now left).
    rewrite IH; auto.
    + now rewrite <- app_assoc.
    + intros q Hq. unfold Dict.keys. rewrite map_app, in_app_iff. simpl.
      intros [Hin | [<- | []]]; [|tauto].
      apply (Hfresh q); [now right | exact Hin].
Qed.

Lemma blocks_get todo r sel : forall i j p,
  NoDup todo -> nth_error todo j = Some p ->
  Dict.get (blocks todo r sel i) p
  = Some (slice sel ((i + Z.of_nat j) * r) ((i + Z.of_nat j + 1) * r)).
Proof.
  induction todo as [|q todo IH]; intros i j p Hnd Hj.
  - destruct j; discriminate.
  - inversion Hnd as [|? ? Hni Hnd']; subst. destruct j as [|j].
    + simpl in *. injection Hj as ->.
      rewrite String.eqb_refl. now rewrite Z.add_0_r.
    + rewrite Nat2Z.inj_succ. cbn [nth_error blocks Dict.get] in *.
      destruct (String.eqb q p) eqn:E.
      * apply String.eqb_eq in E. subst q. apply nth_error_In in Hj. tauto.
      * rewrite (IH (i + 1) j p Hnd' Hj).
        replace (i + 1 + Z.of_nat j) with (i + Z.succ (Z.of_nat j)) by lia.
        reflexivity.
Qed.

Lemma blocks_all_cards todo r sel : forall i,
  0 <= r -> 0 <= i -> (i + len todo) * r <= len sel ->
  all_cards (blocks todo r sel i) = slice sel (i * r) ((i + len todo) * r).
Proof.
  unfold all_cards, len.
  induction todo as [|p todo IH]; intros i Hr Hi Hlen; simpl length in *.
  - simpl. rewrite Z.add_0_r. now rewrite slice_empty.
  - simpl. rewrite IH by lia.
    rewrite slice_app by (unfold len; nia).
    f_equal. lia.
Qed.

(* ================================================================= *)
(** ** Fair deals *)

Lemma NoDup_firstn {A : Type} n (l : list A) : NoDup l -> NoDup (firstn n l).
Proof.
  intros H. rewrite <- (firstn_skipn n l) in H.
  exact (NoDup_app_remove_r _ _ H).
Qed.

Lemma NoDup_skipn {A : Type} n (l : list A) : NoDup l -> NoDup (skipn n l).
Proof.
  intros H. rewrite <- (firstn_skipn n l) in H.
  exact (NoDup_app_remove_l _ _ H).
Qed.

Lemma slice_NoDup {A : Type} (l : list A) a b : NoDup l -> NoDup (slice l a b).
Proof. intros H. unfold slice. now apply NoDup_firstn, NoDup_skipn. Qed.

Lemma NoDup_app_disjoint {A : Type} (l l' : list A) x :
  NoDup (l ++ l') -> In x l -> In x l' -> False.
Proof.
  induction l as [|a l IH]; simpl; [tauto|].
  intros Hnd [-> | Hin] Hin'.
  - inversion Hnd as [|? ? Hni _]; subst. apply Hni, in_or_app. now right.
  - inversion Hnd; subst. auto.
Qed.

Lemma get_all_cards (d : hands) p hand v :
  Dict.get d p = Some hand -> In v hand -> In v (all_cards d).
Proof.
  intros Hg Hv. apply get_In in Hg. unfold all_cards, Dict.values.
  apply in_concat. exists hand. split; auto.
  change hand with (snd (p, hand)). now apply in_map.
Qed.

Lemma hands_disjoint (d : hands) p q hp hq v :
  NoDup (all_cards d) -> p <> q ->
  Dict.get d p = Some hp -> Dict.get d q = Some hq ->
  In v hp -> ~ In v hq.
Proof.
  induction d as [|[k h] d IH]; simpl; [discriminate|].
  intros Hnd Hpq Hp Hq Hvp Hvq.
  change (all_cards ((k, h) :: d)) with (h ++ all_cards d) in Hnd.
  destruct (String.eqb k p) eqn:Ep; destruct (String.eqb k q) eqn:Eq.
  - apply String.eqb_eq in Ep, Eq. congruence.
  - injection Hp as ->.
    eapply NoDup_app_disjoint; eauto using get_all_cards.
  - injection Hq as ->.
    eapply NoDup_app_disjoint; eauto using get_all_cards.
  - apply NoDup_app_remove_l in Hnd. eapply IH; eauto.
Qed.

(** The deal of a sample to distinct names. *)
Lemma deal_fair names r lo hi selected :
  NoDup names -> 0 <= r ->
  len selected = len names * r -> NoDup selected ->
  Forall (fun v => lo <= v <= hi) selected ->
  fair_deal names r lo hi selected (deal names r selected 0 Dict.empty).
Proof.
  intros Hnames Hr Hlen Hnd Hrange.
  rewrite deal_blocks by (auto; intros ? _ []). cbn [Dict.empty app].
  assert (Hall : all_cards (blocks names r selected 0) = selected).
  { rewrite blocks_all_cards by lia. rewrite Z.mul_0_l, Z.add_0_l.
    rewrite <- Hlen. apply slice_all. }
  assert (Hget : forall i player, nth_error names i = Some player ->
            Dict.get (blocks names r selected 0) player
            = Some (slice selected (Z.of_nat i * r) ((Z.of_nat i + 1) * r))).
  { intros i player Hi. rewrite (blocks_get _ _ _ 0 i player Hnames Hi).
    now rewrite Z.add_0_l. }
  unfold fair_deal. rewrite Hall.
  repeat split; auto.
  - apply blocks_keys.
  - intros i player Hi. eexists. split; [apply Hget, Hi|].
    split; [reflexivity|]. split; [|now apply slice_NoDup].
    assert (Hlt : (i < length names)%nat)
      by (apply nth_error_Some; congruence).
    unfold len in Hlen. rewrite slice_len.
    + lia.
    + nia.
    + unfold len. nia.
  - intros i j pi pj hi' hj' Hij Hi Hj Hgi Hgj v.
    apply (hands_disjoint (blocks names r selected 0) pi pj); auto.
    + now rewrite Hall.
    + intros ->. apply Hij.
      apply (proj1 (NoDup_nth_error names) Hnames).
      * apply nth_error_Some. congruence.
      * congruence.
Qed.

Lemma distribute_cards_fair rnd names r lo hi :
  NoDup names -> 0 <= r -> len names * r <= hi - lo + 1 ->
  deals_fairly rnd names r lo hi.
Proof.
  intros Hnames Hr Hcap.
  assert (Hk : 0 <= len names * r) by (unfold len; nia).
  destruct (sample_range rnd lo (hi + 1) (len names * r))
    as (selected & Hs & Hlen & Hnd & Hrange); [lia|].
  exists selected, (deal names r selected 0 Dict.empty).
  split; [exact Hs|]. split.
  - unfold distribute_cards. cbn [fst snd].
    destruct (len names * r >? hi - lo + 1) eqn:E.
    + apply Z.gtb_lt in E. lia.
    + rewrite Hs. reflexivity.
  - apply deal_fair; auto.
    eapply Forall_impl; [|exact Hrange]. simpl. intros; lia.
Qed.

(** C2 *)
(** Claim C2, for player names that are pairwise distinct.  For such a
    list of [p >= 2] names, a round [r >= 1] and an inclusive range with
    [p * r] values or more, [distribute_cards] returns a mapping in which
    player [i] holds block [i] of size [r] of the sample: the [p * r]
    sampled values are distinct and lie in the range, every hand has [r]
    distinct values, hands of different players are disjoint and the
    hands hold [p * r] cards together. *)
Theorem distribute_cards_deals_distinct_names :
  forall (rnd : nat -> nat) (names : list string) (r lo hi : Z),
    NoDup names -> 2 <= len names -> 1 <= r ->
    len names * r <= hi - lo + 1 ->
    deals_fairly rnd names r lo hi.
Proof.
  intros rnd names r lo hi Hnames _ Hr Hcap.
  apply distribute_cards_fair; auto. lia.
Qed.

(** C2 applied to three distinct names in round 2 over 1..100. *)
Lemma distribute_cards_deals_distinct_names_witness :
  deals_fairly (fun i => (37 * i + 5)%nat) ["Ana"; "Bia"; "Caio"] 2 1 100.
Proof.
  apply distribute_cards_deals_distinct_names.
  - repeat constructor; simpl; intuition discriminate.
  - vm_compute. discriminate.
  - lia.
  - vm_compute. discriminate.
Defined.

(** C2 as stated fails for a list of two players that repeats a name:
    the second block overwrites the first under the shared key, so the
    mapping holds one card where the claim asks for two. *)
Lemma distribute_cards_repeated_name :
  2 <= len ["A"; "A"] /\ 1 <= 1 /\ len ["A"; "A"] * 1 <= 100 - 1 + 1 /\
  ~ deals_fairly (fun _ => 1%nat) ["A"; "A"] 1 1 100.
Proof.
  repeat split; try (vm_compute; discriminate).
  intros (selected & cards & _ & Hd & Hfair).
  vm_compute in Hd. injection Hd as <-.
  destruct Hfair as (_ & _ & _ & _ & _ & _ & _ & Hsize).
  vm_compute in Hsize. discriminate.
Qed.

(* ================================================================= *)
(** ** Card distribution: capacity *)

Lemma distribute_cards_short rnd names r lo hi :
  len names * r > hi - lo + 1 ->
  distribute_cards rnd names r (lo, hi) = Ok None.
Proof.
  intros H. unfold distribute_cards. cbn [fst snd].
  destruct (len names * r >? hi - lo + 1) eqn:E; auto.
  rewrite Z.gtb_ltb in E. apply Z.ltb_ge in E. exfalso. clear - H E. lia.
Qed.

Lemma distribute_cards_enough rnd names r lo hi :
  0 <= r -> len names * r <= hi - lo + 1 ->
  exists selected,
    sample rnd (range lo (hi + 1)) (len names * r) = Ok selected /\
    len selected = len names * r /\
    distribute_cards rnd names r (lo, hi)
    = Ok (Some (deal names r selected 0 Dict.empty)).
Proof.
  intros Hr Hcap.
  assert (Hk : 0 <= len names * r) by (unfold len; nia).
  destruct (sample_range rnd lo (hi + 1) (len names * r))
    as (selected & Hs & Hlen & _); [lia|].
  exists selected. repeat split; auto.
  unfold distribute_cards. cbn [fst snd].
  destruct (len names * r >? hi - lo + 1) eqn:E.
  - apply Z.gtb_lt in E. lia.
  - now rewrite Hs.
Qed.

Lemma deal_truthy todo r sel : forall i acc,
  todo <> [] \/ acc <> [] -> truthy (deal todo r sel i acc) = true.
Proof.
  induction todo as [|p todo IH]; intros i acc H; simpl.
  - destruct acc; [destruct H; congruence | reflexivity].
  - apply IH. right. destruct acc as [|[k v] acc]; simpl; [discriminate|].
    destruct (String.eqb k p); discriminate.
Qed.

(** Claim C5.  For a round number that is not negative,
    [distribute_cards] returns a mapping exactly when [p * r] is at most
    the size of the pool, and returns [None] after its error message
    when [p * r] exceeds it.  In the administrator view a distribution
    that lacks cards shows the error and changes nothing: no save, the
    same session state, hence no entry in [cards_per_round] and the same
    round and status; with enough cards and at least one player the
    dealt mapping is stored and the status becomes playing. *)
Theorem distribution_capacity :
  forall (rnd : nat -> nat) (names : list string) (r lo hi : Z),
    0 <= r ->
    ((exists cards, distribute_cards rnd names r (lo, hi) = Ok (Some cards))
     <-> len names * r <= hi - lo + 1) /\
    (len names * r > hi - lo + 1 ->
     distribute_cards rnd names r (lo, hi) = Ok None) /\
    (forall code g games ss,
        status g = waiting -> players g = names -> current_round g = r ->
        let o := show_admin_view (ClickDistribute rnd) code g games ss in
        (len names * r > 100 ->
         shown o = ErrorShown /\ saved o = None /\ kept o = ss /\
         store_after games o = games) /\
        (len names * r <= 100 -> names <> [] ->
         exists cards,
           distribute_cards rnd names r default_range = Ok (Some cards) /\
           saved o = Some (Dict.set games code (with_cards g cards)) /\
           kept o = ss /\ shown o = Quiet)).
Proof.
  intros rnd names r lo hi Hr. split; [|split].
  - split.
    + intros [cards Hd].
      destruct (Z_le_gt_dec (len names * r) (hi - lo + 1)) as [H|H]; auto.
      rewrite distribute_cards_short in Hd by assumption. discriminate.
    + intros H. destruct (distribute_cards_enough rnd names r lo hi Hr H)
        as (selected & _ & _ & Hd). eauto.
  - apply distribute_cards_short.
  - intros code g games ss Hst Hp Hc o. subst o.
    unfold show_admin_view. rewrite Hst, Hp, Hc. split.
    + intros H. unfold default_range.
      rewrite distribute_cards_short by lia. now simpl.
    + intros H Hne. unfold default_range.
      destruct (distribute_cards_enough rnd names r 1 100 Hr)
        as (selected & _ & _ & Hd); [lia|].
      rewrite Hd. rewrite deal_truthy by auto.
      eexists. repeat split.
Qed.

(** Two players: round 51 needs 102 cards of 100, round 50 needs 100. *)
Lemma distribution_capacity_witness :
  distribute_cards (fun i => i) ["Ana"; "Bia"] 51 (1, 100) = Ok None /\
  (exists cards,
      distribute_cards (fun i => i) ["Ana"; "Bia"] 50 (1, 100)
      = Ok (Some cards)).
Proof.
  split.
  - apply (distribution_capacity (fun i => i) ["Ana"; "Bia"] 51 1 100);
      vm_compute; congruence.
  - apply (distribution_capacity (fun i => i) ["Ana"; "Bia"] 50 1 100);
      vm_compute; congruence.
Defined.

(* ================================================================= *)
(** ** Deals to any names *)

Lemma set_keys {V : Type} (d : Dict.t V) k v :
  Dict.keys (Dict.set d k v)
  = if Dict.mem d k then Dict.keys d else Dict.keys d ++ [k].
Proof.
  unfold Dict.mem. induction d as [|[k' v'] d IH]; simpl; auto.
  destruct (String.eqb k' k) eqn:E; simpl; auto.
  rewrite IH. now destruct (Dict.get d k).
Qed.

Lemma set_keys_NoDup {V : Type} (d : Dict.t V) k v :
  NoDup (Dict.keys d) -> NoDup (Dict.keys (Dict.set d k v)).
Proof.
  intros Hnd. rewrite set_keys. unfold Dict.mem.
  destruct (Dict.get d k) eqn:E; auto.
  apply get_None_keys in E.
  apply NoDup_app; auto.
  - repeat constructor. simpl. tauto.
  - intros a Ha [<- | []]. auto.
Qed.

Lemma deal_keys_NoDup names r sel : forall i acc,
  NoDup (Dict.keys acc) -> NoDup (Dict.keys (deal names r sel i acc)).
Proof.
  induction names as [|p names IH]; intros i acc Hnd; simpl; auto.
  apply IH, set_keys_NoDup, Hnd.
Qed.

(** Assigning a hand adds its cards and drops those of the hand it
    replaces, if any. *)
Lemma set_all_cards (d : hands) p hand :
  exists dropped,
    Permutation (all_cards (Dict.set d p hand) ++ dropped)
      (all_cards d ++ hand).
Proof.
  induction d as [|[k h] d IH]; simpl.
  - exists []. unfold all_cards. simpl. now rewrite !app_nil_r.
  - destruct (String.eqb k p).
    + exists h.
      change (Permutation ((hand ++ all_cards d) ++ h)
                ((h ++ all_cards d) ++ hand)).
      rewrite <- !app_assoc.
      rewrite (Permutation_app_comm hand), (Permutation_app_comm h).
      rewrite <- !app_assoc. apply Permutation_app_head.
      apply Permutation_app_comm.
    + destruct IH as [dropped IH]. exists dropped.
      change (Permutation ((h ++ all_cards (Dict.set d p hand)) ++ dropped)
                ((h ++ all_cards d) ++ hand)).
      rewrite <- !app_assoc. now apply Permutation_app_head.
Qed.

(** The cards in the mapping are always among the part of the sample
    that the loop has cut so far. *)
Lemma deal_all_cards names r sel : forall i acc,
  0 <= r -> 0 <= i -> (i + len names) * r <= len sel ->
  (exists rest, Permutation (all_cards acc ++ rest) (slice sel 0 (i * r))) ->
  exists rest,
    Permutation (all_cards (deal names r sel i acc) ++ rest)
      (slice sel 0 ((i + len names) * r)).
Proof.
  unfold len.
  induction names as [|p names IH]; intros i acc Hr Hi Hlen [rest Hrest];
    cbn [length deal] in *.
  - exists rest. now rewrite Z.add_0_r.
  - replace (i + Z.of_nat (S (length names)))
      with (i + 1 + Z.of_nat (length names)) by lia.
    apply IH; try lia.
    destruct (set_all_cards acc p (slice sel (i * r) ((i + 1) * r)))
      as [dropped Hset].
    exists (dropped ++ rest).
    rewrite <- (slice_app sel 0 (i * r) ((i + 1) * r))
      by (unfold len; nia).
    rewrite app_assoc, Hset, <- Hrest.
    rewrite <- !app_assoc. apply Permutation_app_head.
    apply Permutation_app_comm.
Qed.

(** Whatever the names, the hands dealt by [distribute_cards] have
    distinct keys and hold pairwise distinct cards of the range. *)
Lemma distribute_cards_distinct rnd names r lo hi cards :
  0 <= r ->
  distribute_cards rnd names r (lo, hi) = Ok (Some cards) ->
  NoDup (Dict.keys cards) /\ NoDup (all_cards cards) /\
  Forall (fun v => lo <= v <= hi) (all_cards cards).
Proof.
  intros Hr Hd.
  assert (Hcap : len names * r <= hi - lo + 1).
  { destruct (Z_le_gt_dec (len names * r) (hi - lo + 1)) as [H|H]; auto.
    rewrite distribute_cards_short in Hd by assumption. discriminate. }
  assert (Hk : 0 <= len names * r) by (unfold len; nia).
  destruct (sample_range rnd lo (hi + 1) (len names * r))
    as (selected & Hs & Hlen & Hnd & Hrange); [lia|].
  destruct (distribute_cards_enough rnd names r lo hi Hr Hcap)
    as (selected' & Hs' & _ & Hd').
  rewrite Hs in Hs'. injection Hs' as <-.
  rewrite Hd in Hd'. injection Hd' as ->.
  destruct (deal_all_cards names r selected 0 Dict.empty) as [rest Hperm];
    try lia.
  { exists []. simpl. now rewrite slice_empty. }
  rewrite Z.add_0_l, <- Hlen, slice_all in Hperm.
  split; [apply deal_keys_NoDup; constructor|]. split.
  - apply (Permutation_NoDup (Permutation_sym Hperm)) in Hnd.
    exact (NoDup_app_remove_r _ _ Hnd).
  - apply Forall_forall. intros v Hv.
    rewrite Forall_forall in Hrange.
    assert (lo <= v < hi + 1); [|lia].
    apply Hrange. eapply Permutation_in; [exact Hperm|].
    apply in_or_app. now left.
Qed.

(* ================================================================= *)
(** ** Restart and the frame of the store *)

(** Claim C8.  In every status and session state the restart button
    saves the game with [current_round = 1], status waiting, empty
    [cards_per_round] and [results], and with [room_code], [players] and
    [max_rounds] as they were; the reveal state is dropped. *)
Theorem restart_resets :
  forall (code : string) (g : game) (games : store) (ss : session),
    let o := show_admin_view ClickRestart code g games ss in
    saved o = Some (Dict.set games code (restart g)) /\
    kept o = None /\
    Dict.get (store_after games o) code = Some (restart g) /\
    current_round (restart g) = 1 /\
    status (restart g) = waiting /\
    cards_per_round (restart g) = Dict.empty /\
    results (restart g) = Dict.empty /\
    room_code (restart g) = room_code g /\
    players (restart g) = players g /\
    max_rounds (restart g) = max_rounds g.
Proof.
  intros code g games ss o.
  assert (Ho : o = mkOutcome (Some (Dict.set games code (restart g)))
                     None Quiet).
  { subst o. unfold show_admin_view, reveal_section, restart_button.
    destruct (status g); auto.
    destruct ss as [rd|]; auto. destruct (reveal_pending rd); auto. }
  rewrite Ho. unfold store_after. cbn [saved kept].
  rewrite get_set_same. repeat split.
Qed.

Lemma show_admin_view_saves ev code g games ss :
  saved (show_admin_view ev code g games ss) = None \/
  exists g', saved (show_admin_view ev code g games ss)
             = Some (Dict.set games code g').
Proof.
  unfold show_admin_view, reveal_section, restart_button.
  destruct (status g), ev; simpl; eauto;
    repeat match goal with
      | |- context [match ?x with _ => _ end] => destruct x; simpl; eauto
      end.
Qed.

(** Claim C10.  Whatever the event, a run of the administrator view of
    a room leaves the entry of every other room code as it was loaded,
    and what it passes to [save_games] is the loaded store with the entry
    under the room's own code replaced. *)
Theorem other_rooms_untouched :
  forall (ev : event) (code : string) (g : game) (games : store)
         (ss : session) (other : string),
    other <> code ->
    let o := show_admin_view ev code g games ss in
    Dict.get (store_after games o) other = Dict.get games other /\
    (forall games', saved o = Some games' ->
                    exists g', games' = Dict.set games code g') /\
    Dict.get (store_after games (main ev code games ss)) other
    = Dict.get games other.
Proof.
  intros ev code g games ss other Hne o.
  assert (Hview : forall g0,
             Dict.get (store_after games
                         (show_admin_view ev code g0 games ss)) other
             = Dict.get games other).
  { intros g0. unfold store_after.
    destruct (show_admin_view_saves ev code g0 games ss) as [H | [g' H]];
      rewrite H; [reflexivity | now apply get_set_other]. }
  split; [apply Hview|]. split.
  - subst o. intros games' Hs.
    destruct (show_admin_view_saves ev code g games ss) as [H | [g' H]];
      rewrite H in Hs; [discriminate|].
    injection Hs as <-. eauto.
  - unfold main. destruct (String.eqb code ""); [reflexivity|].
    destruct (Dict.get games code); [apply Hview | reflexivity].
Qed.

(** Dealing in ROOM01 leaves ROOM02 as it was. *)
Lemma other_rooms_untouched_witness :
  Dict.get
    (store_after demo_store
       (main (ClickDistribute demo_draws) "ROOM01" demo_store None))
    "ROOM02"
  = Dict.get demo_store "ROOM02".
Proof.
  apply (other_rooms_untouched (ClickDistribute demo_draws) "ROOM01"
           (create_new_game "ROOM01" ["Ana"; "Bia"] 1 "11:00")
           demo_store None "ROOM02").
  discriminate.
Defined.

(* ================================================================= *)
(** ** Round advancement and the invariant of a room *)

Lemma has_result_with_result g r : has_result (with_result g r) = true.
Proof.
  unfold has_result, with_result, Dict.mem. cbn [results current_round].
  now rewrite get_set_same.
Qed.

Lemma room_inv_created games code names rounds now :
  1 <= rounds -> room_inv code (created games code names rounds now).
Proof.
  intros H. exists (create_new_game code names rounds now).
  unfold created. cbn [fst snd]. rewrite get_set_same.
  repeat split; simpl; try lia; discriminate.
Qed.

Ltac room_inv_same g :=
  unfold room_inv, step; cbn [fst snd store_after saved kept];
  exists g; repeat split; intros; auto; try lia; try discriminate;
  try congruence;
  try match goal with
    | H : ?P -> _ /\ _, H' : ?P |- _ => destruct (H H'); assumption
    | H : _ <> None -> has_result _ = true |- _ => apply H; congruence
    end.

Lemma room_inv_step room c a :
  room <> "" -> room_inv room c -> room_inv room (step room c a).
Proof.
  intros Hroom (g & Hg & Hround & Hfin & Hrev).
  destruct c as [games ss]. cbn [fst snd] in *.
  destruct a as [ev|].
  2:{ room_inv_same g. }
  unfold step, main. cbn [fst snd].
  apply String.eqb_neq in Hroom. rewrite Hroom, Hg.
  assert (Hss : status g <> playing -> ss = None).
  { intros Hs. destruct ss as [rd|]; auto.
    destruct (Hrev rd eq_refl). congruence. }
  assert (Hres : ss <> None -> has_result g = true).
  { destruct ss as [rd|]; [intros _; apply (Hrev rd eq_refl) | congruence]. }
  assert (Hrestart : room_inv room
            (Dict.set games room (restart g), None)).
  { exists (restart g). cbn [fst snd]. rewrite get_set_same.
    repeat split; simpl; try lia; discriminate. }
  unfold show_admin_view.
  destruct (status g) eqn:Hst.
  - (* waiting *)
    rewrite (Hss ltac:(discriminate)) in *.
    destruct ev as [|rnd|sels now| | |];
      try (simpl; solve [room_inv_same g | exact Hrestart]).
    destruct (distribute_cards rnd (players g) (current_round g)
                default_range) as [[cards|]|e];
      try (simpl; solve [room_inv_same g]).
    destruct (truthy cards); [|simpl; room_inv_same g].
    exists (with_cards g cards). cbn [fst snd store_after saved kept].
    rewrite get_set_same. repeat split; simpl; try lia; discriminate.
  - (* playing *)
    destruct ev as [|rnd|sels now| | |];
      try (unfold reveal_section;
           destruct ss as [rd|]; [destruct (reveal_pending rd)|]; simpl;
           solve [room_inv_same g | exact Hrestart]).
    + (* submission *)
      destruct (verify_order g sels now) as [[r|]|e].
      * exists (with_result g r). cbn [fst snd store_after saved kept].
        rewrite get_set_same.
        repeat split; intros; try apply has_result_with_result;
          simpl in *; try lia; congruence.
      * unfold reveal_section.
        destruct ss as [rd|]; [destruct (reveal_pending rd)|]; simpl;
          room_inv_same g.
      * destruct e; try (simpl; solve [room_inv_same g]).
        unfold reveal_section.
        destruct ss as [rd|]; [destruct (reveal_pending rd)|]; simpl;
          room_inv_same g.
    + (* continue *)
      unfold reveal_section.
      destruct ss as [rd|]; [destruct (reveal_pending rd)|];
        try (simpl; solve [room_inv_same g]).
      specialize (Hres ltac:(discriminate)).
      unfold room_inv. cbn [fst snd store_after saved kept].
      exists (advance g). rewrite get_set_same.
      unfold advance. destruct (current_round g <? max_rounds g) eqn:E.
      * apply Z.ltb_lt in E. repeat split; simpl; try lia; discriminate.
      * apply Z.ltb_ge in E.
        repeat split; simpl; try lia; try discriminate.
        exact Hres.
  - (* finished *)
    rewrite (Hss ltac:(discriminate)) in *.
    destruct (Hfin eq_refl) as [Hmax Hhas].
    destruct ev; simpl; solve [room_inv_same g | exact Hrestart].
Qed.

Lemma room_inv_run room acts : forall c,
  room <> "" -> room_inv room c -> room_inv room (run room c acts).
Proof.
  unfold run. induction acts as [|a acts IH]; intros c Hroom Hc; simpl; auto.
  apply IH; auto. now apply room_inv_step.
Qed.

(* ================================================================= *)
(** ** Reveal sequencer *)

Lemma reveal_pending_lt rd :
  reveal_pending rd = true
  <-> (Reveal.current_card rd < length (Reveal.correct_order rd))%nat.
Proof. unfold reveal_pending. apply Nat.ltb_lt. Qed.

Lemma reveal_pending_ge rd :
  reveal_pending rd = false
  <-> (length (Reveal.correct_order rd) <= Reveal.current_card rd)%nat.
Proof. unfold reveal_pending. apply Nat.ltb_ge. Qed.

Lemma reveal_at_current rd : reveal_at rd (Reveal.current_card rd) = rd.
Proof. now destruct rd. Qed.

Lemma reveal_next_at rd :
  reveal_next rd = reveal_at rd (S (Reveal.current_card rd)).
Proof. reflexivity. Qed.



Section Sequencer.
Variables (code : string) (g : game) (games : store).
Hypothesis Hplaying : status g = playing.

Lemma click_reveal_pending rd :
  reveal_pending rd = true ->
  show_admin_view ClickReveal code g games (Some rd)
  = mkOutcome None (Some (reveal_next rd)) Quiet.
Proof.
  intros H. unfold show_admin_view, reveal_section. now rewrite Hplaying, H.
Qed.

Lemma click_reveal_complete rd :
  reveal_pending rd = false ->
  show_admin_view ClickReveal code g games (Some rd)
  = mkOutcome None (Some rd) Quiet.
Proof.
  intros H. unfold show_admin_view, reveal_section. now rewrite Hplaying, H.
Qed.


Lemma click_continue_complete rd :
  reveal_pending rd = false ->
  show_admin_view ClickContinue code g games (Some rd)
  = mkOutcome (Some (Dict.set games code (advance g))) None Quiet.
Proof.
  intros H. unfold show_admin_view, reveal_section. now rewrite Hplaying, H.
Qed.


Hypothesis Hcode : code <> "".
Hypothesis Hroom : Dict.get games code = Some g.

Lemma step_reveal rd :
  step code (games, Some rd) (Widget ClickReveal)
  = (games, Some (if reveal_pending rd then reveal_next rd else rd)).
Proof.
  unfold step, main. cbn [fst snd].
  apply String.eqb_neq in Hcode. rewrite Hcode, Hroom.
  destruct (reveal_pending rd) eqn:E.
  - now rewrite click_reveal_pending.
  - now rewrite click_reveal_complete.
Qed.

Lemma run_reveal k : forall rd,
  (Reveal.current_card rd + k <= length (Reveal.correct_order rd))%nat ->
  run code (games, Some rd) (repeat (Widget ClickReveal) k)
  = (games, Some (reveal_at rd (Reveal.current_card rd + k))).
Proof.
  induction k as [|k IH]; intros rd Hk.
  - simpl. now rewrite Nat.add_0_r, reveal_at_current.
  - cbn [repeat]. unfold run in *. cbn [fold_left].
    rewrite step_reveal.
    replace (reveal_pending rd) with true
      by (symmetry; apply reveal_pending_lt; lia).
    rewrite IH by (simpl; lia). simpl.
    unfold reveal_at. simpl. do 2 f_equal. f_equal. lia.
Qed.

End Sequencer.



(* ================================================================= *)
(** ** Order resolver *)

Lemma firstn_prefix {A : Type} (l1 l2 : list A) :
  firstn (length l1) (l1 ++ l2) = l1.
Proof.
  rewrite firstn_app, Nat.sub_diag, firstn_all. simpl. apply app_nil_r.
Qed.

Lemma count_occ_snoc (l : list string) x y :
  count_occ string_dec (l ++ [x]) y
  = (count_occ string_dec l y + if string_dec x y then 1 else 0)%nat.
Proof.
  rewrite count_occ_app. simpl. destruct (string_dec x y); lia.
Qed.

Lemma resolve_loop_ok round_cards selections : forall todo done played,
  selections = done ++ todo ->
  length played = length done ->
  within_hands round_cards selections ->
  exists out,
    resolve_loop round_cards selections todo played = Ok (played ++ out) /\
    length out = length todo /\
    forall j player, nth_error todo j = Some player ->
      exists hand card,
        Dict.get round_cards player = Some hand /\
        nth_error (sorted hand)
          (named_before selections (length done + j) player) = Some card /\
        nth_error out j = Some card.
Proof.
  induction todo as [|player rest IH]; intros done played Hsel Hlen Hwithin.
  - exists []. simpl. rewrite app_nil_r. repeat split.
    intros [|j] p; discriminate.
  - destruct (Hwithin player) as (hand & Hget & Hcount).
    { subst selections. apply in_or_app. right. now left. }
    assert (Hfirst : firstn (length played) selections = done)
      by (rewrite Hlen, Hsel; apply firstn_prefix).
    assert (Hk : (count_occ string_dec done player < length (sorted hand))%nat).
    { rewrite sorted_length.
      rewrite Hsel, count_occ_app in Hcount. simpl in Hcount.
      destruct (string_dec player player); [lia | congruence]. }
    destruct (nth_error (sorted hand) (count_occ string_dec done player))
      as [card|] eqn:Ecard; [|apply nth_error_None in Ecard; lia].
    destruct (IH (done ++ [player]) (played ++ [card]))
      as (out & Hrun & Hout & Hpos).
    { now rewrite <- app_assoc. }
    { rewrite !length_app. simpl. lia. }
    { exact Hwithin. }
    exists (card :: out). split; [|split].
    + cbn [resolve_loop]. unfold Dict.item. rewrite Hget. cbn [bind].
      rewrite Hfirst. unfold index. rewrite Ecard. cbn [bind].
      rewrite Hrun. now rewrite <- app_assoc.
    + simpl. now rewrite Hout.
    + intros [|j] p Hp.
      * injection Hp as <-. exists hand, card. repeat split; auto.
        unfold named_before. rewrite Nat.add_0_r.
        rewrite <- Hlen, Hfirst. exact Ecard.
      * destruct (Hpos j p Hp) as (h & c & Hh & Hc & Ho).
        exists h, c. repeat split; auto.
        rewrite length_app in Hc. simpl in Hc.
        now replace (length done + S j)%nat
          with (length done + 1 + j)%nat by lia.
Qed.

Lemma resolve_order_ok round_cards selections :
  within_hands round_cards selections ->
  exists played,
    resolve_order round_cards selections = Ok played /\
    resolves_to round_cards selections played.
Proof.
  intros Hwithin.
  destruct (resolve_loop_ok round_cards selections selections [] []
              eq_refl eq_refl Hwithin) as (out & Hrun & Hlen & Hpos).
  exists out. split; [exact Hrun|]. split; [exact Hlen|].
  intros i player Hi. apply (Hpos i player Hi).
Qed.

(** Claim C1.  Whenever every selected name has a hand in the round's
    mapping and is named no more often than that hand has cards, the
    order resolver returns a played order as long as the submission whose
    value at each position [i] is the card at zero-based index [k] of the
    ascending-sorted hand of the player selected there, [k] being the
    number of positions before [i] that name the same player.  For the
    hands A: 10, 50 and B: 20 the selections A, B, A resolve to
    10, 20, 50. *)
Theorem order_resolver_positions :
  (forall (round_cards : hands) (selections : list string),
      within_hands round_cards selections ->
      exists played,
        resolve_order round_cards selections = Ok played /\
        resolves_to round_cards selections played) /\
  resolve_order [("A", [10; 50]); ("B", [20])] ["A"; "B"; "A"]
  = Ok [10; 20; 50].
Proof.
  split; [apply resolve_order_ok | reflexivity].
Qed.

(** The hypothesis of C1 holds for, and the theorem applies to, the
    hands A: 50, 10 and B: 20 with the selections A, B, A. *)
Lemma order_resolver_positions_witness :
  exists played,
    resolve_order [("A", [50; 10]); ("B", [20])] ["A"; "B"; "A"] = Ok played /\
    resolves_to [("A", [50; 10]); ("B", [20])] ["A"; "B"; "A"] played.
Proof.
  apply (proj1 order_resolver_positions).
  intros player Hin. simpl in Hin.
  destruct Hin as [<- | [<- | [<- | []]]].
  - exists [50; 10]. split; [reflexivity | vm_compute; lia].
  - exists [20]. split; [reflexivity | vm_compute; lia].
  - exists [50; 10]. split; [reflexivity | vm_compute; lia].
Defined.

(** A player named once too often: the index runs past the sorted hand. *)
Lemma resolve_loop_overrun round_cards selections : forall todo done played,
  selections = done ++ todo ->
  length played = length done ->
  (forall player, In player todo ->
                  exists hand, Dict.get round_cards player = Some hand) ->
  (exists player hand,
      Dict.get round_cards player = Some hand /\
      (count_occ string_dec done player <= length hand)%nat /\
      (length hand < count_occ string_dec selections player)%nat) ->
  resolve_loop round_cards selections todo played = Raise IndexError.
Proof.
  induction todo as [|q rest IH];
    intros done played Hsel Hlen Hhave (p & hand & Hget & Hdone & Hover).
  - rewrite app_nil_r in Hsel. subst done. lia.
  - destruct (Hhave q (or_introl eq_refl)) as (hq & Hq).
    assert (Hfirst : firstn (length played) selections = done)
      by (rewrite Hlen, Hsel; apply firstn_prefix).
    cbn [resolve_loop]. unfold Dict.item. rewrite Hq. cbn [bind].
    rewrite Hfirst. unfold index.
    destruct (nth_error (sorted hq) (count_occ string_dec done q))
      as [card|] eqn:Ecard; [|reflexivity].
    cbn [bind]. apply (IH (done ++ [q])).
    + now rewrite <- app_assoc.
    + rewrite !length_app. simpl. lia.
    + intros player Hin. apply Hhave. now right.
    + exists p, hand. repeat split; auto.
      rewrite count_occ_snoc. destruct (string_dec q p) as [->|]; [|lia].
      assert (Hlt : (count_occ string_dec done p < length (sorted hq))%nat)
        by (apply nth_error_Some; congruence).
      rewrite sorted_length in Hlt.
      rewrite Hq in Hget. injection Hget as ->. lia.
Qed.

(** Claim C3, at the submissions that name a player more often than
    that player holds cards while every selected name has a hand: the
    run is ended by an [IndexError] that the [except ValueError] clause
    does not catch.  Nothing is saved and the session state is left as
    it was, but no validation message is shown. *)
Theorem overnamed_player_is_not_reported :
  forall (code : string) (g : game) (games : store) (ss : session)
         (selections : list string) (now : string) (round_cards : hands)
         (player : string) (hand : list Z),
    status g = playing ->
    Dict.get (cards_per_round g) (str (current_round g)) = Some round_cards ->
    (forall p, In p selections ->
               exists h, Dict.get round_cards p = Some h) ->
    Dict.get round_cards player = Some hand ->
    (length hand < count_occ string_dec selections player)%nat ->
    show_admin_view (SubmitOrder selections now) code g games ss
    = mkOutcome None ss (Uncaught IndexError).
Proof.
  intros code g games ss selections now round_cards player hand
    Hst Hcards Hhave Hget Hover.
  unfold show_admin_view, verify_order. rewrite Hst.
  unfold Dict.item at 1. rewrite Hcards. cbn [bind].
  unfold resolve_order.
  rewrite (resolve_loop_overrun round_cards selections selections [] []);
    auto.
  exists player, hand. repeat split; auto. simpl. lia.
Qed.

(** Two players in round 1, both positions of the form naming Ana. *)
Lemma overnamed_player_is_not_reported_witness :
  show_admin_view (SubmitOrder ["Ana"; "Ana"] "12:00") "ROOM01" demo_dealt
    [("ROOM01", demo_dealt)] None
  = mkOutcome None None (Uncaught IndexError).
Proof.
  apply (overnamed_player_is_not_reported "ROOM01" demo_dealt
           [("ROOM01", demo_dealt)] None ["Ana"; "Ana"] "12:00"
           [("Ana", [6]); ("Bia", [44])] "Ana" [6]).
  - reflexivity.
  - reflexivity.
  - intros p [<- | [<- | []]]; eexists; reflexivity.
  - reflexivity.
  - vm_compute. lia.
Defined.

(* ================================================================= *)
(** ** Accepted submissions *)

Lemma verify_order_accepts g selections now cards played :
  Dict.get (cards_per_round g) (str (current_round g)) = Some cards ->
  resolve_order cards selections = Ok played ->
  len played = len (players g) * current_round g ->
  verify_order g selections now = Ok (Some (result_of cards played now)).
Proof.
  intros Hcards Hres Hlen. unfold verify_order, Dict.item.
  rewrite Hcards. cbn [bind]. rewrite Hres. cbn [bind].
  rewrite Hlen, Z.eqb_refl. reflexivity.
Qed.

Lemma submit_accepted code g games ss selections now r :
  status g = playing ->
  verify_order g selections now = Ok (Some r) ->
  show_admin_view (SubmitOrder selections now) code g games ss
  = mkOutcome (Some (Dict.set games code (with_result g r)))
      match ss with
      | None => Some (new_reveal (current_round g) r)
      | Some _ => ss
      end Quiet.
Proof.
  intros Hst Hv. unfold show_admin_view. now rewrite Hst, Hv.
Qed.

(** A submission whose names all resolve but whose length is not
    [players * current_round] is answered by the count message and
    changes nothing. *)
Lemma miscounted_submission_reported code g games ss selections now
  cards played :
  status g = playing ->
  Dict.get (cards_per_round g) (str (current_round g)) = Some cards ->
  resolve_order cards selections = Ok played ->
  len played <> len (players g) * current_round g ->
  show_admin_view (SubmitOrder selections now) code g games ss
  = mkOutcome None ss ErrorShown.
Proof.
  intros Hst Hcards Hres Hlen.
  unfold show_admin_view, verify_order, Dict.item.
  rewrite Hst, Hcards. cbn [bind]. rewrite Hres. cbn [bind].
  apply Z.eqb_neq in Hlen. rewrite Hlen. cbn [negb].
  unfold reveal_section, restart_button.
  destruct ss as [rd|]; [destruct (reveal_pending rd)|]; reflexivity.
Qed.

(** A submission is either stored, with the record that [verify_order]
    returned, or leaves both the games file and the session state as
    they were. *)
Lemma rejected_submission_changes_nothing code g games ss selections now :
  status g = playing ->
  let o := show_admin_view (SubmitOrder selections now) code g games ss in
  (exists r, verify_order g selections now = Ok (Some r) /\
             saved o = Some (Dict.set games code (with_result g r))) \/
  (saved o = None /\ kept o = ss /\ shown o <> Quiet).
Proof.
  intros Hst o. subst o. unfold show_admin_view. rewrite Hst.
  destruct (verify_order g selections now) as [[r|]|e].
  - left. eauto.
  - right. unfold reveal_section, restart_button.
    destruct ss as [rd|]; [destruct (reveal_pending rd)|];
      repeat split; discriminate.
  - right. unfold reveal_section, restart_button.
    destruct e; destruct ss as [rd|];
      try destruct (reveal_pending rd); repeat split; discriminate.
Qed.

(** A name without a hand ends the run by a [KeyError] that nothing
    catches. *)
Example unknown_name_is_not_reported :
  show_admin_view (SubmitOrder ["Ana"; "Zeca"] "12:00") "ROOM01" demo_dealt
    [("ROOM01", demo_dealt)] None
  = mkOutcome None None (Uncaught KeyError).
Proof. reflexivity. Qed.

(** Claim C4, as the code has it.  In a game in status playing that
    already has a result for the current round, a submission that
    resolves to as many cards as the form has positions is accepted: the
    new record replaces [results[current_round]] and the store is saved.
    The reveal state is written, at position 0 and with the orders and
    verdict of the new record, only when the session holds none; a
    reveal state that is present is kept as it is. *)
Theorem resubmission_overwrites_result :
  forall (code : string) (g : game) (games : store) (ss : session)
         (selections : list string) (now : string) (cards : hands)
         (played : list Z),
    status g = playing ->
    has_result g = true ->
    Dict.get (cards_per_round g) (str (current_round g)) = Some cards ->
    resolve_order cards selections = Ok played ->
    len played = len (players g) * current_round g ->
    let r := result_of cards played now in
    let o := show_admin_view (SubmitOrder selections now) code g games ss in
    saved o = Some (Dict.set games code (with_result g r)) /\
    Dict.get (results (with_result g r)) (str (current_round g)) = Some r /\
    shown o = Quiet /\
    (ss = None ->
     kept o = Some (Reveal.mk (current_round g) (Result.correct_order r)
                      (Result.played_order r) 0 (Result.is_correct r))) /\
    (forall rd, ss = Some rd -> kept o = Some rd).
Proof.
  intros code g games ss selections now cards played
    Hst _ Hcards Hres Hlen r o. subst o.
  rewrite (submit_accepted code g games ss selections now r Hst)
    by (now apply verify_order_accepts).
  cbn [saved kept shown with_result results]. rewrite get_set_same.
  repeat split.
  - now intros ->.
  - now intros rd ->.
Qed.

(** A second submission in a session that has revealed one card. *)
Lemma resubmission_overwrites_result_witness :
  saved (show_admin_view (SubmitOrder ["Bia"; "Ana"] "12:05") "ROOM01"
           demo_verified [("ROOM01", demo_verified)]
           (Some (Reveal.mk 1 [6; 44] [6; 44] 1 true)))
  = Some (Dict.set [("ROOM01", demo_verified)] "ROOM01"
            (with_result demo_verified
               (result_of [("Ana", [6]); ("Bia", [44])] [44; 6] "12:05"))).
Proof.
  apply (resubmission_overwrites_result "ROOM01" demo_verified
           [("ROOM01", demo_verified)]
           (Some (Reveal.mk 1 [6; 44] [6; 44] 1 true))
           ["Bia"; "Ana"] "12:05" [("Ana", [6]); ("Bia", [44])] [44; 6]);
    reflexivity.
Defined.

(** C4 as stated fails in the session that made the first submission:
    after one reveal, a second submission with the names swapped
    overwrites the stored result, while the reveal state stays at
    position 1 with the played order of the first submission. *)
Lemma resubmission_keeps_reveal :
  let c := run "ROOM01"
             (created Dict.empty "ROOM01" ["Ana"; "Bia"] 1 "11:00")
             demo_first_reveal in
  let c' := step "ROOM01" c (Widget (SubmitOrder ["Bia"; "Ana"] "12:05")) in
  exists g g' r rd,
    Dict.get (fst c) "ROOM01" = Some g /\
    status g = playing /\ has_result g = true /\
    Dict.get (fst c') "ROOM01" = Some g' /\
    Dict.get (results g') (str (current_round g')) = Some r /\
    Result.played_order r = [44; 6] /\
    snd c' = Some rd /\
    Reveal.current_card rd = 1%nat /\
    Reveal.played_order rd = [6; 44] /\
    snd c' <> Some (new_reveal (current_round g') r).
Proof.
  vm_compute. do 4 eexists.
  repeat (split; [reflexivity|]). discriminate.
Qed.

(* ================================================================= *)
(** ** Round trip of the order resolver *)

Lemma holder_get cards v :
  NoDup (Dict.keys cards) -> In v (all_cards cards) ->
  exists hand, Dict.get cards (holder cards v) = Some hand /\ In v hand.
Proof.
  induction cards as [|[p h] cards IH]; simpl; [tauto|].
  intros Hnd Hin. inversion Hnd as [|? ? Hni Hnd']; subst.
  change (all_cards ((p, h) :: cards)) with (h ++ all_cards cards) in Hin.
  destruct (existsb (Z.eqb v) h) eqn:E.
  - rewrite String.eqb_refl. exists h. split; auto.
    apply existsb_exists in E. destruct E as (x & Hx & Hvx).
    apply Z.eqb_eq in Hvx. now subst.
  - apply in_app_or in Hin. destruct Hin as [Hin | Hin].
    + assert (existsb (Z.eqb v) h = true)
        by (apply existsb_exists; exists v; split; auto; apply Z.eqb_refl).
      congruence.
    + destruct (IH Hnd' Hin) as (hand & Hget & Hv).
      exists hand. split; auto.
      destruct (String.eqb p (holder cards v)) eqn:Ep; auto.
      apply String.eqb_eq in Ep. exfalso. apply Hni. rewrite Ep.
      apply get_In in Hget.
      change (holder cards v) with (fst (holder cards v, hand)).
      now apply in_map.
Qed.

Lemma holder_unique cards p hand v :
  NoDup (Dict.keys cards) -> NoDup (all_cards cards) ->
  Dict.get cards p = Some hand -> In v hand -> holder cards v = p.
Proof.
  intros Hkeys Hnd Hget Hv.
  destruct (holder_get cards v Hkeys (get_all_cards _ _ _ _ Hget Hv))
    as (h' & Hget' & Hv').
  destruct (string_dec (holder cards v) p) as [|Hne]; auto.
  exfalso. exact (hands_disjoint _ _ _ _ _ _ Hnd Hne Hget' Hget Hv' Hv).
Qed.

Lemma hand_NoDup (cards : hands) p hand :
  NoDup (all_cards cards) -> Dict.get cards p = Some hand -> NoDup hand.
Proof.
  induction cards as [|[k h] cards IH]; simpl; [discriminate|].
  intros Hnd.
  change (all_cards ((k, h) :: cards)) with (h ++ all_cards cards) in Hnd.
  destruct (String.eqb k p).
  - intros [= <-]. exact (NoDup_app_remove_r _ _ Hnd).
  - apply IH. exact (NoDup_app_remove_l _ _ Hnd).
Qed.

Lemma count_occ_map_eqb {A : Type} (f : A -> string) p (l : list A) :
  count_occ string_dec (map f l) p
  = length (filter (fun v => String.eqb (f v) p) l).
Proof.
  induction l as [|x l IH]; simpl; auto.
  destruct (string_dec (f x) p) as [->|Hne].
  - rewrite String.eqb_refl. simpl. now rewrite IH.
  - apply String.eqb_neq in Hne. now rewrite Hne.
Qed.

(** The cards of the correct order that a player holds are that
    player's sorted hand. *)
Lemma holder_filter cards p hand :
  NoDup (Dict.keys cards) -> NoDup (all_cards cards) ->
  Dict.get cards p = Some hand ->
  filter (fun v => String.eqb (holder cards v) p) (sorted (all_cards cards))
  = sorted hand.
Proof.
  intros Hkeys Hnd Hget.
  apply ascending_unique.
  - apply filter_ascending, sorted_ascending.
  - apply sorted_ascending.
  - apply NoDup_Permutation.
    + apply NoDup_filter.
      exact (Permutation_NoDup (Permutation_sym (sorted_perm _)) Hnd).
    + apply (Permutation_NoDup (Permutation_sym (sorted_perm _))).
      eapply hand_NoDup; eauto.
    + intros v. rewrite filter_In, !sorted_In, String.eqb_eq. split.
      * intros [Hin Hp].
        destruct (holder_get cards v Hkeys Hin) as (h' & Hget' & Hv).
        congruence.
      * intros Hv. split; [eapply get_all_cards; eauto|].
        eapply holder_unique; eauto.
Qed.

Lemma walk_within_hands cards :
  NoDup (Dict.keys cards) -> NoDup (all_cards cards) ->
  within_hands cards (walk cards).
Proof.
  intros Hkeys Hnd player Hin. unfold walk in *.
  apply in_map_iff in Hin. destruct Hin as (v & <- & Hv).
  apply (proj1 (sorted_In _ _)) in Hv.
  destruct (holder_get cards v Hkeys Hv) as (hand & Hget & _).
  exists hand. split; auto.
  rewrite count_occ_map_eqb, (holder_filter cards _ hand), sorted_length;
    auto.
Qed.

Lemma resolve_order_walk cards :
  NoDup (Dict.keys cards) -> NoDup (all_cards cards) ->
  resolve_order cards (walk cards) = Ok (sorted (all_cards cards)).
Proof.
  intros Hkeys Hnd.
  destruct (resolve_order_ok cards (walk cards)
              (walk_within_hands cards Hkeys Hnd))
    as (played & Hrun & Hlen & Hpos).
  rewrite Hrun. f_equal. apply nth_error_ext. intros i.
  set (correct := sorted (all_cards cards)) in *.
  assert (Hwalk : length (walk cards) = length correct)
    by (unfold walk; apply length_map).
  destruct (nth_error correct i) as [v|] eqn:Ev.
  - assert (Hi : nth_error (walk cards) i = Some (holder cards v))
      by (unfold walk; fold correct; now apply map_nth_error).
    destruct (Hpos i _ Hi) as (hand & card & Hget & Hcard & Hplayed).
    rewrite Hplayed. f_equal.
    unfold named_before, walk in Hcard. fold correct in Hcard.
    rewrite firstn_map, count_occ_map_eqb in Hcard.
    rewrite <- (holder_filter cards _ hand Hkeys Hnd Hget) in Hcard.
    fold correct in Hcard.
    rewrite <- (firstn_skipn_middle _ _ Ev) in Hcard at 1.
    rewrite filter_app in Hcard. cbn [filter] in Hcard.
    rewrite String.eqb_refl in Hcard.
    rewrite nth_error_app2, Nat.sub_diag in Hcard by lia.
    simpl in Hcard. congruence.
  - apply nth_error_None. apply nth_error_None in Ev. lia.
Qed.

Lemma walk_accepted code g games ss now cards :
  status g = playing ->
  Dict.get (cards_per_round g) (str (current_round g)) = Some cards ->
  NoDup (Dict.keys cards) ->
  NoDup (all_cards cards) ->
  len (walk cards) = len (players g) * current_round g ->
  let correct := sorted (all_cards cards) in
  let r := Result.mk correct correct true now in
  let o := show_admin_view (SubmitOrder (walk cards) now) code g games ss in
  resolve_order cards (walk cards) = Ok correct /\
  verify_order g (walk cards) now = Ok (Some r) /\
  saved o = Some (Dict.set games code (with_result g r)) /\
  Dict.get (results (with_result g r)) (str (current_round g)) = Some r.
Proof.
  intros Hst Hcards Hkeys Hnd Hlen correct r o.
  assert (Hres : resolve_order cards (walk cards) = Ok correct)
    by (now apply resolve_order_walk).
  assert (Hv : verify_order g (walk cards) now = Ok (Some r)).
  { rewrite (verify_order_accepts g (walk cards) now cards correct);
      auto.
    - unfold result_of. fold correct. now rewrite list_eqb_refl.
    - rewrite <- Hlen. unfold len, walk, correct. now rewrite length_map. }
  subst o. rewrite (submit_accepted code g games ss _ now r Hst Hv).
  cbn [saved with_result results]. rewrite get_set_same. auto.
Qed.

(** A round dealt to distinct names holds as many cards as the form has
    positions. *)
Lemma dealt_walk_length rnd names r cards :
  NoDup names -> 0 <= r ->
  distribute_cards rnd names r default_range = Ok (Some cards) ->
  len (walk cards) = len names * r.
Proof.
  intros Hnames Hr Hd.
  assert (Hcap : len names * r <= 100 - 1 + 1).
  { destruct (Z_le_gt_dec (len names * r) (100 - 1 + 1)) as [H|H]; auto.
    unfold default_range in Hd.
    rewrite distribute_cards_short in Hd by assumption. discriminate. }
  destruct (distribute_cards_fair rnd names r 1 100 Hnames Hr Hcap)
    as (selected & cards' & _ & Hd' & Hfair).
  unfold default_range in Hd. rewrite Hd in Hd'. injection Hd' as <-.
  destruct Hfair as (_ & _ & _ & _ & _ & _ & _ & Hsize).
  rewrite <- Hsize. unfold len, walk. now rewrite length_map, sorted_length.
Qed.

(* ================================================================= *)
(** ** More on card distribution *)

Lemma deal_keys names r sel : forall i acc p,
  In p (Dict.keys (deal names r sel i acc))
  <-> In p (Dict.keys acc) \/ In p names.
Proof.
  induction names as [|q names IH]; intros i acc p; simpl; [tauto|].
  rewrite IH, set_keys. destruct (Dict.mem acc q) eqn:E.
  - unfold Dict.mem in E.
    destruct (Dict.get acc q) eqn:G; [|discriminate].
    assert (In q (Dict.keys acc)).
    { destruct (in_dec string_dec q (Dict.keys acc)) as [H|H]; auto.
      apply get_None_keys in H. congruence. }
    split; [tauto|]. intros [H1 | [<- | H2]]; auto.
  - rewrite in_app_iff. simpl. tauto.
Qed.

Lemma deal_hand_sizes names r sel : forall i acc,
  0 <= r -> 0 <= i -> (i + len names) * r <= len sel ->
  (forall p h, Dict.get acc p = Some h -> len h = r) ->
  forall p h, Dict.get (deal names r sel i acc) p = Some h -> len h = r.
Proof.
  unfold len at 1.
  induction names as [|q names IH]; intros i acc Hr Hi Hlen Hacc p h;
    cbn [deal length] in *.
  - apply Hacc.
  - rewrite Nat2Z.inj_succ in Hlen.
    assert (Hn : 0 <= Z.of_nat (length names) * r) by nia.
    apply IH; try lia.
    intros p' h'. destruct (string_dec p' q) as [->|Hne].
    + rewrite get_set_same. intros [= <-].
      rewrite slice_len; [lia | nia | unfold len in *; nia].
    + rewrite get_set_other by assumption. apply Hacc.
Qed.

Lemma distribute_cards_sized rnd names r lo hi cards :
  0 <= r ->
  distribute_cards rnd names r (lo, hi) = Ok (Some cards) ->
  (forall p, In p (Dict.keys cards) <-> In p names) /\
  (forall p h, Dict.get cards p = Some h -> len h = r).
Proof.
  intros Hr Hd.
  assert (Hcap : len names * r <= hi - lo + 1).
  { destruct (Z_le_gt_dec (len names * r) (hi - lo + 1)) as [H|H]; auto.
    rewrite distribute_cards_short in Hd by assumption. discriminate. }
  destruct (distribute_cards_enough rnd names r lo hi Hr Hcap)
    as (selected & Hs & Hlen & Hd').
  rewrite Hd in Hd'. injection Hd' as ->. split.
  - intros p. rewrite deal_keys. simpl. tauto.
  - apply deal_hand_sizes; try rewrite Hlen; try lia; discriminate.
Qed.

(** Property X1.  Whatever the player list, repeated names included, the
    mapping that [distribute_cards] returns for a round that is not
    negative has the names of the list as its keys, every hand in it has
    exactly [round_num] cards, no card occurs twice in the mapping and
    every card lies in the range. *)
Theorem distribute_cards_any_names :
  forall (rnd : nat -> nat) (names : list string) (r lo hi : Z)
         (cards : hands),
    0 <= r ->
    distribute_cards rnd names r (lo, hi) = Ok (Some cards) ->
    (forall p, In p (Dict.keys cards) <-> In p names) /\
    NoDup (Dict.keys cards) /\
    (forall p h, Dict.get cards p = Some h -> len h = r) /\
    NoDup (all_cards cards) /\
    Forall (fun v => lo <= v <= hi) (all_cards cards).
Proof.
  intros rnd names r lo hi cards Hr Hd.
  destruct (distribute_cards_distinct rnd names r lo hi cards Hr Hd)
    as (Hkeys & Hnd & Hrange).
  destruct (distribute_cards_sized rnd names r lo hi cards Hr Hd)
    as (Hin & Hsize).
  auto.
Qed.

Lemma distribute_cards_any_names_witness :
  NoDup (all_cards [("A", [3])]) /\
  forall p h, Dict.get [("A", [3])] p = Some h -> len h = 1.
Proof.
  destruct (distribute_cards_any_names (fun _ => 1%nat) ["A"; "A"] 1 1 100
              [("A", [3])]) as (_ & _ & Hsize & Hnd & _).
  - lia.
  - vm_compute. reflexivity.
  - split; assumption.
Defined.

Lemma distribute_cards_negative rnd names r lo hi :
  len names * r <= hi - lo + 1 -> len names * r < 0 ->
  distribute_cards rnd names r (lo, hi) = Raise ValueError.
Proof.
  intros Hcap Hneg. unfold distribute_cards. cbn [fst snd].
  destruct (len names * r >? hi - lo + 1) eqn:E;
    [apply Z.gtb_lt in E; lia|].
  unfold sample. apply Z.ltb_lt in Hneg. now rewrite Hneg.
Qed.

(** Property X2.  The three outcomes of [distribute_cards], by the number
    of cards needed: more than the pool has, the message and [None];
    a negative number, the [ValueError] of [random.sample]; otherwise a
    mapping. *)
Theorem distribute_cards_outcomes :
  forall (rnd : nat -> nat) (names : list string) (r lo hi : Z),
    let needed := len names * r in
    (needed > hi - lo + 1 ->
     distribute_cards rnd names r (lo, hi) = Ok None) /\
    (needed <= hi - lo + 1 -> needed < 0 ->
     distribute_cards rnd names r (lo, hi) = Raise ValueError) /\
    (needed <= hi - lo + 1 -> 0 <= needed ->
     exists cards, distribute_cards rnd names r (lo, hi) = Ok (Some cards)).
Proof.
  intros rnd names r lo hi needed. split; [|split].
  - apply distribute_cards_short.
  - apply distribute_cards_negative.
  - intros Hcap Hpos.
    destruct (sample_range rnd lo (hi + 1) needed)
      as (selected & Hs & _); [lia|].
    unfold distribute_cards. cbn [fst snd]. fold needed.
    destruct (needed >? hi - lo + 1) eqn:E;
      [apply Z.gtb_lt in E; lia|].
    rewrite Hs. simpl. eauto.
Qed.

Lemma distribute_cards_outcomes_witness :
  distribute_cards (fun i => i) ["Ana"; "Bia"] (-1) (1, 100)
  = Raise ValueError.
Proof.
  apply (distribute_cards_outcomes (fun i => i) ["Ana"; "Bia"] (-1) 1 100);
    vm_compute; congruence.
Defined.

(** Property X3.  In a room that waits, the distribute button stores
    something exactly when the room has a player and the cards needed
    are between 0 and 100.  A room without players gets neither a deal
    nor a message, and a negative round ends the run by the uncaught
    [ValueError]; in both cases nothing is saved. *)
Theorem distribute_button_edges :
  forall (rnd : nat -> nat) (code : string) (g : game) (games : store)
         (ss : session),
    status g = waiting ->
    let needed := len (players g) * current_round g in
    let o := show_admin_view (ClickDistribute rnd) code g games ss in
    (saved o <> None <-> players g <> [] /\ 0 <= needed <= 100) /\
    (players g = [] -> o = mkOutcome None ss Quiet) /\
    (needed < 0 -> o = mkOutcome None ss (Uncaught ValueError)).
Proof.
  intros rnd code g games ss Hst needed o.
  pose proof (distribute_cards_short rnd (players g) (current_round g)
                1 100) as Hshort.
  pose proof (distribute_cards_negative rnd (players g) (current_round g)
                1 100) as Hneg.
  fold needed in Hshort, Hneg.
  assert (Hempty : players g = [] -> o = mkOutcome None ss Quiet).
  { intros He. subst o. unfold show_admin_view. rewrite Hst, He.
    unfold distribute_cards, default_range, sample. cbn. reflexivity. }
  assert (Hcrash : needed < 0 -> o = mkOutcome None ss (Uncaught ValueError)).
  { intros Hn. subst o. unfold show_admin_view, default_range.
    rewrite Hst, Hneg by lia. reflexivity. }
  split; [|split]; auto.
  split.
  - intros Hsaved.
    assert (Hp : players g <> []).
    { intros He. rewrite (Hempty He) in Hsaved. now apply Hsaved. }
    split; [exact Hp|].
    destruct (Z_lt_ge_dec needed 0) as [Hn|Hn].
    { rewrite (Hcrash Hn) in Hsaved. exfalso. now apply Hsaved. }
    destruct (Z_le_gt_dec needed 100) as [Hc|Hc]; [lia|].
    exfalso. apply Hsaved. subst o.
    unfold show_admin_view, default_range.
    rewrite Hst, Hshort by lia. reflexivity.
  - intros [Hp [Hn Hc]].
    destruct (distribute_cards_enough rnd (players g) (current_round g)
                1 100) as (selected & _ & _ & Hd).
    + destruct (Z_lt_ge_dec (current_round g) 0) as [Hr|Hr]; [|lia].
      exfalso. destruct (players g); [congruence|].
      subst needed. unfold len in Hn. simpl length in Hn. nia.
    + fold needed. lia.
    + subst o. unfold show_admin_view, default_range.
      rewrite Hst, Hd, deal_truthy by auto. discriminate.
Qed.

Lemma distribute_button_edges_witness :
  show_admin_view (ClickDistribute demo_draws) "ROOM01"
    (create_new_game "ROOM01" [] 3 "11:00") [] None
  = mkOutcome None None Quiet.
Proof.
  apply (distribute_button_edges demo_draws "ROOM01"
           (create_new_game "ROOM01" [] 3 "11:00") [] None);
    reflexivity.
Defined.

(* ================================================================= *)
(** ** What a run can store *)

Lemma show_admin_view_stores ev code g games ss games' :
  saved (show_admin_view ev code g games ss) = Some games' ->
  exists g', games' = Dict.set games code g' /\ stores ev g ss g'.
Proof.
  unfold show_admin_view, reveal_section, restart_button.
  destruct (status g) eqn:Hst.
  - destruct ev as [|rnd|sels now| | |]; cbn [saved]; try discriminate.
    + destruct (distribute_cards rnd (players g) (current_round g)
                  default_range) as [[cards|]|e] eqn:Hd;
        cbn [saved]; try discriminate.
      destruct (truthy cards) eqn:Ht; cbn [saved]; [|discriminate].
      intros [= <-]. eexists. split; [reflexivity|].
      eapply stores_deal; eauto.
    + intros [= <-]. eexists. split; [reflexivity|].
      now apply stores_restart.
  - destruct ev as [|rnd|sels now| | |].
    + destruct ss as [rd|]; [destruct (reveal_pending rd)|];
        cbn [saved]; discriminate.
    + destruct ss as [rd|]; [destruct (reveal_pending rd)|];
        cbn [saved]; discriminate.
    + destruct (verify_order g sels now) as [[r|]|e] eqn:Hv.
      * cbn [saved]. intros [= <-]. eexists. split; [reflexivity|].
        eapply stores_result; eauto.
      * destruct ss as [rd|]; [destruct (reveal_pending rd)|];
          cbn [saved]; discriminate.
      * destruct e; destruct ss as [rd|];
          try destruct (reveal_pending rd); cbn [saved]; discriminate.
    + destruct ss as [rd|]; [destruct (reveal_pending rd)|];
        cbn [saved]; discriminate.
    + destruct ss as [rd|]; [destruct (reveal_pending rd) eqn:Hp|];
        cbn [saved]; try discriminate.
      intros [= <-]. eexists. split; [reflexivity|].
      eapply stores_advance; eauto.
    + destruct ss as [rd|]; [destruct (reveal_pending rd)|];
        cbn [saved]; intros [= <-]; eexists; (split; [reflexivity|]);
        now apply stores_restart.
  - destruct ev as [|rnd|sels now| | |]; cbn [saved]; try discriminate.
    intros [= <-]. eexists. split; [reflexivity|].
    now apply stores_restart.
Qed.

(** Property X4.  No run of the administrator view changes the
    configuration of the room: whatever it stores has the room code,
    the players, the number of rounds and the creation time of the game
    it was given. *)
Theorem configuration_is_kept :
  forall (ev : event) (code : string) (g : game) (games games' : store)
         (ss : session),
    saved (show_admin_view ev code g games ss) = Some games' ->
    exists g',
      games' = Dict.set games code g' /\
      room_code g' = room_code g /\ players g' = players g /\
      max_rounds g' = max_rounds g /\ created_at g' = created_at g.
Proof.
  intros ev code g games games' ss Hs.
  destruct (show_admin_view_stores ev code g games ss games' Hs)
    as (g' & -> & Hg').
  exists g'. split; [reflexivity|].
  destruct Hg'; unfold advance;
    try destruct (current_round g <? max_rounds g); repeat split.
Qed.

Lemma configuration_is_kept_witness :
  exists g',
    Dict.set demo_store "ROOM01" (restart (create_new_game "ROOM01"
                                            ["Ana"; "Bia"] 1 "11:00"))
    = Dict.set demo_store "ROOM01" g' /\
    room_code g' = "ROOM01" /\ players g' = ["Ana"; "Bia"] /\
    max_rounds g' = 1 /\ created_at g' = "11:00".
Proof.
  apply (configuration_is_kept ClickRestart "ROOM01"
           (create_new_game "ROOM01" ["Ana"; "Bia"] 1 "11:00")
           demo_store _ None).
  reflexivity.
Defined.

(** Property X5.  The moves of status and round.  Short of a restart, a
    finished room stores nothing; a waiting room can only start playing
    its current round; a playing room stays in its round, or goes on to
    the next round and waits when rounds are left, or finishes in its
    round when none is.  The round never changes otherwise. *)
Theorem status_and_round_moves :
  forall (ev : event) (code : string) (g g' : game) (games games' : store)
         (ss : session),
    ev <> ClickRestart ->
    saved (show_admin_view ev code g games ss) = Some games' ->
    Dict.get games' code = Some g' ->
    match status g with
    | waiting => status g' = playing /\ current_round g' = current_round g
    | playing =>
        (status g' = playing /\ current_round g' = current_round g) \/
        (status g' = waiting /\ current_round g' = current_round g + 1 /\
         current_round g < max_rounds g) \/
        (status g' = finished /\ current_round g' = current_round g /\
         max_rounds g <= current_round g)
    | finished => False
    end.
Proof.
  intros ev code g g' games games' ss Hev Hs Hget.
  destruct (show_admin_view_stores ev code g games ss games' Hs)
    as (g0 & -> & Hg0).
  rewrite get_set_same in Hget. injection Hget as ->.
  destruct Hg0 as [rnd cards _ Hst _ _ | sels now r _ Hst _
                  | rd _ Hst _ _ | Hr]; try congruence; rewrite Hst.
  - split; reflexivity.
  - left. split; [exact Hst | reflexivity].
  - right. unfold advance.
    destruct (current_round g <? max_rounds g) eqn:E.
    + apply Z.ltb_lt in E. left. repeat split. exact E.
    + apply Z.ltb_ge in E. right. repeat split. exact E.
Qed.

Lemma status_and_round_moves_witness :
  (status (advance demo_verified) = playing /\
   current_round (advance demo_verified) = current_round demo_verified) \/
  (status (advance demo_verified) = waiting /\
   current_round (advance demo_verified) = current_round demo_verified + 1 /\
   current_round demo_verified < max_rounds demo_verified) \/
  (status (advance demo_verified) = finished /\
   current_round (advance demo_verified) = current_round demo_verified /\
   max_rounds demo_verified <= current_round demo_verified).
Proof.
  apply (status_and_round_moves ClickContinue "ROOM01" demo_verified
           (advance demo_verified) [("ROOM01", demo_verified)]
           [("ROOM01", advance demo_verified)]
           (Some (Reveal.mk 1 [6; 44] [6; 44] 2 true))).
  - discriminate.
  - reflexivity.
  - reflexivity.
Defined.

(** Property X6.  Short of a restart, a run writes to one key only: a
    deal to the hands of the current round, a verification to the result
    of the current round.  The hands and results of every other round
    stay as they are, hands never change once the room plays, and
    results change by verification alone. *)
Theorem other_rounds_are_kept :
  forall (ev : event) (code : string) (g g' : game) (games games' : store)
         (ss : session),
    ev <> ClickRestart ->
    saved (show_admin_view ev code g games ss) = Some games' ->
    Dict.get games' code = Some g' ->
    (forall k, k <> str (current_round g) ->
               Dict.get (cards_per_round g') k
               = Dict.get (cards_per_round g) k) /\
    (forall k, k <> str (current_round g) ->
               Dict.get (results g') k = Dict.get (results g) k) /\
    (status g <> waiting -> cards_per_round g' = cards_per_round g) /\
    ((forall sels now, ev <> SubmitOrder sels now) ->
     results g' = results g).
Proof.
  intros ev code g g' games games' ss Hev Hs Hget.
  destruct (show_admin_view_stores ev code g games ss games' Hs)
    as (g0 & -> & Hg0).
  rewrite get_set_same in Hget. injection Hget as ->.
  destruct Hg0 as [rnd cards _ Hst _ _ | sels now r He Hst _
                  | rd _ Hst _ _ | Hr]; try congruence.
  - repeat split; auto; try congruence.
    intros k Hk. simpl. now apply get_set_other.
  - repeat split; auto.
    + intros k Hk. simpl. now apply get_set_other.
    + intros H. exfalso. exact (H _ _ He).
  - unfold advance. destruct (current_round g <? max_rounds g);
      repeat split; auto.
Qed.

Lemma other_rounds_are_kept_witness :
  Dict.get (results (with_result demo_verified
                       (result_of [("Ana", [6]); ("Bia", [44])] [44; 6]
                          "12:05"))) "2"
  = Dict.get (results demo_verified) "2".
Proof.
  apply (other_rounds_are_kept (SubmitOrder ["Bia"; "Ana"] "12:05") "ROOM01"
           demo_verified
           (with_result demo_verified
              (result_of [("Ana", [6]); ("Bia", [44])] [44; 6] "12:05"))
           [("ROOM01", demo_verified)]
           [("ROOM01",
             with_result demo_verified
               (result_of [("Ana", [6]); ("Bia", [44])] [44; 6] "12:05"))]
           None).
  - discriminate.
  - reflexivity.
  - reflexivity.
  - vm_compute. discriminate.
Defined.

(* ================================================================= *)
(** ** Round keys *)

Lemma str_inj a b : str a = str b -> a = b.
Proof.
  unfold str. intros H. apply to_int_inj.
  assert (Hnil : forall z, Z.to_int z <> Decimal.Pos Decimal.Nil /\
                           Z.to_int z <> Decimal.Neg Decimal.Nil).
  { intros [|p|p]; simpl; split; try discriminate;
      intros [= E]; exact (Unsigned.to_uint_nonnil p E). }
  destruct (Hnil a) as [Ha1 Ha2]. destruct (Hnil b) as [Hb1 Hb2].
  pose proof (NilZero.isi _ Ha1 Ha2) as Ea.
  pose proof (NilZero.isi _ Hb1 Hb2) as Eb.
  rewrite H in Ea. congruence.
Qed.

Lemma round_keys_In n upto : In (str n) (round_keys upto) <-> 1 <= n <= upto.
Proof.
  unfold round_keys. rewrite in_map_iff. split.
  - intros (m & Hm & Hin). apply str_inj in Hm. subst m.
    apply (proj1 (range_In _ _ _)) in Hin. lia.
  - intros H. exists n. split; auto. apply range_In. lia.
Qed.

Lemma round_keys_snoc n :
  1 <= n -> round_keys (n - 1) ++ [str n] = round_keys n.
Proof.
  intros Hn. unfold round_keys, range.
  replace (Z.to_nat (n + 1 - 1)) with (S (Z.to_nat (n - 1 + 1 - 1))) by lia.
  rewrite seq_S, !map_app. cbn [map]. do 3 f_equal. lia.
Qed.

Lemma round_keys_length upto : length (round_keys upto) = Z.to_nat upto.
Proof.
  unfold round_keys. rewrite length_map, range_length. f_equal. lia.
Qed.

Lemma mem_keys {V : Type} (d : Dict.t V) k :
  Dict.mem d k = true <-> In k (Dict.keys d).
Proof.
  unfold Dict.mem. destruct (Dict.get d k) eqn:E.
  - split; auto. intros _.
    destruct (in_dec string_dec k (Dict.keys d)) as [H|H]; auto.
    apply get_None_keys in H. congruence.
  - apply get_None_keys in E. split; [discriminate | tauto].
Qed.

Lemma mem_round_keys {V : Type} (d : Dict.t V) upto n :
  Dict.keys d = round_keys upto ->
  (Dict.mem d (str n) = true <-> 1 <= n <= upto).
Proof. intros H. now rewrite mem_keys, H, round_keys_In. Qed.

Lemma round_keys_mono a b : a <= b -> incl (round_keys a) (round_keys b).
Proof.
  intros Hab k Hk. unfold round_keys in *. apply in_map_iff in Hk.
  destruct Hk as (n & <- & Hn). apply (proj1 (range_In _ _ _)) in Hn.
  apply in_map. apply range_In. lia.
Qed.

Lemma round_key_absent {V : Type} (d : Dict.t V) upto n :
  incl (Dict.keys d) (round_keys upto) -> upto < n ->
  Dict.get d (str n) = None.
Proof.
  intros Hincl Hn. apply get_None_keys. intros Hin.
  apply Hincl, round_keys_In in Hin. lia.
Qed.

(* ================================================================= *)
(** ** What the games file keeps of a room *)

(** The facts about a stored game that every run keeps, whatever the
    session state it runs with. *)
Lemma shared_stores names ev g ss g' :
  stores ev g ss g' ->
  players g = names ->
  1 <= current_round g <= max_rounds g ->
  (status g = finished -> current_round g = max_rounds g) ->
  Dict.keys (cards_per_round g) = round_keys (last_dealt g) ->
  incl (Dict.keys (results g)) (round_keys (last_dealt g)) ->
  dealt_here names g ->
  (room_code g' = room_code g /\ players g' = players g /\
   max_rounds g' = max_rounds g /\ created_at g' = created_at g) /\
  1 <= current_round g' <= max_rounds g' /\
  (status g' = finished -> current_round g' = max_rounds g') /\
  Dict.keys (cards_per_round g') = round_keys (last_dealt g') /\
  incl (Dict.keys (results g')) (round_keys (last_dealt g')) /\
  dealt_here names g'.
Proof.
  intros Hg' Hnames Hround Hfin Hcards Hres Hdealt.
  unfold last_dealt, dealt_here in *.
  destruct Hg' as [rnd cards _ Hst Hd _ | sels now' r _ Hst _
                  | rd _ Hst _ _ | _].
  - (* deal *)
    rewrite Hst in Hcards, Hres. cbn [status_eqb] in Hcards, Hres.
    cbn [with_cards room_code players max_rounds created_at current_round
         status cards_per_round results status_eqb].
    split; [auto|]. split; [lia|]. split; [discriminate|].
    split; [|split].
    + rewrite set_keys.
      assert (Hm : Dict.mem (cards_per_round g) (str (current_round g))
                   = false).
      { apply not_true_is_false. rewrite mem_keys, Hcards, round_keys_In.
        lia. }
      rewrite Hm, Hcards. apply round_keys_snoc. lia.
    + intros k Hk. apply (round_keys_mono (current_round g - 1)); [lia|].
      now apply Hres.
    + intros cards'. rewrite get_set_same. intros [= <-].
      exists rnd. now rewrite <- Hnames.
  - (* verification *)
    rewrite Hst in Hcards, Hres. cbn [status_eqb] in Hcards, Hres.
    cbn [with_result room_code players max_rounds created_at current_round
         status cards_per_round results].
    rewrite Hst. cbn [status_eqb].
    split; [auto|]. split; [lia|]. split; [congruence|].
    split; [exact Hcards|]. split; [|exact Hdealt].
    intros k. rewrite set_keys.
    destruct (Dict.mem (results g) (str (current_round g))).
    + apply Hres.
    + intros Hk. apply in_app_or in Hk. destruct Hk as [Hk | [<- | []]].
      * now apply Hres.
      * apply round_keys_In. lia.
  - (* continue *)
    rewrite Hst in Hcards, Hres. cbn [status_eqb] in Hcards, Hres.
    unfold advance. destruct (current_round g <? max_rounds g) eqn:E.
    + apply Z.ltb_lt in E.
      cbn [room_code players max_rounds created_at current_round
           status cards_per_round results status_eqb].
      replace (current_round g + 1 - 1) with (current_round g) by lia.
      split; [auto|]. split; [lia|]. split; [discriminate|].
      split; [exact Hcards|]. split; [exact Hres|].
      intros cards Hget. exfalso.
      assert (Hm : Dict.mem (cards_per_round g) (str (current_round g + 1))
                   = true) by (unfold Dict.mem; now rewrite Hget).
      apply (mem_round_keys _ _ _ Hcards) in Hm. lia.
    + apply Z.ltb_ge in E.
      cbn [room_code players max_rounds created_at current_round
           status cards_per_round results status_eqb].
      split; [auto|]. split; [lia|]. split; [intros _; lia|].
      split; [exact Hcards|]. split; [exact Hres|exact Hdealt].
  - (* restart *)
    cbn [restart room_code players max_rounds created_at current_round
         status cards_per_round results status_eqb].
    split; [auto|]. split; [lia|]. split; [discriminate|].
    split; [reflexivity|]. split; [intros k []|].
    intros cards. discriminate.
Qed.

Lemma room_shared_created games code names rounds now :
  1 <= rounds ->
  room_shared code names rounds now
    (Dict.set games code (create_new_game code names rounds now)).
Proof.
  intros Hr. exists (create_new_game code names rounds now).
  rewrite get_set_same. split; [reflexivity|].
  split; [repeat split|]. split; [simpl; lia|].
  split; [discriminate|]. split; [reflexivity|].
  split; [intros k []|]. intros cards. discriminate.
Qed.

Lemma room_shared_step code names rounds now c a :
  code <> "" ->
  room_shared code names rounds now (fst c) ->
  room_shared code names rounds now (fst (step code c a)).
Proof.
  intros Hcode (g & Hg & (Hc1 & Hc2 & Hc3 & Hc4) & Hround & Hfin & Hcards
                & Hres & Hdealt).
  destruct c as [games ss]. cbn [fst snd] in *.
  assert (Hsame : room_shared code names rounds now games).
  { exists g. split; [exact Hg|]. split; [auto|]. auto. }
  destruct a as [ev|]; [|exact Hsame].
  unfold step, main. cbn [fst snd].
  apply String.eqb_neq in Hcode. rewrite Hcode, Hg.
  unfold store_after.
  destruct (saved (show_admin_view ev code g games ss)) as [games'|] eqn:Hs;
    cbn [fst]; [|exact Hsame].
  destruct (show_admin_view_stores ev code g games ss games' Hs)
    as (g' & -> & Hg').
  destruct (shared_stores names ev g ss g' Hg' Hc2 Hround Hfin Hcards Hres
              Hdealt)
    as ((Hd1 & Hd2 & Hd3 & Hd4) & Hround' & Hfin' & Hcards' & Hres' & Hdealt').
  exists g'. rewrite get_set_same.
  split; [reflexivity|].
  split; [repeat split; congruence|]. auto.
Qed.

Lemma room_shared_run code names rounds now acts : forall c,
  code <> "" ->
  room_shared code names rounds now (fst c) ->
  room_shared code names rounds now (fst (run code c acts)).
Proof.
  unfold run. induction acts as [|a acts IH]; intros c Hcode Hc; simpl; auto.
  apply IH; auto. now apply room_shared_step.
Qed.

Lemma room_shared_visits code names rounds now l : forall c,
  code <> "" ->
  room_shared code names rounds now (fst c) ->
  room_shared code names rounds now (fst (visits code c l)).
Proof.
  unfold visits. induction l as [|va l IH]; intros c Hcode Hc; simpl; auto.
  apply IH; auto. unfold visit. cbn [fst].
  now apply (room_shared_step code names rounds now
               (fst c, snd c (fst va)) (snd va)).
Qed.

(** The state that the sessions of a room reach from its creation. *)
Lemma reachable_shared games code names rounds now l :
  code <> "" -> 1 <= rounds ->
  room_shared code names rounds now
    (fst (visits code (opened games code names rounds now) l)).
Proof.
  intros Hcode Hr. apply room_shared_visits; auto.
  now apply room_shared_created.
Qed.

(* ================================================================= *)
(** ** One session among the sessions *)

Lemma put_same vs v ss : put vs v ss v = ss.
Proof. unfold put. now rewrite Nat.eqb_refl. Qed.

Lemma put_other vs v w ss : w <> v -> put vs v ss w = vs w.
Proof.
  intros H. unfold put. apply Nat.eqb_neq in H. now rewrite H.
Qed.

(** Visits that all come from one session are a run of that session. *)
Lemma visits_one code v l : forall c,
  Forall (fun va => fst va = v) l ->
  fst (visits code c l) = fst (run code (fst c, snd c v) (map snd l)) /\
  snd (visits code c l) v = snd (run code (fst c, snd c v) (map snd l)).
Proof.
  unfold visits, run. induction l as [|[w a] l IH]; intros c Hall.
  - split; reflexivity.
  - inversion Hall as [|? ? Hw Hall']; subst. cbn [fst] in *.
    cbn [fold_left map snd].
    destruct (IH (visit code c (fst (w, a), a)) Hall') as [H1 H2].
    cbn [fst] in H1, H2.
    rewrite H1, H2. unfold visit. cbn [fst snd]. rewrite put_same.
    now destruct (step code (fst c, snd c w) a).
Qed.

(* ================================================================= *)
(** ** The history of a room run from one session *)

Lemma waiting_has_no_result g :
  status g = waiting ->
  incl (Dict.keys (results g)) (round_keys (last_dealt g)) ->
  has_result g = false.
Proof.
  intros Hst Hres. unfold last_dealt in Hres. rewrite Hst in Hres.
  cbn [status_eqb] in Hres. unfold has_result, Dict.mem.
  rewrite (round_key_absent _ _ _ Hres); [reflexivity | lia].
Qed.

Lemma history_stores ev g ss g' :
  stores ev g ss g' ->
  1 <= current_round g ->
  incl (Dict.keys (results g)) (round_keys (last_dealt g)) ->
  (forall rd, ss = Some rd -> has_result g = true) ->
  Dict.keys (results g) = round_keys (last_verified g) ->
  Dict.keys (results g') = round_keys (last_verified g').
Proof.
  intros Hg' Hround Hincl Hrev Hres.
  unfold last_verified in *.
  destruct Hg' as [rnd cards _ Hst _ _ | sels now' r _ Hst _
                  | rd _ Hst Hss _ | _].
  - exact Hres.
  - rewrite has_result_with_result.
    cbn [with_result results current_round].
    rewrite set_keys. fold (has_result g).
    destruct (has_result g); [exact Hres|].
    rewrite Hres. now apply round_keys_snoc.
  - specialize (Hrev rd Hss). rewrite Hrev in Hres.
    unfold last_dealt in Hincl. rewrite Hst in Hincl.
    cbn [status_eqb] in Hincl.
    unfold advance. destruct (current_round g <? max_rounds g).
    + assert (Hm : has_result
                     (mkGame (room_code g) (players g) (current_round g + 1)
                        (max_rounds g) (cards_per_round g) (results g)
                        (created_at g) waiting) = false).
      { unfold has_result, Dict.mem. cbn [results current_round].
        rewrite (round_key_absent _ _ _ Hincl); [reflexivity | lia]. }
      rewrite Hm. cbn [results current_round].
      replace (current_round g + 1 - 1) with (current_round g) by lia.
      exact Hres.
    + change (has_result (mkGame (room_code g) (players g) (current_round g)
                            (max_rounds g) (cards_per_round g) (results g)
                            (created_at g) finished))
        with (has_result g).
      rewrite Hrev. exact Hres.
  - reflexivity.
Qed.

Lemma room_history_step code names rounds now c a :
  code <> "" -> room_inv code c ->
  room_shared code names rounds now (fst c) ->
  room_history code c -> room_history code (step code c a).
Proof.
  intros Hcode (g0 & Hg0 & Hround & _ & Hrev)
    (g1 & Hg1 & _ & _ & _ & _ & Hincl & _) (g & Hg & Hres).
  rewrite Hg in Hg0, Hg1. injection Hg0 as <-. injection Hg1 as <-.
  destruct c as [games ss]. cbn [fst snd] in *.
  destruct a as [ev|]; [|exists g; auto].
  unfold step, main. cbn [fst snd].
  apply String.eqb_neq in Hcode. rewrite Hcode, Hg.
  unfold store_after.
  destruct (saved (show_admin_view ev code g games ss)) as [games'|] eqn:Hs;
    cbn [fst]; [|exists g; auto].
  destruct (show_admin_view_stores ev code g games ss games' Hs)
    as (g' & -> & Hg').
  unfold room_history. cbn [fst]. exists g'. rewrite get_set_same.
  split; [reflexivity|].
  apply (history_stores ev g ss g'); auto; try lia.
  intros rd Hrd. apply (Hrev rd Hrd).
Qed.

Lemma room_history_run code names rounds now acts : forall c,
  code <> "" -> room_inv code c ->
  room_shared code names rounds now (fst c) ->
  room_history code c ->
  room_inv code (run code c acts) /\
  room_history code (run code c acts).
Proof.
  unfold run. induction acts as [|a acts IH];
    intros c Hcode Hinv Hsh Hhist; simpl; auto.
  apply IH; auto.
  - now apply room_inv_step.
  - now apply room_shared_step.
  - now apply (room_history_step code names rounds now).
Qed.

(** The state that one administrator session reaches from the creation
    of its room. *)
Lemma reachable_room games code names rounds now acts :
  code <> "" -> 1 <= rounds ->
  let c := run code (created games code names rounds now) acts in
  exists g,
    Dict.get (fst c) code = Some g /\
    1 <= current_round g <= max_rounds g /\
    (forall rd, snd c = Some rd -> status g = playing /\ has_result g = true) /\
    (room_code g = code /\ players g = names /\
     max_rounds g = rounds /\ created_at g = now) /\
    Dict.keys (cards_per_round g) = round_keys (last_dealt g) /\
    Dict.keys (results g) = round_keys (last_verified g) /\
    (status g = waiting -> has_result g = false) /\
    (status g = finished ->
     current_round g = max_rounds g /\ has_result g = true).
Proof.
  intros Hcode Hrounds c.
  pose proof (room_shared_created games code names rounds now Hrounds)
    as Hsh0.
  destruct (room_history_run code names rounds now acts
              (created games code names rounds now) Hcode
              (room_inv_created games code names rounds now Hrounds) Hsh0)
    as ((g0 & Hg0 & Hround & Hfin & Hrev) & (g & Hg & Hr)).
  { exists (create_new_game code names rounds now).
    unfold created. cbn [fst]. rewrite get_set_same. split; reflexivity. }
  destruct (room_shared_run code names rounds now acts
              (created games code names rounds now) Hcode Hsh0)
    as (g1 & Hg1 & Hconf & _ & _ & Hcards & Hincl & _).
  fold c in Hg0, Hg, Hg1, Hrev.
  rewrite Hg in Hg0, Hg1. injection Hg0 as <-. injection Hg1 as <-.
  exists g. split; [exact Hg|]. split; [exact Hround|].
  split; [exact Hrev|]. split; [exact Hconf|].
  split; [exact Hcards|]. split; [exact Hr|]. split; [|exact Hfin].
  intros Hw. now apply waiting_has_no_result.
Qed.

(* ================================================================= *)
(** ** Round advancement under several sessions *)

(** Claim C7, as the code has it.  When continue fires on a completed
    reveal, the game is saved with [current_round + 1] and status
    waiting if [current_round < max_rounds], and with status finished
    and the same round if [current_round = max_rounds].  Hence in every
    state that the administrator sessions of a room reach from its
    creation with [max_rounds >= 1], status finished implies
    [current_round = max_rounds]; and when all the visits come from one
    session, it also implies a result under that round. *)
Theorem advance_or_finish :
  (forall (code : string) (g : game) (games : store) (rd : Reveal.t),
      status g = playing -> reveal_pending rd = false ->
      let o := show_admin_view ClickContinue code g games (Some rd) in
      saved o = Some (Dict.set games code (advance g)) /\ kept o = None /\
      (current_round g < max_rounds g ->
       current_round (advance g) = current_round g + 1 /\
       status (advance g) = waiting) /\
      (current_round g = max_rounds g ->
       current_round (advance g) = current_round g /\
       status (advance g) = finished)) /\
  (forall (games : store) (code : string) (names : list string)
          (rounds : Z) (now : string) (l : list (nat * action)) (g : game),
      code <> "" -> 1 <= rounds ->
      Dict.get (fst (visits code (opened games code names rounds now) l))
        code = Some g ->
      status g = finished ->
      current_round g = max_rounds g) /\
  (forall (games : store) (code : string) (names : list string)
          (rounds : Z) (now : string) (v : nat) (l : list (nat * action))
          (g : game),
      code <> "" -> 1 <= rounds ->
      Forall (fun va => fst va = v) l ->
      Dict.get (fst (visits code (opened games code names rounds now) l))
        code = Some g ->
      status g = finished ->
      current_round g = max_rounds g /\
      Dict.mem (results g) (str (current_round g)) = true).
Proof.
  split; [|split].
  - intros code g games rd Hst Hterm o. subst o.
    unfold show_admin_view, reveal_section. rewrite Hst, Hterm.
    cbn [saved kept]. repeat split; unfold advance.
    + destruct (current_round g <? max_rounds g) eqn:E; [reflexivity|].
      apply Z.ltb_ge in E. lia.
    + destruct (current_round g <? max_rounds g) eqn:E; [reflexivity|].
      apply Z.ltb_ge in E. lia.
    + destruct (current_round g <? max_rounds g) eqn:E; [|reflexivity].
      apply Z.ltb_lt in E. lia.
    + destruct (current_round g <? max_rounds g) eqn:E; [|reflexivity].
      apply Z.ltb_lt in E. lia.
  - intros games code names rounds now l g Hcode Hrounds Hg Hfin.
    destruct (reachable_shared games code names rounds now l Hcode Hrounds)
      as (g' & Hg' & _ & _ & Hdone & _).
    rewrite Hg in Hg'. injection Hg' as <-. apply Hdone, Hfin.
  - intros games code names rounds now v l g Hcode Hrounds Hone Hg Hfin.
    destruct (visits_one code v l (opened games code names rounds now) Hone)
      as [Hstore _].
    rewrite Hstore in Hg.
    assert (Hrun : Dict.get
                     (fst (run code (created games code names rounds now)
                             (map snd l))) code = Some g) by exact Hg.
    destruct (room_inv_run code (map snd l) _ Hcode
                (room_inv_created games code names rounds now Hrounds))
      as (g' & Hg' & _ & Hdone & _).
    rewrite Hrun in Hg'. injection Hg' as <-. apply Hdone, Hfin.
Qed.

(** A one-round game of two players played to its end from one
    session. *)
Lemma advance_or_finish_witness :
  exists g,
    Dict.get (fst (visits "ROOM01"
                     (opened Dict.empty "ROOM01" ["Ana"; "Bia"] 1 "11:00")
                     (map (pair 0%nat) demo_game))) "ROOM01" = Some g /\
    status g = finished /\
    current_round g = max_rounds g /\
    Dict.mem (results g) (str (current_round g)) = true.
Proof.
  eexists. split; [vm_compute; reflexivity|]. split; [reflexivity|].
  apply (proj2 (proj2 advance_or_finish) Dict.empty "ROOM01" ["Ana"; "Bia"] 1
           "11:00" 0%nat (map (pair 0%nat) demo_game)).
  - discriminate.
  - lia.
  - repeat constructor.
  - vm_compute. reflexivity.
  - reflexivity.
Defined.

(** C7 as stated fails when two sessions administer the room.  The
    first deals, verifies and reveals the only round; the second
    restarts the room and deals again; the first, whose reveal state is
    still complete, continues: the game is finished and its round has
    no result. *)
Lemma finished_without_result :
  exists g,
    Dict.get
      (fst (visits "ROOM01"
              (opened Dict.empty "ROOM01" ["Ana"; "Bia"] 1 "11:00")
              [(0%nat, Widget (ClickDistribute demo_draws));
               (0%nat, Widget (SubmitOrder ["Ana"; "Bia"] "12:00"));
               (0%nat, Widget ClickReveal);
               (0%nat, Widget ClickReveal);
               (1%nat, Widget ClickRestart);
               (1%nat, Widget (ClickDistribute demo_draws));
               (0%nat, Widget ClickContinue)])) "ROOM01" = Some g /\
    status g = finished /\
    results g = [] /\
    Dict.mem (results g) (str (current_round g)) = false.
Proof.
  eexists. repeat split; vm_compute; reflexivity.
Qed.

(* ================================================================= *)
(** ** Rooms under the actions of their administrators *)

Lemma click_restart code g games ss :
  show_admin_view ClickRestart code g games ss
  = mkOutcome (Some (Dict.set games code (restart g))) None Quiet.
Proof.
  unfold show_admin_view, reveal_section, restart_button.
  destruct (status g); auto.
  destruct ss as [rd|]; auto. destruct (reveal_pending rd); auto.
Qed.

(** Property X7.  Restart brings a room back to the state in which it was
    created: after any visits of any administrator sessions, the restart
    button stores the very game that [create_new_game] built for the
    room, and leaves the session that clicked without a reveal state. *)
Theorem restart_returns_to_creation :
  forall (games : store) (code : string) (names : list string)
         (rounds : Z) (now : string) (l : list (nat * action)) (v : nat),
    code <> "" -> 1 <= rounds ->
    let c := visit code (visits code (opened games code names rounds now) l)
               (v, Widget ClickRestart) in
    Dict.get (fst c) code = Some (create_new_game code names rounds now) /\
    snd c v = None.
Proof.
  intros games code names rounds now l v Hcode Hrounds c.
  destruct (reachable_shared games code names rounds now l Hcode Hrounds)
    as (g & Hg & (Hc1 & Hc2 & Hc3 & Hc4) & _).
  subst c. destruct (visits code (opened games code names rounds now) l)
    as [games1 vs1]. cbn [fst snd] in *.
  unfold visit, step, main. cbn [fst snd].
  apply String.eqb_neq in Hcode. rewrite Hcode, Hg, click_restart.
  cbn [store_after saved kept fst snd]. rewrite get_set_same, put_same.
  split; [|reflexivity].
  unfold restart, create_new_game. now rewrite Hc1, Hc2, Hc3, Hc4.
Qed.

Lemma restart_returns_to_creation_witness :
  Dict.get
    (fst (visit "ROOM01"
            (visits "ROOM01"
               (opened Dict.empty "ROOM01" ["Ana"; "Bia"] 1 "11:00")
               (map (pair 0%nat) demo_game))
            (1%nat, Widget ClickRestart))) "ROOM01"
  = Some (create_new_game "ROOM01" ["Ana"; "Bia"] 1 "11:00").
Proof.
  apply (restart_returns_to_creation Dict.empty "ROOM01" ["Ana"; "Bia"] 1
           "11:00" (map (pair 0%nat) demo_game) 1%nat).
  - discriminate.
  - lia.
Defined.

(** Property X8.  The rounds that have hands and the rounds that have a
    result, after any visits of any administrator sessions: hands exist
    exactly for the rounds 1 to [current_round], the current round
    excepted while the room waits, and only a round with hands has a
    result.  So no round after the current one has hands or a result,
    and a waiting room has no result for its current round.  When all
    the visits come from one session, results exist exactly for the
    rounds before the current one and, once it is verified, for the
    current one. *)
Theorem rounds_with_hands_and_results :
  forall (games : store) (code : string) (names : list string)
         (rounds : Z) (now : string) (l : list (nat * action)) (g : game),
    code <> "" -> 1 <= rounds ->
    Dict.get (fst (visits code (opened games code names rounds now) l))
      code = Some g ->
    (forall n, Dict.mem (cards_per_round g) (str n) = true
               <-> 1 <= n <= last_dealt g) /\
    last_dealt g <= current_round g /\
    incl (Dict.keys (results g)) (Dict.keys (cards_per_round g)) /\
    (status g = waiting -> has_result g = false) /\
    (forall v, Forall (fun va => fst va = v) l ->
               forall n, Dict.mem (results g) (str n) = true
                         <-> 1 <= n <= last_verified g).
Proof.
  intros games code names rounds now l g Hcode Hrounds Hget.
  destruct (reachable_shared games code names rounds now l Hcode Hrounds)
    as (g0 & Hg0 & _ & Hround & _ & Hcards & Hres & _).
  rewrite Hget in Hg0. injection Hg0 as <-.
  split; [|split; [|split; [|split]]].
  - intros n. now apply mem_round_keys.
  - unfold last_dealt. destruct (status_eqb (status g) waiting); lia.
  - now rewrite Hcards.
  - intros Hw. now apply waiting_has_no_result.
  - intros v Hone n.
    destruct (visits_one code v l (opened games code names rounds now) Hone)
      as [Hstore _].
    rewrite Hstore in Hget.
    assert (Hrun : Dict.get
                     (fst (run code (created games code names rounds now)
                             (map snd l))) code = Some g) by exact Hget.
    destruct (reachable_room games code names rounds now (map snd l)
                Hcode Hrounds)
      as (g1 & Hg1 & _ & _ & _ & _ & Hver & _).
    rewrite Hrun in Hg1. injection Hg1 as <-.
    now apply mem_round_keys.
Qed.

Lemma rounds_with_hands_and_results_witness :
  Dict.mem (cards_per_round demo_playing) (str 2) = true
  <-> 1 <= 2 <= last_dealt demo_playing.
Proof.
  apply (rounds_with_hands_and_results Dict.empty "ROOM01" ["Ana"; "Bia"] 1
           "11:00"
           [(0%nat, Widget (ClickDistribute demo_draws));
            (0%nat, Widget (SubmitOrder ["Bia"; "Ana"] "12:00"))]
           demo_playing).
  - discriminate.
  - lia.
  - vm_compute. reflexivity.
Defined.

Lemma filter_length_le {A : Type} (f : A -> bool) (l : list A) :
  (length (filter f l) <= length l)%nat.
Proof.
  induction l as [|x l IH]; simpl; auto. destruct (f x); simpl; lia.
Qed.

(** Property X9.  The score of the results screen, in a room run from one
    administrator session: the total is the number of rounds verified
    so far, the count of correct rounds never exceeds it, and there is
    no score exactly when no round is verified.  When the game is
    finished the total is [max_rounds]. *)
Theorem score_counts_verified_rounds :
  forall (games : store) (code : string) (names : list string)
         (rounds : Z) (now : string) (acts : list action) (g : game),
    code <> "" -> 1 <= rounds ->
    Dict.get (fst (run code (created games code names rounds now) acts))
      code = Some g ->
    (last_verified g = 0 -> show_game_results g = None) /\
    (0 < last_verified g ->
     exists correct_rounds,
       show_game_results g
       = Some (correct_rounds, Z.to_nat (last_verified g)) /\
       (correct_rounds <= Z.to_nat (last_verified g))%nat) /\
    (status g = finished -> last_verified g = max_rounds g).
Proof.
  intros games code names rounds now acts g Hcode Hrounds Hget.
  destruct (reachable_room games code names rounds now acts Hcode Hrounds)
    as (g0 & Hg0 & Hround & _ & _ & _ & Hres & _ & Hfin).
  rewrite Hget in Hg0. injection Hg0 as <-.
  assert (Hlen : length (results g) = Z.to_nat (last_verified g)).
  { rewrite <- round_keys_length, <- Hres. unfold Dict.keys.
    now rewrite length_map. }
  split; [|split].
  - intros H0. rewrite H0 in Hlen. unfold show_game_results.
    destruct (results g); [reflexivity | discriminate].
  - intros Hpos. unfold show_game_results.
    destruct (results g) as [|kv rest] eqn:E.
    + simpl in Hlen. lia.
    + rewrite <- Hlen. eexists. split; [reflexivity|].
      etransitivity; [apply filter_length_le|].
      unfold Dict.values. now rewrite length_map.
  - intros Hf. destruct (Hfin Hf) as [Hmax Hhas].
    unfold last_verified. now rewrite Hhas.
Qed.

Lemma score_counts_verified_rounds_witness :
  exists correct_rounds,
    show_game_results demo_playing
    = Some (correct_rounds, Z.to_nat (last_verified demo_playing)) /\
    (correct_rounds <= Z.to_nat (last_verified demo_playing))%nat.
Proof.
  apply (score_counts_verified_rounds Dict.empty "ROOM01" ["Ana"; "Bia"] 1
           "11:00"
           [Widget (ClickDistribute demo_draws);
            Widget (SubmitOrder ["Bia"; "Ana"] "12:00")]
           demo_playing).
  - discriminate.
  - lia.
  - vm_compute. reflexivity.
  - vm_compute. reflexivity.
Defined.

(** Property X10.  A room created through the form never lacks cards: with
    2 to 8 players and 1 to 10 rounds, in every state that the visits
    of its administrator sessions reach, the distribute button of a
    waiting room deals the current round and the room plays. *)
Theorem form_rooms_never_lack_cards :
  forall (games : store) (code : string) (names : list string)
         (rounds : Z) (now : string) (l : list (nat * action)) (g : game)
         (rnd : nat -> nat) (v : nat),
    code <> "" -> from_form names rounds ->
    let c := visits code (opened games code names rounds now) l in
    Dict.get (fst c) code = Some g ->
    status g = waiting ->
    exists cards,
      distribute_cards rnd (players g) (current_round g) default_range
      = Ok (Some cards) /\
      main (ClickDistribute rnd) code (fst c) (snd c v)
      = mkOutcome (Some (Dict.set (fst c) code (with_cards g cards)))
          (snd c v) Quiet.
Proof.
  intros games code names rounds now l g rnd v Hcode [Hp Hr] c Hget Hst.
  destruct (reachable_shared games code names rounds now l Hcode)
    as (g0 & Hg0 & (_ & Hnames & Hmax & _) & Hround & _); [lia|].
  fold c in Hg0. rewrite Hget in Hg0. injection Hg0 as <-.
  destruct (distribute_cards_enough rnd (players g) (current_round g) 1 100)
    as (selected & _ & _ & Hd); [lia | rewrite Hnames; nia|].
  eexists. split; [exact Hd|].
  unfold main. apply String.eqb_neq in Hcode. rewrite Hcode, Hget.
  unfold show_admin_view. rewrite Hst. unfold default_range. rewrite Hd.
  rewrite deal_truthy; [reflexivity|].
  left. rewrite Hnames. intros ->. unfold len in Hp. simpl in Hp. lia.
Qed.

Lemma form_rooms_never_lack_cards_witness :
  exists cards,
    distribute_cards demo_draws ["Caio"; "Duda"] 1 default_range
    = Ok (Some cards).
Proof.
  destruct (form_rooms_never_lack_cards [] "ROOM02" ["Caio"; "Duda"] 3
              "11:30" [] (create_new_game "ROOM02" ["Caio"; "Duda"] 3 "11:30")
              demo_draws 0%nat) as (cards & Hd & _).
  - discriminate.
  - split; vm_compute; split; discriminate.
  - reflexivity.
  - reflexivity.
  - exists cards. exact Hd.
Defined.

(* ================================================================= *)
(** ** When the order resolver succeeds *)

Lemma resolve_loop_within round_cards selections : forall todo done played out,
  selections = done ++ todo ->
  length played = length done ->
  (forall p, In p done ->
     exists hand, Dict.get round_cards p = Some hand /\
                  (count_occ string_dec done p <= length hand)%nat) ->
  resolve_loop round_cards selections todo played = Ok out ->
  within_hands round_cards selections.
Proof.
  induction todo as [|q rest IH]; intros done played out Hsel Hlen Hdone Hrun.
  - rewrite app_nil_r in Hsel. subst done. exact Hdone.
  - assert (Hfirst : firstn (length played) selections = done)
      by (rewrite Hlen, Hsel; apply firstn_prefix).
    cbn [resolve_loop] in Hrun. unfold Dict.item in Hrun.
    destruct (Dict.get round_cards q) as [hq|] eqn:Hq; [|discriminate].
    cbn [bind] in Hrun. rewrite Hfirst in Hrun. unfold index in Hrun.
    destruct (nth_error (sorted hq) (count_occ string_dec done q))
      as [card|] eqn:Ecard; [|discriminate].
    cbn [bind] in Hrun.
    assert (Hlt : (count_occ string_dec done q < length hq)%nat).
    { rewrite <- (sorted_length hq). apply nth_error_Some. congruence. }
    apply (IH (done ++ [q]) (played ++ [card]) out); auto.
    + now rewrite <- app_assoc.
    + rewrite !length_app. simpl. lia.
    + intros p Hp. rewrite count_occ_snoc.
      apply in_app_or in Hp.
      destruct (string_dec q p) as [->|Hne].
      * exists hq. split; auto. lia.
      * destruct Hp as [Hp | [Hp | []]]; [|congruence].
        destruct (Hdone p Hp) as (h & Hh & Hc). exists h. split; auto. lia.
Qed.

Lemma resolve_loop_raises round_cards selections : forall todo played e,
  resolve_loop round_cards selections todo played = Raise e ->
  e = KeyError \/ e = IndexError.
Proof.
  induction todo as [|q rest IH]; intros played e; cbn [resolve_loop].
  - discriminate.
  - unfold Dict.item, index.
    destruct (Dict.get round_cards q) as [hq|]; cbn [bind];
      [|intros [= <-]; now left].
    destruct (nth_error (sorted hq) _) as [card|]; cbn [bind];
      [apply IH | intros [= <-]; now right].
Qed.

(** Property X11.  The order resolver returns a played order exactly when
    every selected name has a hand in the mapping and is named no more
    often than that hand has cards; when it does not, it raises
    [KeyError] or [IndexError]. *)
Theorem resolve_order_succeeds_iff :
  forall (round_cards : hands) (selections : list string),
    ((exists played, resolve_order round_cards selections = Ok played)
     <-> within_hands round_cards selections) /\
    (forall e, resolve_order round_cards selections = Raise e ->
               e = KeyError \/ e = IndexError).
Proof.
  intros round_cards selections. split; [split|].
  - intros [played Hrun].
    apply (resolve_loop_within round_cards selections selections [] []
             played); auto.
    intros p [].
  - intros Hin. destruct (resolve_order_ok _ _ Hin) as (played & Hrun & _).
    eauto.
  - intros e. apply resolve_loop_raises.
Qed.

Lemma resolve_order_succeeds_iff_witness :
  exists played,
    resolve_order [("Ana", [6]); ("Bia", [44])] ["Bia"; "Ana"] = Ok played.
Proof.
  apply (resolve_order_succeeds_iff [("Ana", [6]); ("Bia", [44])]
           ["Bia"; "Ana"]).
  intros p Hp. simpl in Hp.
  destruct Hp as [<- | [<- | []]]; eexists; split;
    try reflexivity; simpl; lia.
Defined.

Lemma verify_order_raises g selections now e :
  verify_order g selections now = Raise e -> e = KeyError \/ e = IndexError.
Proof.
  unfold verify_order, Dict.item.
  destruct (Dict.get (cards_per_round g) (str (current_round g)))
    as [cards|]; cbn [bind]; [|intros [= <-]; now left].
  destruct (resolve_order cards selections) as [played|e'] eqn:Er;
    cbn [bind].
  - destruct (negb _); discriminate.
  - intros [= <-]. unfold resolve_order in Er.
    eapply resolve_loop_raises; eauto.
Qed.

(** Property X12.  The [try] of the verification form never raises
    [ValueError], so its [except ValueError] clause never runs: the only
    message that a submission can be answered with is the one of the
    count check, and a submission that raises ends the run with nothing
    saved and the session state as it was. *)
Theorem except_clause_never_runs :
  forall (code : string) (g : game) (games : store) (ss : session)
         (selections : list string) (now : string),
    status g = playing ->
    let o := show_admin_view (SubmitOrder selections now) code g games ss in
    verify_order g selections now <> Raise ValueError /\
    (shown o = ErrorShown <-> verify_order g selections now = Ok None) /\
    (forall e, verify_order g selections now = Raise e ->
               o = mkOutcome None ss (Uncaught e)).
Proof.
  intros code g games ss selections now Hst o. subst o.
  assert (Hnv : verify_order g selections now <> Raise ValueError).
  { intros H. destruct (verify_order_raises _ _ _ _ H); discriminate. }
  split; [exact Hnv|].
  unfold show_admin_view, reveal_section, restart_button. rewrite Hst.
  destruct (verify_order g selections now) as [[r|]|e] eqn:Hv.
  - split; [split; discriminate | discriminate].
  - split; [|discriminate].
    destruct ss as [rd|]; [destruct (reveal_pending rd)|];
      split; reflexivity.
  - destruct e; try (exfalso; now apply Hnv);
      (split; [split; discriminate | intros e [= <-]; reflexivity]).
Qed.

Lemma except_clause_never_runs_witness :
  show_admin_view (SubmitOrder ["Ana"; "Zeca"] "12:00") "ROOM01" demo_dealt
    [("ROOM01", demo_dealt)] None
  = mkOutcome None None (Uncaught KeyError).
Proof.
  apply (except_clause_never_runs "ROOM01" demo_dealt
           [("ROOM01", demo_dealt)] None ["Ana"; "Zeca"] "12:00");
    reflexivity.
Defined.

(** Property X13.  A submission is stored exactly when the round has
    hands, the selections resolve, and the resolved order has
    [len(players) * current_round] cards; what is stored then is the
    record of the resolved order under the current round.  In every
    other case the games file and the session state stay as they were
    and the run shows a message or ends by an exception. *)
Theorem submission_stored_iff :
  forall (code : string) (g : game) (games : store) (ss : session)
         (selections : list string) (now : string),
    status g = playing ->
    let o := show_admin_view (SubmitOrder selections now) code g games ss in
    (saved o <> None <->
     exists cards played,
       Dict.get (cards_per_round g) (str (current_round g)) = Some cards /\
       resolve_order cards selections = Ok played /\
       len played = len (players g) * current_round g) /\
    (forall cards played,
        Dict.get (cards_per_round g) (str (current_round g)) = Some cards ->
        resolve_order cards selections = Ok played ->
        len played = len (players g) * current_round g ->
        saved o = Some (Dict.set games code
                          (with_result g (result_of cards played now)))) /\
    (saved o = None -> kept o = ss /\ shown o <> Quiet).
Proof.
  intros code g games ss selections now Hst o.
  assert (Hacc : forall cards played,
             Dict.get (cards_per_round g) (str (current_round g))
             = Some cards ->
             resolve_order cards selections = Ok played ->
             len played = len (players g) * current_round g ->
             saved o = Some (Dict.set games code
                               (with_result g (result_of cards played now)))).
  { intros cards played Hc Hr Hl. subst o.
    rewrite (submit_accepted code g games ss selections now
               (result_of cards played now) Hst); [reflexivity|].
    now apply verify_order_accepts. }
  split; [split|split].
  - intros Hs.
    destruct (rejected_submission_changes_nothing code g games ss
                selections now Hst) as [(r & Hv & _) | (Hn & _)];
      [|now contradiction Hs].
    unfold verify_order, Dict.item in Hv.
    destruct (Dict.get (cards_per_round g) (str (current_round g)))
      as [cards|] eqn:Hc; [|discriminate].
    cbn [bind] in Hv.
    destruct (resolve_order cards selections) as [played|] eqn:Hr;
      [|discriminate].
    cbn [bind] in Hv.
    destruct (len played =? len (players g) * current_round g) eqn:E;
      [|discriminate].
    apply Z.eqb_eq in E. exists cards, played. auto.
  - intros (cards & played & Hc & Hr & Hl).
    rewrite (Hacc cards played Hc Hr Hl). discriminate.
  - exact Hacc.
  - intros Hn.
    destruct (rejected_submission_changes_nothing code g games ss
                selections now Hst) as [(r & _ & Hs) | (_ & Hk & Hm)].
    + fold o in Hs. congruence.
    + auto.
Qed.

Lemma submission_stored_iff_witness :
  saved (show_admin_view (SubmitOrder ["Bia"; "Ana"] "12:05") "ROOM01"
           demo_dealt [("ROOM01", demo_dealt)] None)
  = Some (Dict.set [("ROOM01", demo_dealt)] "ROOM01"
            (with_result demo_dealt
               (result_of [("Ana", [6]); ("Bia", [44])] [44; 6] "12:05"))).
Proof.
  apply (submission_stored_iff "ROOM01" demo_dealt [("ROOM01", demo_dealt)]
           None ["Bia"; "Ana"] "12:05"); reflexivity.
Defined.

(* ================================================================= *)
(** ** What an accepted submission plays *)

Lemma named_before_lt selections i j p :
  (i < j)%nat -> nth_error selections i = Some p ->
  (named_before selections i p < named_before selections j p)%nat.
Proof.
  intros Hij Hi. unfold named_before.
  destruct (nth_error_split _ _ Hi) as (l1 & l2 & -> & Hlen).
  rewrite <- Hlen, firstn_prefix.
  rewrite firstn_app, (firstn_all2 (n := j)) by lia.
  replace (j - length l1)%nat with (S (j - length l1 - 1)) by lia.
  cbn [firstn]. rewrite count_occ_app. cbn [count_occ].
  destruct (string_dec p p); [lia | congruence].
Qed.

Lemma resolved_NoDup cards selections played :
  NoDup (all_cards cards) ->
  resolves_to cards selections played -> NoDup played.
Proof.
  intros Hnd [Hlen Hpos].
  apply NoDup_nth_error. intros i j Hi Hij.
  assert (Hsel : forall k c, nth_error played k = Some c ->
            exists p hand,
              nth_error selections k = Some p /\
              Dict.get cards p = Some hand /\
              nth_error (sorted hand) (named_before selections k p)
              = Some c).
  { intros k c Hk.
    assert (Hlt : (k < length selections)%nat)
      by (rewrite <- Hlen; apply nth_error_Some; congruence).
    destruct (nth_error selections k) as [p|] eqn:Ep;
      [|apply nth_error_None in Ep; lia].
    destruct (Hpos k p Ep) as (hand & card & Hget & Hcard & Hplayed).
    exists p, hand. repeat split; auto. congruence. }
  destruct (nth_error played i) as [c|] eqn:Ei;
    [|apply nth_error_None in Ei; lia].
  symmetry in Hij.
  destruct (Hsel i c Ei) as (pi & hi & Hpi & Hgi & Hci).
  destruct (Hsel j c Hij) as (pj & hj & Hpj & Hgj & Hcj).
  assert (pi = pj) as <-.
  { destruct (string_dec pi pj) as [|Hne]; auto. exfalso.
    apply (hands_disjoint cards pi pj hi hj c Hnd Hne Hgi Hgj).
    - apply sorted_In. eapply nth_error_In; eauto.
    - apply sorted_In. eapply nth_error_In; eauto. }
  rewrite Hgi in Hgj. injection Hgj as <-.
  assert (Hsame : named_before selections i pi
                  = named_before selections j pi).
  { assert (Hs : NoDup (sorted hi)).
    { apply (Permutation_NoDup (Permutation_sym (sorted_perm hi))).
      eapply hand_NoDup; eauto. }
    apply (proj1 (NoDup_nth_error (sorted hi)) Hs).
    - apply nth_error_Some. congruence.
    - congruence. }
  destruct (Nat.lt_trichotomy i j) as [H | [H | H]]; auto.
  - pose proof (named_before_lt selections i j pi H Hpi). lia.
  - pose proof (named_before_lt selections j i pi H Hpj). lia.
Qed.

Lemma resolved_incl cards selections played :
  resolves_to cards selections played -> incl played (all_cards cards).
Proof.
  intros [Hlen Hpos] c Hc.
  apply In_nth_error in Hc. destruct Hc as [k Hk].
  assert (Hlt : (k < length selections)%nat)
    by (rewrite <- Hlen; apply nth_error_Some; congruence).
  destruct (nth_error selections k) as [p|] eqn:Ep;
    [|apply nth_error_None in Ep; lia].
  destruct (Hpos k p Ep) as (hand & card & Hget & Hcard & Hplayed).
  apply (get_all_cards cards p hand); auto.
  apply sorted_In. apply nth_error_In in Hcard. congruence.
Qed.

Lemma resolved_everything cards selections played :
  NoDup (all_cards cards) ->
  resolves_to cards selections played ->
  (length (all_cards cards) <= length played)%nat ->
  Permutation played (sorted (all_cards cards)).
Proof.
  intros Hnd Hres Hlen.
  rewrite sorted_perm.
  apply NoDup_Permutation_bis; auto.
  - eapply resolved_NoDup; eauto.
  - eapply resolved_incl; eauto.
Qed.

(** A submission that resolves to the correct order is the walk. *)
Lemma correct_is_walk cards selections :
  NoDup (Dict.keys cards) -> NoDup (all_cards cards) ->
  resolves_to cards selections (sorted (all_cards cards)) ->
  selections = walk cards.
Proof.
  intros Hkeys Hnd [Hlen Hpos].
  apply nth_error_ext. intros i. unfold walk.
  destruct (nth_error selections i) as [p|] eqn:Ep.
  - destruct (Hpos i p Ep) as (hand & card & Hget & Hcard & Hplayed).
    rewrite (map_nth_error _ _ _ Hplayed). f_equal. symmetry.
    apply (holder_unique cards p hand); auto.
    apply sorted_In. eapply nth_error_In; eauto.
  - symmetry. apply nth_error_None. rewrite length_map, Hlen.
    now apply nth_error_None.
Qed.

Lemma resolve_order_resolves cards selections played :
  resolve_order cards selections = Ok played ->
  resolves_to cards selections played.
Proof.
  intros Hrun.
  assert (Hin : within_hands cards selections).
  { apply (resolve_loop_within cards selections selections [] [] played);
      auto. intros p []. }
  destruct (resolve_order_ok _ _ Hin) as (played' & Hrun' & Hres).
  congruence.
Qed.

Lemma distribute_cards_count rnd names r lo hi cards :
  0 <= r ->
  distribute_cards rnd names r (lo, hi) = Ok (Some cards) ->
  len (all_cards cards) <= len names * r.
Proof.
  intros Hr Hd.
  assert (Hcap : len names * r <= hi - lo + 1).
  { destruct (Z_le_gt_dec (len names * r) (hi - lo + 1)) as [H|H]; auto.
    rewrite distribute_cards_short in Hd by assumption. discriminate. }
  destruct (distribute_cards_enough rnd names r lo hi Hr Hcap)
    as (selected & Hs & Hlen & Hd').
  rewrite Hd in Hd'. injection Hd' as ->.
  destruct (deal_all_cards names r selected 0 Dict.empty) as [rest Hperm];
    try lia.
  { exists []. simpl. now rewrite slice_empty. }
  rewrite Z.add_0_l, <- Hlen, slice_all in Hperm.
  apply Permutation_length in Hperm. rewrite length_app in Hperm.
  rewrite <- Hlen. unfold len. lia.
Qed.

Lemma all_cards_length (cards : hands) r :
  NoDup (Dict.keys cards) ->
  (forall p h, Dict.get cards p = Some h -> len h = r) ->
  len (all_cards cards) = len (Dict.keys cards) * r.
Proof.
  unfold len. induction cards as [|[k h] cards IH]; intros Hnd Hsize.
  - reflexivity.
  - inversion Hnd as [|? ? Hni Hnd']; subst.
    change (all_cards ((k, h) :: cards)) with (h ++ all_cards cards).
    cbn [Dict.keys map fst length]. rewrite length_app.
    assert (Hh : Z.of_nat (length h) = r).
    { apply (Hsize k). simpl. now rewrite String.eqb_refl. }
    assert (Hrest : Z.of_nat (length (all_cards cards))
                    = Z.of_nat (length (Dict.keys cards)) * r).
    { apply IH; auto. intros p h' Hp. apply (Hsize p). simpl.
      destruct (String.eqb k p) eqn:E; auto.
      apply String.eqb_eq in E. subst p. exfalso. apply Hni.
      apply get_In in Hp. change k with (fst (k, h')). now apply in_map. }
    rewrite Nat2Z.inj_add, Nat2Z.inj_succ, Hh, Hrest.
    fold (Dict.keys cards). nia.
Qed.

(** The submissions that [verify_order] accepts in a round dealt by
    [distribute_cards]. *)
Lemma accepted_in_dealt_round rnd g selections now cards r :
  0 <= current_round g ->
  distribute_cards rnd (players g) (current_round g) default_range
  = Ok (Some cards) ->
  Dict.get (cards_per_round g) (str (current_round g)) = Some cards ->
  verify_order g selections now = Ok (Some r) ->
  exists played,
    r = result_of cards played now /\
    resolves_to cards selections played /\
    len played = len (players g) * current_round g /\
    len (all_cards cards) = len (players g) * current_round g /\
    NoDup (Dict.keys cards) /\ NoDup (all_cards cards).
Proof.
  intros Hr Hd Hcards Hv.
  unfold verify_order, Dict.item in Hv. rewrite Hcards in Hv.
  cbn [bind] in Hv.
  destruct (resolve_order cards selections) as [played|] eqn:Hrun;
    [|discriminate].
  cbn [bind] in Hv.
  destruct (len played =? len (players g) * current_round g) eqn:E;
    [|discriminate].
  apply Z.eqb_eq in E. cbn [negb] in Hv. injection Hv as <-.
  pose proof (resolve_order_resolves _ _ _ Hrun) as Hres.
  destruct (distribute_cards_distinct rnd _ _ 1 100 cards Hr Hd)
    as (Hkeys & Hnd & _).
  pose proof (distribute_cards_count rnd _ _ 1 100 cards Hr Hd) as Hcount.
  pose proof (NoDup_incl_length (resolved_NoDup _ _ _ Hnd Hres)
                (resolved_incl _ _ _ Hres)) as Hle.
  exists played. repeat split; auto; try apply Hres.
  unfold len in *. lia.
Qed.

(** Property X14.  In a round dealt by [distribute_cards], a submission
    that is stored plays every card of the round exactly once: the
    played order is a permutation of the correct order, which is the
    ascending sort of the cards of all hands.  The verdict is true
    exactly for the submission that walks the correct order and names
    the holder of each card. *)
Theorem accepted_submission_plays_every_card :
  forall (rnd : nat -> nat) (g : game) (selections : list string)
         (now : string) (cards : hands) (r : Result.t),
    0 <= current_round g ->
    distribute_cards rnd (players g) (current_round g) default_range
    = Ok (Some cards) ->
    Dict.get (cards_per_round g) (str (current_round g)) = Some cards ->
    verify_order g selections now = Ok (Some r) ->
    Result.correct_order r = sorted (all_cards cards) /\
    StronglySorted Z.le (Result.correct_order r) /\
    Permutation (Result.played_order r) (Result.correct_order r) /\
    (Result.is_correct r = true <-> selections = walk cards).
Proof.
  intros rnd g selections now cards r Hr Hd Hcards Hv.
  destruct (accepted_in_dealt_round rnd g selections now cards r
              Hr Hd Hcards Hv)
    as (played & -> & Hres & Hlen & Hall & Hkeys & Hnd).
  cbn [result_of Result.correct_order Result.played_order Result.is_correct].
  split; [reflexivity|]. split; [apply sorted_ascending|]. split.
  - apply resolved_everything with selections; auto.
    unfold len in *. lia.
  - rewrite list_eqb_eq. split.
    + intros ->. now apply correct_is_walk.
    + intros ->.
      pose proof (resolve_order_walk cards Hkeys Hnd) as Hw.
      destruct (resolve_order_ok cards (walk cards)
                  (walk_within_hands cards Hkeys Hnd))
        as (played' & Hrun & [Hl' Hp']).
      assert (played' = sorted (all_cards cards)) by congruence.
      subst played'.
      apply nth_error_ext. intros i.
      destruct Hres as [Hl Hp].
      destruct (nth_error (walk cards) i) as [p|] eqn:Ep.
      * destruct (Hp i p Ep) as (h1 & c1 & Hg1 & Hc1 & Hp1).
        destruct (Hp' i p Ep) as (h2 & c2 & Hg2 & Hc2 & Hp2).
        congruence.
      * apply nth_error_None in Ep.
        assert (nth_error played i = None) as ->
            by (apply nth_error_None; lia).
        symmetry. apply nth_error_None. lia.
Qed.

Lemma accepted_submission_plays_every_card_witness :
  Permutation [44; 6] [6; 44].
Proof.
  apply (accepted_submission_plays_every_card demo_draws demo_dealt
           ["Bia"; "Ana"] "12:05" [("Ana", [6]); ("Bia", [44])]
           (result_of [("Ana", [6]); ("Bia", [44])] [44; 6] "12:05")).
  - vm_compute. discriminate.
  - vm_compute. reflexivity.
  - reflexivity.
  - reflexivity.
Defined.

(** A stored submission shows that the names of the room are distinct. *)
Lemma accepted_names_distinct rnd g selections now cards r :
  1 <= current_round g ->
  distribute_cards rnd (players g) (current_round g) default_range
  = Ok (Some cards) ->
  Dict.get (cards_per_round g) (str (current_round g)) = Some cards ->
  verify_order g selections now = Ok (Some r) ->
  NoDup (players g).
Proof.
  intros Hr Hd Hcards Hv.
  destruct (accepted_in_dealt_round rnd g selections now cards r
              ltac:(lia) Hd Hcards Hv)
    as (played & _ & _ & _ & Hall & Hkeys & _).
  assert (Hr0 : 0 <= current_round g) by lia.
  destruct (distribute_cards_sized rnd _ _ 1 100 cards Hr0 Hd)
    as (Hin & Hsize).
  rewrite (all_cards_length cards (current_round g) Hkeys Hsize) in Hall.
  assert (Hsame : length (Dict.keys cards) = length (players g))
    by (unfold len in Hall; nia).
  apply (Permutation_NoDup (l := Dict.keys cards)); auto.
  apply NoDup_Permutation_bis; auto; [lia|].
  intros p Hp. now apply Hin.
Qed.

(* ================================================================= *)
(** ** Round trip of the order resolver through the form *)

Lemma walk_names cards :
  NoDup (Dict.keys cards) ->
  Forall (fun p => In p (Dict.keys cards)) (walk cards).
Proof.
  intros Hkeys. unfold walk. apply Forall_forall. intros p Hp.
  apply in_map_iff in Hp. destruct Hp as (v & <- & Hv).
  apply (proj1 (sorted_In _ _)) in Hv.
  destruct (holder_get cards v Hkeys Hv) as (hand & Hg & _).
  apply get_In in Hg. change (holder cards v) with (fst (holder cards v, hand)).
  now apply in_map.
Qed.

(** The walk of a dealt round fits the form exactly when the names of
    the room are distinct. *)
Lemma walk_fits_form rnd g cards :
  0 <= current_round g ->
  distribute_cards rnd (players g) (current_round g) default_range
  = Ok (Some cards) ->
  (NoDup (players g) -> form_submission g (walk cards)) /\
  (1 <= current_round g -> form_submission g (walk cards) ->
   NoDup (players g)).
Proof.
  intros Hr Hd.
  destruct (distribute_cards_distinct rnd _ _ 1 100 cards Hr Hd)
    as (Hkeys & Hnd & _).
  destruct (distribute_cards_sized rnd _ _ 1 100 cards Hr Hd)
    as (Hin & Hsize).
  split.
  - intros Hnames. split.
    + now apply (dealt_walk_length rnd).
    + eapply Forall_impl; [|apply walk_names; exact Hkeys].
      intros p Hp. now apply Hin.
  - intros Hr1 [Hlen _].
    assert (Hwalk : len (walk cards) = len (all_cards cards))
      by (unfold len, walk; now rewrite length_map, sorted_length).
    rewrite Hwalk, (all_cards_length cards (current_round g) Hkeys Hsize)
      in Hlen.
    assert (Hsame : length (Dict.keys cards) = length (players g))
      by (unfold len in Hlen; nia).
    apply (Permutation_NoDup (l := Dict.keys cards)); auto.
    apply NoDup_Permutation_bis; auto; [lia|].
    intros p Hp. now apply Hin.
Qed.

(** Claim C9.  For every round dealt by [distribute_cards], the
    submission that walks the correct order, the ascending sort of the
    cards of all hands, and names for each value the player whose hand
    holds it, is resolved to exactly the correct order; and when the
    form submits it, the record stored for the round has both orders
    equal to the correct order and [is_correct] true.  The walk is a
    submission of the form when the player names are pairwise distinct
    and, from round 1 on, only then. *)
Theorem walk_round_trip :
  forall (rnd : nat -> nat) (code : string) (g : game) (games : store)
         (ss : session) (now : string) (cards : hands),
    status g = playing ->
    0 <= current_round g ->
    distribute_cards rnd (players g) (current_round g) default_range
    = Ok (Some cards) ->
    Dict.get (cards_per_round g) (str (current_round g)) = Some cards ->
    let correct := sorted (all_cards cards) in
    let r := Result.mk correct correct true now in
    let o := show_admin_view (SubmitOrder (walk cards) now) code g games ss in
    (StronglySorted Z.le correct /\ Permutation correct (all_cards cards)) /\
    (forall i v, nth_error correct i = Some v ->
       exists p hand, nth_error (walk cards) i = Some p /\
                      Dict.get cards p = Some hand /\ In v hand) /\
    resolve_order cards (walk cards) = Ok correct /\
    (form_submission g (walk cards) ->
     verify_order g (walk cards) now = Ok (Some r) /\
     saved o = Some (Dict.set games code (with_result g r)) /\
     Dict.get (results (with_result g r)) (str (current_round g)) = Some r) /\
    (NoDup (players g) -> form_submission g (walk cards)) /\
    (1 <= current_round g -> form_submission g (walk cards) ->
     NoDup (players g)).
Proof.
  intros rnd code g games ss now cards Hst Hr Hd Hcards correct r o.
  destruct (distribute_cards_distinct rnd (players g) (current_round g)
              1 100 cards Hr Hd) as (Hkeys & Hnd & _).
  split; [split; [apply sorted_ascending | apply sorted_perm]|].
  split.
  { intros i v Hv.
    assert (Hin : In v (all_cards cards)).
    { apply (proj1 (sorted_In _ _)). eapply nth_error_In; eauto. }
    destruct (holder_get cards v Hkeys Hin) as (hand & Hg & Hvh).
    exists (holder cards v), hand. split; auto.
    unfold walk. now apply map_nth_error. }
  split; [now apply resolve_order_walk|].
  split; [|exact (walk_fits_form rnd g cards Hr Hd)].
  intros [Hlen _].
  destruct (walk_accepted code g games ss now cards Hst Hcards Hkeys Hnd Hlen)
    as (_ & Hv & Hs & Hg).
  auto.
Qed.

(** C9 at a round-1 deal to Ana and Bia. *)
Lemma walk_round_trip_witness :
  resolve_order [("Ana", [6]); ("Bia", [44])]
    (walk [("Ana", [6]); ("Bia", [44])]) = Ok [6; 44] /\
  form_submission demo_dealt (walk [("Ana", [6]); ("Bia", [44])]) /\
  verify_order demo_dealt (walk [("Ana", [6]); ("Bia", [44])]) "12:00"
  = Ok (Some (Result.mk [6; 44] [6; 44] true "12:00")).
Proof.
  destruct (walk_round_trip demo_draws "ROOM01" demo_dealt
              [("ROOM01", demo_dealt)] None "12:00"
              [("Ana", [6]); ("Bia", [44])])
    as (_ & _ & Hres & Hrec & Hform & _).
  - reflexivity.
  - vm_compute. discriminate.
  - vm_compute. reflexivity.
  - reflexivity.
  - assert (Hnames : NoDup (players demo_dealt))
      by (repeat constructor; simpl; intuition discriminate).
    split; [exact Hres|]. split; [exact (Hform Hnames)|].
    apply Hrec. exact (Hform Hnames).
Defined.

(* ================================================================= *)
(** ** A player list that repeats a name *)

Lemma repeated_name_stuck code names rounds now c va :
  code <> "" -> ~ NoDup names ->
  room_shared code names rounds now (fst c) ->
  stuck code c -> stuck code (visit code c va).
Proof.
  intros Hcode Hdup (g1 & Hg1 & (_ & Hnames & _) & _ & _ & _ & _ & Hdealt)
    (g & Hg & Hres & Hfin & Hround & Hss).
  rewrite Hg in Hg1. injection Hg1 as <-.
  destruct c as [games vs]. destruct va as [w a]. cbn [fst snd] in *.
  assert (Hput : forall v, put vs w None v = None).
  { intros v. unfold put. destruct (Nat.eqb v w); auto. }
  unfold visit. cbn [fst snd]. rewrite (Hss w).
  destruct a as [ev|].
  2:{ unfold stuck. cbn [step fst snd]. exists g. repeat split; auto. }
  unfold step, main. cbn [fst snd].
  apply String.eqb_neq in Hcode. rewrite Hcode, Hg.
  unfold store_after.
  destruct (saved (show_admin_view ev code g games None)) as [games'|]
    eqn:Hs; cbn [fst snd].
  - destruct (show_admin_view_stores ev code g games None games' Hs)
      as (g' & -> & Hg').
    assert (Hk : kept (show_admin_view ev code g games None) = None
                 /\ results g' = [] /\ status g' <> finished
                 /\ current_round g' = 1).
    { destruct Hg' as [rnd cards He Hst Hd Ht | sels now' r He Hst Hv
                      | rd _ _ Hrd _ | He]; try discriminate.
      - subst ev. unfold show_admin_view. rewrite Hst, Hd, Ht.
        repeat split; auto. discriminate.
      - exfalso. apply Hdup.
        unfold verify_order, Dict.item in Hv.
        destruct (Dict.get (cards_per_round g) (str (current_round g)))
          as [cards|] eqn:Hc; [|discriminate].
        destruct (Hdealt cards Hc) as [rnd Hd].
        rewrite <- Hnames.
        apply (accepted_names_distinct rnd g sels now' cards r);
          try lia; try (now rewrite Hnames); auto.
        unfold verify_order, Dict.item. now rewrite Hc.
      - subst ev. rewrite click_restart. repeat split. discriminate. }
    destruct Hk as (Hk1 & Hk2 & Hk3 & Hk4).
    unfold stuck. cbn [fst snd]. exists g'. rewrite get_set_same, Hk1.
    repeat split; auto.
  - assert (Hk : kept (show_admin_view ev code g games None) = None).
    { unfold show_admin_view, reveal_section, restart_button in *.
      destruct (status g), ev; cbn in *; try reflexivity;
        try discriminate;
        repeat match goal with
          | |- context [match ?x with _ => _ end] =>
              destruct x; cbn in *; try reflexivity; try discriminate
          end. }
    unfold stuck. cbn [fst snd]. exists g. rewrite Hk.
    repeat split; auto.
Qed.

(** Property X15.  A room created with a player list that repeats a name
    never gets past its first round: whatever its administrator sessions
    do, no submission is ever stored, no reveal starts in any session,
    the round stays 1 and the game never finishes. *)
Theorem repeated_name_room_is_stuck :
  forall (games : store) (code : string) (names : list string)
         (rounds : Z) (now : string) (l : list (nat * action)),
    code <> "" -> 1 <= rounds -> ~ NoDup names ->
    let c := visits code (opened games code names rounds now) l in
    exists g,
      Dict.get (fst c) code = Some g /\
      results g = [] /\ status g <> finished /\ current_round g = 1 /\
      forall v, snd c v = None.
Proof.
  intros games code names rounds now l Hcode Hrounds Hdup.
  assert (Hgen : forall c,
             room_shared code names rounds now (fst c) ->
             stuck code c -> stuck code (visits code c l)).
  { unfold visits. induction l as [|va l IH]; intros c Hsh Hst; simpl; auto.
    apply IH.
    - unfold visit. cbn [fst].
      now apply (room_shared_step code names rounds now
                   (fst c, snd c (fst va)) (snd va)).
    - now apply (repeated_name_stuck code names rounds now). }
  apply Hgen.
  - now apply room_shared_created.
  - exists (create_new_game code names rounds now).
    unfold opened. cbn [fst snd]. rewrite get_set_same.
    repeat split. discriminate.
Qed.

Lemma repeated_name_room_is_stuck_witness :
  exists g,
    Dict.get
      (fst (visits "ROOM01" (opened Dict.empty "ROOM01" ["A"; "A"] 1 "11:00")
              [(0%nat, Widget (ClickDistribute (fun _ => 1%nat)));
               (1%nat, Widget (SubmitOrder ["A"; "A"] "12:00"))]))
      "ROOM01" = Some g /\
    results g = [] /\ status g <> finished /\ current_round g = 1 /\
    forall v,
      snd (visits "ROOM01" (opened Dict.empty "ROOM01" ["A"; "A"] 1 "11:00")
             [(0%nat, Widget (ClickDistribute (fun _ => 1%nat)));
              (1%nat, Widget (SubmitOrder ["A"; "A"] "12:00"))]) v = None.
Proof.
  apply (repeated_name_room_is_stuck Dict.empty "ROOM01" ["A"; "A"] 1
           "11:00"
           [(0%nat, Widget (ClickDistribute (fun _ => 1%nat)));
            (1%nat, Widget (SubmitOrder ["A"; "A"] "12:00"))]).
  - discriminate.
  - lia.
  - intros H. inversion H as [|? ? Hn _]. apply Hn. now left.
Defined.

(* ================================================================= *)
(** ** What the form can be answered with *)

(** Property X24.  A submission of the form is never answered by a
    message: its resolved order has one card for each position, so the
    count check passes whenever the resolver returns.  The submission
    is stored, or the run ends by the [KeyError] or [IndexError] of the
    resolver with nothing saved and the session state as it was. *)
Theorem form_submission_is_stored_or_raises :
  forall (code : string) (g : game) (games : store) (ss : session)
         (selections : list string) (now : string),
    status g = playing ->
    form_submission g selections ->
    let o := show_admin_view (SubmitOrder selections now) code g games ss in
    verify_order g selections now <> Ok None /\
    shown o <> ErrorShown /\
    ((exists cards played,
        Dict.get (cards_per_round g) (str (current_round g)) = Some cards /\
        resolve_order cards selections = Ok played /\
        saved o = Some (Dict.set games code
                          (with_result g (result_of cards played now)))) \/
     (exists e, (e = KeyError \/ e = IndexError) /\
                o = mkOutcome None ss (Uncaught e))).
Proof.
  intros code g games ss selections now Hst [Hlen _] o.
  assert (Hnone : verify_order g selections now <> Ok None).
  { unfold verify_order, Dict.item.
    destruct (Dict.get (cards_per_round g) (str (current_round g)))
      as [cards|]; cbn [bind]; [|discriminate].
    destruct (resolve_order cards selections) as [played|e] eqn:Hrun;
      cbn [bind]; [|discriminate].
    destruct (resolve_order_resolves _ _ _ Hrun) as [Hl _].
    assert (E : len played = len (players g) * current_round g)
      by (unfold len in *; rewrite Hl; exact Hlen).
    rewrite E, Z.eqb_refl. discriminate. }
  split; [exact Hnone|].
  subst o. unfold show_admin_view. rewrite Hst.
  destruct (verify_order g selections now) as [[r|]|e] eqn:Hv.
  - split; [discriminate|]. left.
    unfold verify_order, Dict.item in Hv.
    destruct (Dict.get (cards_per_round g) (str (current_round g)))
      as [cards|] eqn:Hc; [|discriminate].
    cbn [bind] in Hv.
    destruct (resolve_order cards selections) as [played|] eqn:Hr;
      [|discriminate].
    cbn [bind] in Hv.
    destruct (negb (len played =? len (players g) * current_round g));
      [discriminate|].
    injection Hv as <-. exists cards, played. auto.
  - now contradiction Hnone.
  - destruct (verify_order_raises _ _ _ _ Hv) as [-> | ->];
      (split; [discriminate|]); right.
    + exists KeyError. split; [now left | reflexivity].
    + exists IndexError. split; [now right | reflexivity].
Qed.

Lemma form_submission_is_stored_or_raises_witness :
  (exists cards played,
      Dict.get (cards_per_round demo_twin_round)
        (str (current_round demo_twin_round)) = Some cards /\
      resolve_order cards ["A"; "A"] = Ok played /\
      saved (show_admin_view (SubmitOrder ["A"; "A"] "12:00") "ROOM01"
               demo_twin_round [("ROOM01", demo_twin_round)] None)
      = Some (Dict.set [("ROOM01", demo_twin_round)] "ROOM01"
                (with_result demo_twin_round
                   (result_of cards played "12:00")))) \/
  (exists e, (e = KeyError \/ e = IndexError) /\
             show_admin_view (SubmitOrder ["A"; "A"] "12:00") "ROOM01"
               demo_twin_round [("ROOM01", demo_twin_round)] None
             = mkOutcome None None (Uncaught e)).
Proof.
  apply (form_submission_is_stored_or_raises "ROOM01" demo_twin_round
           [("ROOM01", demo_twin_round)] None ["A"; "A"] "12:00").
  - reflexivity.
  - split; [reflexivity|]. repeat constructor.
Defined.

(* ================================================================= *)
(** ** The summary of a completed reveal *)

Lemma filter_seq_shift (f : nat -> bool) s n :
  length (filter f (seq (S s) n))
  = length (filter (fun i => f (S i)) (seq s n)).
Proof.
  revert s. induction n as [|n IH]; intros s; simpl; auto.
  destruct (f (S s)); simpl; now rewrite IH.
Qed.

Lemma filter_length_ext {A : Type} (f g : A -> bool) l :
  (forall x, In x l -> f x = g x) ->
  length (filter f l) = length (filter g l).
Proof.
  induction l as [|x l IH]; intros H; simpl; auto.
  rewrite (H x (or_introl eq_refl)).
  destruct (g x); simpl; rewrite IH; auto; intros; apply H; now right.
Qed.

Lemma count_matches played correct :
  length
    (filter (fun i => (i <? length correct)%nat
                      && (nth i played 0 =? nth i correct 0))
       (seq 0 (length played)))
  = matches played correct.
Proof.
  revert correct. induction played as [|x played IH]; intros correct.
  - reflexivity.
  - destruct correct as [|y correct].
    + cbn [matches length]. generalize (seq 0 (S (length played))).
      intros l. induction l as [|i l IHl]; simpl; auto.
    + specialize (IH correct).
      change (length (x :: played)) with (S (length played)).
      change (seq 0 (S (length played)))
        with (0%nat :: seq 1 (length played)).
      cbn [filter matches].
      change ((0 <? length (y :: correct))%nat) with true.
      change (nth 0 (x :: played) 0) with x.
      change (nth 0 (y :: correct) 0) with y.
      cbn [andb].
      assert (Hrest :
                length
                  (filter
                     (fun i => (i <? length (y :: correct))%nat
                               && (nth i (x :: played) 0
                                   =? nth i (y :: correct) 0))
                     (seq 1 (length played)))
                = matches played correct).
      { rewrite filter_seq_shift. rewrite <- IH.
        apply filter_length_ext. intros i _. reflexivity. }
      destruct (x =? y); [rewrite length_cons|]; rewrite Hrest; lia.
Qed.

Lemma correct_count_matches rd :
  correct_count rd
  = matches (Reveal.played_order rd) (Reveal.correct_order rd).
Proof. apply count_matches. Qed.

Lemma panels_matches rd cards : forall i,
  length (filter (fun p => snd p) (panels_from rd i cards))
  = matches (skipn i (Reveal.played_order rd)) cards.
Proof.
  induction cards as [|card cards IH]; intros i.
  - simpl. now destruct (skipn i (Reveal.played_order rd)).
  - cbn [panels_from filter]. unfold panel at 1. cbn [snd].
    destruct (nth_error (Reveal.played_order rd) i) as [p|] eqn:E.
    + assert (Hs : skipn i (Reveal.played_order rd)
                   = p :: skipn (S i) (Reveal.played_order rd)).
      { rewrite <- (firstn_skipn_middle _ _ E) at 1.
        rewrite skipn_app, skipn_all2, length_firstn;
          [|rewrite length_firstn; lia].
        assert (Hlt : (i < length (Reveal.played_order rd))%nat)
          by (apply nth_error_Some; congruence).
        replace (i - Nat.min i (length (Reveal.played_order rd)))%nat
          with 0%nat by lia.
        reflexivity. }
      rewrite Hs. cbn [matches].
      destruct (p =? card); cbn [length]; rewrite IH; lia.
    + apply nth_error_None in E.
      rewrite (skipn_all2 _ E). cbn [matches].
      rewrite IH, skipn_all2 by lia. now destruct cards.
Qed.





(** Property X16.  The count of the summary is the number of panels that
    the final display draws as correct, whatever the reveal state. *)
Theorem summary_counts_green_panels :
  forall rd : Reveal.t, correct_count rd = green_panels rd.
Proof.
  intros rd. unfold green_panels.
  now rewrite correct_count_matches, panels_matches.
Qed.



(* ================================================================= *)
(** ** The player view *)

(** Property X18.  What the players see in a round, numbered 1 or more,
    dealt by [distribute_cards]: every player of the list sees
    [current_round] cards in ascending order, a name outside the list
    is told that it is not registered, the cards of two different names
    are disjoint, and the cards on all screens together are the cards
    of the correct order.  The order resolver plays, for the [k]-th
    naming of a player, the [k]-th card of that player's screen. *)
Theorem player_view_after_deal :
  forall (rnd : nat -> nat) (g : game) (cards : hands),
    status g = playing ->
    1 <= current_round g ->
    distribute_cards rnd (players g) (current_round g) default_range
    = Ok (Some cards) ->
    Dict.get (cards_per_round g) (str (current_round g)) = Some cards ->
    (forall p, In p (players g) ->
       exists cs, show_player_view g p = YourCards cs /\
                  len cs = current_round g /\
                  StronglySorted Z.le cs /\ NoDup cs) /\
    (forall p, ~ In p (players g) -> show_player_view g p = NotRegistered) /\
    (forall p q cs ds,
        p <> q ->
        show_player_view g p = YourCards cs ->
        show_player_view g q = YourCards ds ->
        forall v, In v cs -> ~ In v ds) /\
    (forall v, In v (sorted (all_cards cards))
               <-> exists p cs, show_player_view g p = YourCards cs /\
                                In v cs) /\
    (forall selections played i p,
        resolve_order cards selections = Ok played ->
        nth_error selections i = Some p ->
        exists cs card,
          show_player_view g p = YourCards cs /\
          nth_error cs (named_before selections i p) = Some card /\
          nth_error played i = Some card).
Proof.
  intros rnd g cards Hst Hr1 Hd Hcards.
  assert (Hr : 0 <= current_round g) by lia.
  destruct (distribute_cards_distinct rnd _ _ 1 100 cards Hr Hd)
    as (Hkeys & Hnd & _).
  destruct (distribute_cards_sized rnd _ _ 1 100 cards Hr Hd)
    as (Hin & Hsize).
  assert (Hview : forall p,
             show_player_view g p
             = match Dict.get cards p with
               | Some hand => YourCards (sorted hand)
               | None => NotRegistered
               end).
  { intros p. unfold show_player_view. rewrite Hst, Hcards.
    destruct (Dict.get cards p) as [hand|] eqn:Hg; auto.
    pose proof (Hsize p hand Hg) as Hl. unfold len in Hl.
    rewrite <- (sorted_length hand) in Hl.
    destruct (sorted hand); auto. simpl in Hl. lia. }
  assert (Hscreen : forall p cs, show_player_view g p = YourCards cs ->
             exists hand, Dict.get cards p = Some hand /\ cs = sorted hand).
  { intros p cs. rewrite Hview.
    destruct (Dict.get cards p) as [hand|]; [|discriminate].
    intros [= <-]. eauto. }
  split; [|split; [|split; [|split]]].
  - intros p Hp. apply Hin in Hp.
    destruct (Dict.get cards p) as [hand|] eqn:Hg;
      [|apply get_None_keys in Hg; contradiction].
    exists (sorted hand). rewrite Hview, Hg. repeat split.
    + unfold len. rewrite sorted_length. apply (Hsize p hand Hg).
    + apply sorted_ascending.
    + apply (Permutation_NoDup (Permutation_sym (sorted_perm hand))).
      eapply hand_NoDup; eauto.
  - intros p Hp. rewrite Hview.
    destruct (Dict.get cards p) as [hand|] eqn:Hg; auto.
    exfalso. apply Hp, Hin. apply get_In in Hg.
    change p with (fst (p, hand)). now apply in_map.
  - intros p q cs ds Hpq Hp Hq v Hv Hv'.
    destruct (Hscreen p cs Hp) as (hp & Hgp & ->).
    destruct (Hscreen q ds Hq) as (hq & Hgq & ->).
    apply (proj1 (sorted_In _ _)) in Hv.
    apply (proj1 (sorted_In _ _)) in Hv'.
    exact (hands_disjoint cards p q hp hq v Hnd Hpq Hgp Hgq Hv Hv').
  - intros v. rewrite sorted_In. split.
    + intros Hv.
      destruct (holder_get cards v Hkeys Hv) as (hand & Hg & Hvh).
      exists (holder cards v), (sorted hand). rewrite Hview, Hg.
      split; auto. now apply sorted_In.
    + intros (p & cs & Hp & Hv).
      destruct (Hscreen p cs Hp) as (hand & Hg & ->).
      apply (proj1 (sorted_In _ _)) in Hv. eapply get_all_cards; eauto.
  - intros selections played i p Hrun Hi.
    destruct (resolve_order_resolves _ _ _ Hrun) as [_ Hpos].
    destruct (Hpos i p Hi) as (hand & card & Hg & Hc & Hp).
    exists (sorted hand), card. rewrite Hview, Hg. auto.
Qed.

Lemma player_view_after_deal_witness :
  show_player_view demo_dealt "Zeca" = NotRegistered.
Proof.
  apply (player_view_after_deal demo_draws demo_dealt
           [("Ana", [6]); ("Bia", [44])]).
  - reflexivity.
  - vm_compute. discriminate.
  - vm_compute. reflexivity.
  - reflexivity.
  - simpl. intuition discriminate.
Defined.

(* ================================================================= *)
(** ** Room codes *)

Lemma string_of_list_ascii_length l :
  String.length (string_of_list_ascii l) = length l.
Proof. induction l as [|c l IH]; simpl; auto. Qed.

Lemma choices_length rnd population k :
  length (choices rnd population k) = k.
Proof. unfold choices. now rewrite length_map, length_seq. Qed.

Lemma choices_In rnd population k c :
  population <> [] -> In c (choices rnd population k) -> In c population.
Proof.
  intros Hne Hc. unfold choices in Hc. apply in_map_iff in Hc.
  destruct Hc as (i & <- & _). apply nth_In.
  apply Nat.mod_upper_bound. destruct population; [congruence|discriminate].
Qed.

Lemma choices_onto population l :
  Forall (fun c => In c population) l ->
  exists rnd, choices rnd population (length l) = l.
Proof.
  induction l as [|c l IH] using rev_ind; intros Hall.
  - exists (fun _ => 0%nat). reflexivity.
  - apply Forall_app in Hall. destruct Hall as [Hl Hc].
    inversion Hc as [|? ? Hin _]; subst.
    destruct (IH Hl) as (rnd & Hrnd).
    destruct (In_nth _ _ Ascii.zero Hin) as (n & Hn & Hnth).
    exists (fun i => if Nat.eqb i (length l) then n else rnd i).
    unfold choices in *. rewrite length_app. cbn [length].
    rewrite Nat.add_1_r, seq_S, map_app. cbn [map Nat.add].
    rewrite Nat.eqb_refl, Nat.mod_small, Hnth by exact Hn.
    f_equal. rewrite <- Hrnd at 2. apply map_ext_in.
    intros i Hi. apply in_seq in Hi.
    destruct (Nat.eqb i (length l)) eqn:E; auto.
    apply Nat.eqb_eq in E. lia.
Qed.

Lemma in_alphabet (l : list ascii) :
  forallb (fun c => existsb (Ascii.eqb c)
                      (list_ascii_of_string code_alphabet)) l = true ->
  Forall (fun c => In c (list_ascii_of_string code_alphabet)) l.
Proof.
  intros H. apply Forall_forall. intros c Hc.
  apply (proj1 (forallb_forall _ _) H) in Hc.
  apply existsb_exists in Hc. destruct Hc as (x & Hx & E).
  apply Ascii.eqb_eq in E. now subst x.
Qed.

Lemma generate_room_code_length rnd :
  String.length (generate_room_code rnd) = 6%nat.
Proof.
  unfold generate_room_code.
  now rewrite string_of_list_ascii_length, choices_length.
Qed.

(** Property X19.  A room code has six characters, each a capital letter
    or a digit, so it is never the empty string; and every string of
    six such characters is the code of some run of the generator. *)
Theorem generate_room_code_shape :
  (forall rnd : nat -> nat,
      String.length (generate_room_code rnd) = 6%nat /\
      Forall (fun c => In c (list_ascii_of_string code_alphabet))
        (list_ascii_of_string (generate_room_code rnd)) /\
      generate_room_code rnd <> "") /\
  (forall code : string,
      String.length code = 6%nat ->
      Forall (fun c => In c (list_ascii_of_string code_alphabet))
        (list_ascii_of_string code) ->
      exists rnd, generate_room_code rnd = code).
Proof.
  split.
  - intros rnd. pose proof (generate_room_code_length rnd) as Hlen.
    split; [exact Hlen|]. split.
    + unfold generate_room_code.
      rewrite list_ascii_of_string_of_list_ascii. apply Forall_forall.
      intros c Hc. eapply choices_In; eauto. discriminate.
    + intros E. rewrite E in Hlen. discriminate.
  - intros code Hlen Hall.
    destruct (choices_onto _ _ Hall) as (rnd & Hrnd).
    exists rnd. unfold generate_room_code.
    rewrite <- (string_of_list_ascii_of_string code) in Hlen.
    rewrite string_of_list_ascii_length in Hlen.
    rewrite Hlen in Hrnd. rewrite Hrnd.
    apply string_of_list_ascii_of_string.
Qed.

Lemma generate_room_code_shape_witness :
  exists rnd, generate_room_code rnd = "ROOM01".
Proof.
  apply generate_room_code_shape.
  - reflexivity.
  - apply in_alphabet. reflexivity.
Defined.

(* ================================================================= *)
(** ** Room creation *)

Lemma mem_false {V : Type} (d : Dict.t V) k :
  Dict.mem d k = false <-> Dict.get d k = None.
Proof. unfold Dict.mem. destruct (Dict.get d k); split; congruence. Qed.

Lemma unique_code_first rnds games : forall fuel j code,
  unique_code fuel rnds j games = Some code <->
  exists k, (k < fuel)%nat /\
            code = generate_room_code (rnds (j + k)%nat) /\
            Dict.mem games code = false /\
            forall i, (i < k)%nat ->
              Dict.mem games (generate_room_code (rnds (j + i)%nat)) = true.
Proof.
  induction fuel as [|fuel IH]; intros j code; cbn [unique_code].
  - split; [discriminate | intros (k & Hk & _); lia].
  - destruct (Dict.mem games (generate_room_code (rnds j))) eqn:E.
    + rewrite IH. split.
      * intros (k & Hk & Hc & Hm & Hbefore). exists (S k).
        rewrite Nat.add_succ_r. repeat split; auto; try lia.
        intros [|i] Hi; [now rewrite Nat.add_0_r|].
        rewrite Nat.add_succ_r. apply Hbefore. lia.
      * intros ([|k] & Hk & Hc & Hm & Hbefore).
        { rewrite Nat.add_0_r in Hc. subst code. congruence. }
        exists k. rewrite Nat.add_succ_r in Hc. repeat split; auto; try lia.
        intros i Hi. specialize (Hbefore (S i)).
        rewrite Nat.add_succ_r in Hbefore. apply Hbefore. lia.
    + split.
      * intros [= <-]. exists 0%nat. rewrite Nat.add_0_r.
        repeat split; auto; intros; lia.
      * intros ([|k] & Hk & Hc & Hm & Hbefore).
        { rewrite Nat.add_0_r in Hc. now subst code. }
        specialize (Hbefore 0%nat). rewrite Nat.add_0_r in Hbefore.
        rewrite Hbefore in E; [discriminate | lia].
Qed.

(** Property X20.  A created room is a new entry at the end of the store:
    its code has six characters and was in no use, the room stored
    under it is the one of [create_new_game], every other room is as it
    was, and the administrator link of the new room opens its
    administrator view.  The store that is saved is the one from which
    the runs of the administrator start. *)
Theorem created_room_is_new :
  forall (fuel : nat) (rnds : nat -> nat -> nat) (player_names : list string)
         (max_rounds : Z) (now : string) (games : store)
         (room_code : string) (games' : store),
    show_create_room fuel rnds player_names max_rounds now games
    = Some (room_code, games') ->
    let game := create_new_game room_code player_names max_rounds now in
    Dict.get games room_code = None /\
    String.length room_code = 6%nat /\
    room_code <> "" /\
    games' = games ++ [(room_code, game)] /\
    (games', None)
    = created games room_code player_names max_rounds now /\
    Dict.get games' room_code = Some game /\
    (forall other, other <> room_code ->
                   Dict.get games' other = Dict.get games other) /\
    (NoDup (Dict.keys games) -> NoDup (Dict.keys games')) /\
    (forall ev ss, main ev room_code games' ss
                   = show_admin_view ev room_code game games' ss).
Proof.
  intros fuel rnds player_names max_rounds now games room_code games' Hc game.
  unfold show_create_room in Hc.
  destruct (unique_code fuel rnds 0 games) as [code|] eqn:Hu; [|discriminate].
  injection Hc as -> <-.
  apply unique_code_first in Hu.
  destruct Hu as (k & _ & Hcode & Hm & _).
  apply mem_false in Hm.
  pose proof (generate_room_code_length (rnds (0 + k)%nat)) as Hlen.
  rewrite <- Hcode in Hlen.
  assert (Hne : room_code <> "")
    by (intros E; rewrite E in Hlen; discriminate).
  split; [exact Hm|]. split; [exact Hlen|]. split; [exact Hne|].
  split; [|split; [|split; [|split; [|split]]]].
  - apply set_fresh. now apply get_None_keys.
  - reflexivity.
  - apply get_set_same.
  - intros other Ho. now apply get_set_other.
  - apply set_keys_NoDup.
  - intros ev ss. unfold main. rewrite get_set_same.
    destruct (String.eqb room_code "") eqn:E; auto.
    apply String.eqb_eq in E. contradiction.
Qed.

Lemma created_room_is_new_witness :
  Dict.get [("AAAAAA", demo_dealt)] "BBBBBB" = None.
Proof.
  apply (created_room_is_new 2
           (fun j _ => j) ["Ana"; "Bia"] 1 "12:00" [("AAAAAA", demo_dealt)]
           "BBBBBB"
           [("AAAAAA", demo_dealt);
            ("BBBBBB", create_new_game "BBBBBB" ["Ana"; "Bia"] 1 "12:00")]).
  vm_compute. reflexivity.
Defined.

(** Property X21.  The loop of the creation form ends exactly when one of
    the generated codes is not in the store, and the room is created
    under the first such code; on an empty store the first code
    generated is taken. *)
Theorem creation_takes_first_free_code :
  forall (fuel : nat) (rnds : nat -> nat -> nat) (player_names : list string)
         (max_rounds : Z) (now : string) (games : store),
    (forall code games',
        show_create_room fuel rnds player_names max_rounds now games
        = Some (code, games') <->
        (exists k, (k < fuel)%nat /\
                   code = generate_room_code (rnds k) /\
                   Dict.mem games code = false /\
                   forall i, (i < k)%nat ->
                     Dict.mem games (generate_room_code (rnds i)) = true) /\
        games' = Dict.set games code
                   (create_new_game code player_names max_rounds now)) /\
    (show_create_room fuel rnds player_names max_rounds now games = None <->
     forall k, (k < fuel)%nat ->
               Dict.mem games (generate_room_code (rnds k)) = true) /\
    (games = [] -> (0 < fuel)%nat ->
     show_create_room fuel rnds player_names max_rounds now games
     = Some (generate_room_code (rnds 0%nat),
             [(generate_room_code (rnds 0%nat),
               create_new_game (generate_room_code (rnds 0%nat))
                 player_names max_rounds now)])).
Proof.
  intros fuel rnds player_names max_rounds now games.
  unfold show_create_room.
  pose proof (unique_code_first rnds games fuel 0) as Hfirst.
  cbn [Nat.add] in Hfirst.
  split; [|split].
  - intros code games'.
    destruct (unique_code fuel rnds 0 games) as [c|] eqn:Hu.
    + split.
      * intros [= -> <-]. split; auto. now apply Hfirst.
      * intros [Hk ->]. apply Hfirst in Hk. now injection Hk as ->.
    + split; [discriminate|].
      intros [Hk _]. apply Hfirst in Hk. discriminate.
  - destruct (unique_code fuel rnds 0 games) as [c|] eqn:Hu.
    + split; [discriminate|]. intros Hall.
      destruct (proj1 (Hfirst c) eq_refl) as (k & Hk & Hc & Hm & _).
      rewrite Hc, (Hall k Hk) in Hm. discriminate.
    + split; auto. intros _ k.
      induction k as [k IHk] using lt_wf_ind. intros Hk.
      destruct (Dict.mem games (generate_room_code (rnds k))) eqn:E; auto.
      exfalso.
      assert (H : @None string = Some (generate_room_code (rnds k)));
        [|discriminate].
      apply Hfirst. exists k.
      repeat split; auto. intros i Hi. apply IHk; lia.
  - intros -> Hfuel. destruct fuel as [|fuel]; [lia|]. reflexivity.
Qed.

Lemma creation_takes_first_free_code_witness :
  show_create_room 1 (fun _ => demo_draws) ["Ana"; "Bia"] 1 "12:00" []
  = Some (generate_room_code demo_draws,
          [(generate_room_code demo_draws,
            create_new_game (generate_room_code demo_draws) ["Ana"; "Bia"] 1
              "12:00")]).
Proof.
  apply (creation_takes_first_free_code 1 (fun _ => demo_draws)
           ["Ana"; "Bia"] 1 "12:00" []).
  - reflexivity.
  - lia.
Defined.

(* ================================================================= *)
(** ** The list of rooms to join *)

Lemma active_rooms_In games code g :
  In (code, g) (active_rooms games)
  <-> In (code, g) games /\ status g <> finished.
Proof.
  unfold active_rooms. rewrite filter_In. cbn [snd].
  destruct (status g); cbn; intuition congruence.
Qed.

Lemma active_rooms_keys_NoDup games :
  NoDup (Dict.keys games) -> NoDup (Dict.keys (active_rooms games)).
Proof.
  unfold Dict.keys, active_rooms.
  induction games as [|[k g] games IH]; cbn [map filter snd fst];
    intros Hnd; [constructor|].
  inversion Hnd as [|? ? Hni Hnd']; subst.
  destruct (negb (status_eqb (status g) finished)); auto.
  cbn [map fst]. constructor; auto.
  intros Hin. apply Hni. apply in_map_iff in Hin.
  destruct Hin as ([k' g'] & Hk & Hin). apply filter_In in Hin.
  apply in_map_iff. exists (k', g'). tauto.
Qed.

(** Property X22.  The join screen, on a store whose keys are distinct as
    those of a dictionary are: the warning is drawn exactly when every
    room of the store is finished, and otherwise the select box offers,
    once each and in the order of the store, exactly the codes of the
    rooms that are not finished. *)
Theorem join_screen_offers_unfinished_rooms :
  forall games : store,
    NoDup (Dict.keys games) ->
    (show_join_room games = NoActiveRooms <->
     forall code g, Dict.get games code = Some g -> status g = finished) /\
    (forall options,
        show_join_room games = ChooseRoom options ->
        options <> [] /\ NoDup options /\
        options = Dict.keys (active_rooms games) /\
        forall code, In code options <->
                     exists g, Dict.get games code = Some g /\
                               status g <> finished).
Proof.
  intros games Hnd.
  assert (Hact : forall code, In code (Dict.keys (active_rooms games)) <->
                   exists g, Dict.get games code = Some g /\
                             status g <> finished).
  { intros code. unfold Dict.keys. rewrite in_map_iff. split.
    - intros ([k g] & <- & Hin). apply active_rooms_In in Hin.
      exists g. split; [apply In_get; tauto | tauto].
    - intros (g & Hg & Hs). exists (code, g). split; auto.
      apply active_rooms_In. split; auto. now apply get_In. }
  assert (Hshow : show_join_room games
                  = match active_rooms games with
                    | [] => NoActiveRooms
                    | _ :: _ => ChooseRoom (Dict.keys (active_rooms games))
                    end)
    by now destruct games.
  rewrite Hshow. split.
  - destruct (active_rooms games) as [|[k g] rest] eqn:Ea.
    + split; auto. intros _ code g Hg.
      destruct (status_eqb (status g) finished) eqn:Es.
      * now destruct (status g).
      * exfalso. apply (proj2 (Hact code)).
        exists g. split; auto. intros E. rewrite E in Es. discriminate.
    + split; [discriminate|]. intros Hall. exfalso.
      destruct (proj1 (Hact k)) as (g' & Hg' & Hs); [now left|].
      apply Hs. eauto.
  - intros options Ho.
    pose proof (active_rooms_keys_NoDup games Hnd) as Hndact.
    destruct (active_rooms games) as [|[k g] rest] eqn:Ea; [discriminate|].
    injection Ho as <-.
    split; [discriminate|].
    split; [exact Hndact|].
    split; [reflexivity | exact Hact].
Qed.

Lemma join_screen_offers_unfinished_rooms_witness :
  ["ROOM01"] <> [] /\ NoDup ["ROOM01"] /\
  ["ROOM01"]
  = Dict.keys
      (active_rooms [("ROOM01", demo_dealt); ("ROOM02", demo_finished)]) /\
  forall code, In code ["ROOM01"] <->
    exists g,
      Dict.get [("ROOM01", demo_dealt); ("ROOM02", demo_finished)] code
      = Some g /\
      status g <> finished.
Proof.
  apply (join_screen_offers_unfinished_rooms
           [("ROOM01", demo_dealt); ("ROOM02", demo_finished)]).
  - vm_compute. repeat constructor; simpl; intuition discriminate.
  - reflexivity.
Defined.

(* ================================================================= *)
(** ** A whole game *)

Lemma deals_app a b : deals (a ++ b) = deals a ++ deals b.
Proof. apply flat_map_app. Qed.

Lemma deals_reveals n : deals (repeat (Widget ClickReveal) n) = [].
Proof. induction n as [|n IH]; simpl; auto. Qed.

Lemma run_app code c a b : run code c (a ++ b) = run code (run code c a) b.
Proof. unfold run. apply fold_left_app. Qed.

Lemma set_values_fresh {V : Type} (d : Dict.t V) k v :
  Dict.get d k = None -> Dict.values (Dict.set d k v) = Dict.values d ++ [v].
Proof.
  intros H. rewrite set_fresh by now apply get_None_keys.
  unfold Dict.values. now rewrite map_app.
Qed.

Lemma round_key_fresh {V : Type} (d : Dict.t V) k :
  Dict.keys d = round_keys (k - 1) -> Dict.get d (str k) = None.
Proof.
  intros Hk. apply get_None_keys. rewrite Hk.
  intros Hin. apply round_keys_In in Hin. lia.
Qed.

(** One round, played and verified with the submission that walks the
    correct order, revealed card by card and closed. *)
Lemma play_round code names rounds k rnd (now : string) c :
  code <> "" -> from_form names rounds -> NoDup names ->
  1 <= k <= rounds ->
  ready code names rounds k c ->
  exists acts,
    deals acts = [rnd] /\
    (k < rounds -> ready code names rounds (k + 1) (run code c acts)) /\
    (k = rounds -> won code rounds (run code c acts)).
Proof.
  intros Hcode [Hp Hr] Hnames Hk
    (g & Hg & Hss & Hst & Hcur & Hpl & Hmax & Hkeys & Hall).
  destruct c as [games ss]. cbn [fst snd] in *. subst ss.
  pose proof Hcode as Hcodeb. apply String.eqb_neq in Hcodeb.
  (* the deal *)
  destruct (distribute_cards_enough rnd (players g) (current_round g) 1 100)
    as (selected & _ & _ & Hd);
    [lia | rewrite Hpl, Hcur; nia |].
  set (cards := deal (players g) (current_round g) selected 0 Dict.empty)
    in *.
  assert (Htruthy : truthy cards = true).
  { apply deal_truthy. left. rewrite Hpl. intros ->.
    unfold len in Hp. simpl in Hp. lia. }
  set (g1 := with_cards g cards).
  set (games1 := Dict.set games code g1).
  assert (H1 : step code (games, None) (Widget (ClickDistribute rnd))
               = (games1, None)).
  { unfold step, main. cbn [fst snd]. rewrite Hcodeb, Hg.
    unfold show_admin_view. rewrite Hst. unfold default_range.
    rewrite Hd, Htruthy. reflexivity. }
  (* the submission *)
  destruct (distribute_cards_distinct rnd (players g) (current_round g)
              1 100 cards) as (Hkc & Hndc & _); [lia | exact Hd |].
  assert (Hcards1 : Dict.get (cards_per_round g1) (str (current_round g1))
                    = Some cards)
    by (unfold g1, with_cards; cbn [cards_per_round current_round];
        apply get_set_same).
  assert (Hst1 : status g1 = playing) by reflexivity.
  assert (Hwalk : len (walk cards) = len (players g1) * current_round g1).
  { cbn [g1 with_cards players current_round].
    apply (dealt_walk_length rnd); [now rewrite Hpl | lia | exact Hd]. }
  set (correct := sorted (all_cards cards)).
  set (r := Result.mk correct correct true now).
  assert (Hv : verify_order g1 (walk cards) now = Ok (Some r)).
  { destruct (walk_accepted code g1 games1 None now cards
                Hst1 Hcards1 Hkc Hndc Hwalk) as (_ & Hv & _).
    exact Hv. }
  set (g2 := with_result g1 r).
  set (games2 := Dict.set games1 code g2).
  set (rd := new_reveal (current_round g1) r).
  assert (H2 : step code (games1, None)
                 (Widget (SubmitOrder (walk cards) now))
               = (games2, Some rd)).
  { assert (Hroom1 : Dict.get games1 code = Some g1)
      by (unfold games1; apply get_set_same).
    unfold step, main. cbn [fst snd]. rewrite Hcodeb, Hroom1.
    rewrite (submit_accepted code g1 games1 None (walk cards) now r Hst1 Hv).
    reflexivity. }
  (* the reveal *)
  assert (Hst2 : status g2 = playing) by reflexivity.
  assert (Hroom2 : Dict.get games2 code = Some g2)
    by (unfold games2; apply get_set_same).
  set (rd' := reveal_at rd (length correct)).
  assert (H3 : run code (games2, Some rd)
                 (repeat (Widget ClickReveal) (length correct))
               = (games2, Some rd')).
  { apply (run_reveal code g2 games2 Hst2 Hcode Hroom2 (length correct) rd).
    apply Nat.le_refl. }
  assert (Hdone : reveal_pending rd' = false).
  { apply reveal_pending_ge. cbn. lia. }
  (* the end of the round *)
  set (g3 := advance g2).
  assert (H4 : step code (games2, Some rd') (Widget ClickContinue)
               = (Dict.set games2 code g3, None)).
  { unfold step, main. cbn [fst snd]. rewrite Hcodeb, Hroom2.
    rewrite (click_continue_complete code g2 games2 Hst2 rd' Hdone).
    reflexivity. }
  exists ([Widget (ClickDistribute rnd);
           Widget (SubmitOrder (walk cards) now)]
          ++ repeat (Widget ClickReveal) (length correct)
          ++ [Widget ClickContinue]).
  assert (Hrun : run code (games, None)
                   ([Widget (ClickDistribute rnd);
                     Widget (SubmitOrder (walk cards) now)]
                    ++ repeat (Widget ClickReveal) (length correct)
                    ++ [Widget ClickContinue])
                 = (Dict.set games2 code g3, None)).
  { rewrite !run_app.
    change (run code (games, None)
              [Widget (ClickDistribute rnd);
               Widget (SubmitOrder (walk cards) now)])
      with (step code (step code (games, None) (Widget (ClickDistribute rnd)))
              (Widget (SubmitOrder (walk cards) now))).
    rewrite H1, H2, H3. exact H4. }
  repeat match goal with
    | |- context [run code ?c0 ?a] =>
        replace (run code c0 a) with (Dict.set games2 code g3, @None Reveal.t)
          by (symmetry; exact Hrun)
    end.
  cbn [fst snd].
  assert (Hfresh : Dict.get (results g) (str (current_round g)) = None)
    by (apply round_key_fresh; now rewrite Hcur).
  assert (Hkeys2 : Dict.keys (results g2) = round_keys k).
  { cbn [g2 g1 with_result with_cards results current_round].
    rewrite set_keys. unfold Dict.mem. rewrite Hfresh, Hkeys, Hcur.
    apply round_keys_snoc. lia. }
  assert (Hall2 : Forall (fun r => Result.is_correct r = true)
                    (Dict.values (results g2))).
  { cbn [g2 g1 with_result with_cards results current_round].
    rewrite set_values_fresh by exact Hfresh.
    apply Forall_app. split; auto. }
  assert (Hcur2 : current_round g2 = k) by exact Hcur.
  assert (Hmax2 : max_rounds g2 = rounds) by exact Hmax.
  split; [|split].
  - rewrite !deals_app, deals_reveals. reflexivity.
  - intros Hlt. unfold ready. cbn [fst snd].
    exists g3. rewrite get_set_same.
    unfold g3, advance. rewrite Hcur2, Hmax2.
    apply Z.ltb_lt in Hlt. rewrite Hlt.
    cbn [status current_round players max_rounds results].
    replace (k + 1 - 1) with k by lia.
    repeat split; auto.
  - intros Heq. unfold won. cbn [fst snd].
    exists g3. rewrite get_set_same.
    unfold g3, advance. rewrite Hcur2, Hmax2, Heq, Z.ltb_irrefl.
    cbn [status current_round players max_rounds results].
    rewrite <- Heq. repeat split; auto.
Qed.

Lemma play_rounds code names rounds rnds (now : string) :
  code <> "" -> from_form names rounds -> NoDup names ->
  forall m k c,
    1 <= k -> k + Z.of_nat m = rounds ->
    ready code names rounds k c ->
    exists acts,
      deals acts = map rnds (seq (Z.to_nat (k - 1)) (S m)) /\
      won code rounds (run code c acts).
Proof.
  intros Hcode Hform Hnames.
  induction m as [|m IH]; intros k c Hk Hm Hready.
  - destruct (play_round code names rounds k (rnds (Z.to_nat (k - 1))) now c
                Hcode Hform Hnames) as (acts & Hd & _ & Hwon);
      [lia | exact Hready |].
    exists acts. split; [exact Hd | apply Hwon; lia].
  - destruct (play_round code names rounds k (rnds (Z.to_nat (k - 1))) now c
                Hcode Hform Hnames) as (acts & Hd & Hnext & _);
      [lia | exact Hready |].
    destruct (IH (k + 1) (run code c acts)) as (acts' & Hd' & Hwon);
      [lia | lia | apply Hnext; lia |].
    exists (acts ++ acts'). rewrite deals_app, run_app, Hd, Hd'.
    split; [|exact Hwon].
    replace (Z.to_nat (k + 1 - 1)) with (S (Z.to_nat (k - 1))) by lia.
    reflexivity.
Qed.

(** Property X23.  A room created through the form with distinct names can
    always be played to the end: whatever the draws of the successive
    distributions, there are actions of the administrator, with one
    distribution for each round, after which the game is finished, in
    its last round, and the results screen scores every round as
    correct. *)
Theorem perfect_game_can_be_played :
  forall (games : store) (code : string) (names : list string)
         (rounds : Z) (now : string) (rnds : nat -> nat -> nat),
    code <> "" -> from_form names rounds -> NoDup names ->
    exists acts,
      deals acts = map rnds (seq 0 (Z.to_nat rounds)) /\
      exists g,
        Dict.get (fst (run code (created games code names rounds now) acts))
          code = Some g /\
        status g = finished /\ current_round g = rounds /\
        show_game_results g = Some (Z.to_nat rounds, Z.to_nat rounds).
Proof.
  intros games code names rounds now rnds Hcode Hform Hnames.
  pose proof Hform as [_ Hr].
  destruct (play_rounds code names rounds rnds now Hcode Hform Hnames
              (Z.to_nat (rounds - 1)) 1
              (created games code names rounds now))
    as (acts & Hd & g & Hg & Hst & Hcur & Hkeys & Hall); [lia | lia | |].
  { exists (create_new_game code names rounds now).
    unfold created. cbn [fst snd]. rewrite get_set_same.
    repeat split. constructor. }
  exists acts. split.
  { rewrite Hd. cbn [Z.sub Z.to_nat Z.add Z.opp Z.pos_sub].
    f_equal. f_equal. lia. }
  exists g. repeat split; auto.
  assert (Hlen : length (results g) = Z.to_nat rounds).
  { rewrite <- round_keys_length, <- Hkeys. unfold Dict.keys.
    now rewrite length_map. }
  unfold show_game_results.
  destruct (results g) as [|kv rest] eqn:E; [simpl in Hlen; lia|].
  rewrite <- Hlen. do 2 f_equal.
  rewrite forallb_filter_id.
  - unfold Dict.values. apply length_map.
  - apply forallb_forall. apply Forall_forall. exact Hall.
Qed.

Lemma perfect_game_can_be_played_witness :
  exists acts,
    deals acts = map (fun _ => demo_draws) (seq 0 (Z.to_nat 3)) /\
    exists g,
      Dict.get (fst (run "ROOM02"
                       (created [] "ROOM02" ["Caio"; "Duda"] 3 "11:30") acts))
        "ROOM02" = Some g /\
      status g = finished /\ current_round g = 3 /\
      show_game_results g = Some (Z.to_nat 3, Z.to_nat 3).
Proof.
  apply (perfect_game_can_be_played [] "ROOM02" ["Caio"; "Duda"] 3 "11:30"
           (fun _ => demo_draws)).
  - discriminate.
  - split; vm_compute; split; discriminate.
  - repeat constructor; simpl; intuition discriminate.
Defined.
